(** * robosuite base controller: a shallow embedding and its verified properties

    Source: [robosuite/controllers/base_controller.py], class [Controller].

    Modelling conventions.
    - Python/NumPy floating-point numbers are modelled by the real numbers [R]:
      every statement below is a statement about exact arithmetic.
    - A one-dimensional NumPy array is a [list R]; element-wise binary
      operators follow NumPy's broadcasting rule for one-dimensional operands
      (a length-one operand is stretched, any other length mismatch raises
      [ValueError]).
    - A division of Python floats by zero raises [ZeroDivisionError]: this
      is the case of the duration in [built_next_desired_point].  Element-wise
      division of NumPy arrays does not raise; for a zero divisor it yields
      [inf] or [nan], which the real numbers do not have: the values stated
      for [scale_action] are those of input ranges of non-zero width.
    - Cartesian 3-vectors are triples and 3x3 matrices are triples of rows.
    - A method of the class is a computation in a state-and-exception monad
      over the pair (controller object, simulator object).  A raised
      exception aborts the computation; the partially mutated object that
      Python would leave behind is not modelled.
    - The simulator ([mujoco_py]) and the helper module
      [robosuite.utils.transform_utils] are not part of the source file; they
      are interfaces ([MuJoCo], [TransformUtils]) the development is
      parametric in. *)

From Stdlib Require Import String DecimalString.
From Stdlib Require Import Reals Lra Psatz ZArith Bool List.
Import ListNotations.

Open Scope R_scope.

(** ** Exceptions and results *)

Inductive exn : Type :=
| TypeError
| ValueError
| IndexError
| KeyError
| AttributeError
| UnboundLocalError
| NotImplementedError
| ZeroDivisionError.

Inductive result (A : Type) : Type :=
| Ok (a : A)
| Raise (e : exn).

Arguments Ok {A} a.
Arguments Raise {A} e.

Definition rbind {A B : Type} (r : result A) (k : A -> result B) : result B :=
  match r with
  | Ok a => k a
  | Raise e => Raise e
  end.

(** An attribute holding [None] used as an operand of arithmetic. *)
Definition not_None {A : Type} (o : option A) : result A :=
  match o with
  | Some a => Ok a
  | None => Raise TypeError
  end.

(** The divisor of a division of Python floats: zero raises. *)
Definition divisor (d : R) : result unit :=
  if Req_dec_T d 0 then Raise ZeroDivisionError else Ok tt.

(** An attribute that has not been assigned yet. *)
Definition has_attr {A : Type} (o : option A) : result A :=
  match o with
  | Some a => Ok a
  | None => Raise AttributeError
  end.

(** ** NumPy arrays *)

Definition ndarray : Type := list R.
Definition matrix : Type := list (list R).
Definition vec3 : Type := (R * R * R)%type.
Definition mat3 : Type := (vec3 * vec3 * vec3)%type.
Definition vec9 : Type := (R * R * R * R * R * R * R * R * R)%type.

Fixpoint zip_with (f : R -> R -> R) (a b : list R) : list R :=
  match a, b with
  | x :: a', y :: b' => f x y :: zip_with f a' b'
  | _, _ => []
  end.

(** Element-wise binary operator on one-dimensional arrays, with
    broadcasting. *)
Definition broadcast (f : R -> R -> R) (a b : ndarray) : result ndarray :=
  match a, b with
  | [x], _ => Ok (map (f x) b)
  | _, [y] => Ok (map (fun x => f x y) a)
  | _, _ =>
      if Nat.eqb (length a) (length b) then Ok (zip_with f a b)
      else Raise ValueError
  end.

Definition np_add := broadcast Rplus.
Definition np_sub := broadcast Rminus.
Definition np_mul := broadcast Rmult.
Definition np_div := broadcast Rdiv.
Definition np_maximum := broadcast Rmax.
Definition np_minimum := broadcast Rmin.
Definition np_abs (a : ndarray) : ndarray := map Rabs a.
Definition np_div_scalar (a : ndarray) (k : R) : ndarray :=
  map (fun x => x / k) a.

(** [np.clip(a, lo, hi)] is [np.minimum(hi, np.maximum(a, lo))]. *)
Definition clip1 (a lo hi : R) : R := Rmin hi (Rmax a lo).

Definition np_clip (a lo hi : ndarray) : result ndarray :=
  rbind (np_maximum a lo) (fun m => np_minimum hi m).

(** [np.ones(dim) * x]; a negative [dim] is rejected by [np.ones]. *)
Definition np_ones (dim : Z) : result ndarray :=
  if (dim <? 0)%Z then Raise ValueError else Ok (repeat 1 (Z.to_nat dim)).

(** Python indexing of a sequence by an integer: negative indices count from
    the end, anything outside [-len, len) raises [IndexError]. *)
Definition py_index {A : Type} (l : list A) (i : Z) : result A :=
  let n := Z.of_nat (length l) in
  let j := if (i <? 0)%Z then (i + n)%Z else i in
  if ((0 <=? j)%Z && (j <? n)%Z)%bool then
    match nth_error l (Z.to_nat j) with
    | Some a => Ok a
    | None => Raise IndexError
    end
  else Raise IndexError.

(** Indexing by a list of integers ([a[idx]] with [idx] a list). *)
Fixpoint py_take {A : Type} (l : list A) (idx : list Z) : result (list A) :=
  match idx with
  | [] => Ok []
  | i :: idx' =>
      rbind (py_index l i) (fun a =>
      rbind (py_take l idx') (fun r => Ok (a :: r)))
  end.

(** [m[:, idx]]: the same column selection in every row. *)
Fixpoint py_take_cols (m : matrix) (idx : list Z) : result matrix :=
  match m with
  | [] => Ok []
  | row :: m' =>
      rbind (py_take row idx) (fun r =>
      rbind (py_take_cols m' idx) (fun rs => Ok (r :: rs)))
  end.

(** Consecutive rows of [cols] entries each, [rows] of them. *)
Fixpoint chunks (rows cols : nat) (a : list R) : matrix :=
  match rows with
  | O => []
  | S rows' => firstn cols a :: chunks rows' cols (skipn cols a)
  end.

(** [a.reshape((3, -1))]. *)
Definition reshape_3_rows (a : ndarray) : result matrix :=
  if Nat.eqb (Nat.modulo (length a) 3) 0
  then Ok (chunks 3 (Nat.div (length a) 3) a)
  else Raise ValueError.

(** [np.reshape(a, (rows, cols))]. *)
Definition np_reshape (rows cols : nat) (a : ndarray) : result matrix :=
  if Nat.eqb (length a) (rows * cols) then Ok (chunks rows cols a)
  else Raise ValueError.

(** [a.reshape([3, 3])] of a row of nine entries. *)
Definition reshape_3_3 (a : vec9) : mat3 :=
  let '(a0, a1, a2, a3, a4, a5, a6, a7, a8) := a in
  ((a0, a1, a2), (a3, a4, a5), (a6, a7, a8)).

(** ** Operations on 3-vectors *)

Definition v3_map (f : R -> R) (v : vec3) : vec3 :=
  let '(x, y, z) := v in (f x, f y, f z).

Definition v3_scale (k : R) (v : vec3) : vec3 := v3_map (fun x => k * x) v.

Definition v3_zip (f : R -> R -> R) (u v : vec3) : vec3 :=
  let '(a, b, c) := u in let '(x, y, z) := v in (f a x, f b y, f c z).

Definition m3_map (f : R -> R) (m : mat3) : mat3 :=
  let '(r0, r1, r2) := m in (v3_map f r0, v3_map f r1, v3_map f r2).

Definition v3_zero : vec3 := (0, 0, 0).

(** [np.linalg.norm] of a 3-vector. *)
Definition np_linalg_norm (v : vec3) : R :=
  let '(x, y, z) := v in sqrt (x * x + y * y + z * z).

(** ** The simulator interface

    What the controller reads from [self.sim].  [MjData] holds the arrays of
    [sim.data]; [MjModel] the site names of [sim.model]. *)

Record MjModel : Type := {
  site_names : list string
}.

Record MjData : Type := {
  time : R;
  site_xpos : list vec3;
  site_xmat : list vec9;
  site_xvelp : list vec3;
  site_xvelr : list vec3;
  qpos : ndarray;
  qvel : ndarray;
  get_site_jacp : string -> result ndarray;
  get_site_jacr : string -> result ndarray;
  qM : ndarray;
  qfrc_bias : ndarray
}.

(** Every access to the simulator made by the controller is logged. *)
Inductive SimCall : Type :=
| call_forward
| call_site_name2id
| read_site_xpos
| read_site_xmat
| read_site_xvelp
| read_site_xvelr
| read_qpos
| read_qvel
| call_get_site_jacp
| call_get_site_jacr
| read_qM
| call_mj_fullM
| read_time
| read_qfrc_bias.

Record MjSim : Type := {
  model : MjModel;
  data : MjData;
  calls : list SimCall
}.

(** The physics engine itself: [sim.forward()] and
    [mujoco_py.cymj._mj_fullM], which writes entry [k] of the dense mass
    matrix into the buffer it is given. *)
Class MuJoCo : Type := {
  mj_forward : MjModel -> MjData -> MjData;
  mj_fullM : MjModel -> ndarray -> nat -> R
}.

(** [robosuite.utils.transform_utils], imported as [T], and the constant
    [robosuite.utils.macros.SIMULATION_TIMESTEP]. *)
Class TransformUtils : Type := {
  mat2euler : mat3 -> vec3;
  Rotation_Matrix_To_Vector : mat3 -> mat3 -> vec3;
  Axis2Vector : vec3 -> R * vec3;
  SIMULATION_TIMESTEP : R
}.

Fixpoint index_of (name : string) (names : list string) : option nat :=
  match names with
  | [] => None
  | n :: names' =>
      if String.eqb n name then Some O
      else option_map S (index_of name names')
  end.

(** ** The controller object *)

(** One evaluated trajectory point: [[position, orientation, velocity,
    ang_vel]]. *)
Definition TrajPoint : Type := (vec3 * vec3 * vec3 * vec3)%type.

(** A value of the [via_point] dictionary. *)
Inductive via_value : Type :=
| ViaPos (p : vec3)
| ViaOri (o : mat3).

Definition via_dict : Type := list (string * via_value).

Fixpoint dict_get (d : via_dict) (k : string) : result via_value :=
  match d with
  | [] => Raise KeyError
  | (k', v) :: d' => if String.eqb k' k then Ok v else dict_get d' k
  end.

Definition as_pos (v : via_value) : result vec3 :=
  match v with ViaPos p => Ok p | ViaOri _ => Raise TypeError end.

Definition as_ori (v : via_value) : result mat3 :=
  match v with ViaOri o => Ok o | ViaPos _ => Raise TypeError end.

(** Attributes for scaling / clipping inputs to outputs. *)
Record Scaling : Type := {
  action_scale : option ndarray;
  action_input_transform : option ndarray;
  action_output_transform : option ndarray
}.

(** Private property attributes. *)
Record Props : Type := {
  control_dim : option Z;
  output_min : option ndarray;
  output_max : option ndarray;
  input_min : option ndarray;
  input_max : option ndarray
}.

(** Robot states, dynamics and kinematics. *)
Record RobotState : Type := {
  ee_pos : option vec3;
  ee_ori_mat : option mat3;
  ee_pos_vel : option vec3;
  ee_ori_vel : option vec3;
  joint_pos : option ndarray;
  joint_vel : option ndarray;
  J_pos : option matrix;
  J_ori : option matrix;
  J_full : option matrix;
  mass_matrix : option matrix
}.

(** Reference pose captured at construction. *)
Record Initial : Type := {
  initial_joint : option ndarray;
  initial_ee_pos : option vec3;
  initial_ee_ori_mat : option mat3;
  initial_ee_ori_vel : option vec3
}.

(** Attributes assigned by [built_min_jerk_traj]; [None] stands for an
    attribute that does not exist yet. *)
Record Trajectory : Type := {
  final_orientation : option mat3;
  initial_orientation : option mat3;
  fin_orientation : option vec3;
  init_orientation : option vec3;
  X_init : option R;
  Y_init : option R;
  Z_init : option R;
  X_final : option R;
  Y_final : option R;
  Z_final : option R;
  t_finial : option R;
  t_bias : option R
}.

Record Controller : Type := {
  actuator_min : ndarray;
  actuator_max : ndarray;
  scaling : Scaling;
  props : Props;
  model_timestep : R;
  eef_name : string;
  joint_index : list Z;
  qpos_index : list Z;
  qvel_index : list Z;
  robot : RobotState;
  joint_dim : nat;
  torques : option ndarray;
  new_update : bool;
  initial : Initial;
  desired_vec_fin : list TrajPoint;
  switch : Z;
  (** [self.method] is assigned by the concrete controller classes. *)
  method : option string;
  traj : Trajectory
}.

Definition set_scaling (s : Scaling) (c : Controller) : Controller :=
  {| actuator_min := actuator_min c; actuator_max := actuator_max c;
     scaling := s; props := props c; model_timestep := model_timestep c;
     eef_name := eef_name c; joint_index := joint_index c;
     qpos_index := qpos_index c; qvel_index := qvel_index c;
     robot := robot c; joint_dim := joint_dim c; torques := torques c;
     new_update := new_update c; initial := initial c;
     desired_vec_fin := desired_vec_fin c; switch := switch c;
     method := method c; traj := traj c |}.

Definition set_robot (r : RobotState) (c : Controller) : Controller :=
  {| actuator_min := actuator_min c; actuator_max := actuator_max c;
     scaling := scaling c; props := props c;
     model_timestep := model_timestep c;
     eef_name := eef_name c; joint_index := joint_index c;
     qpos_index := qpos_index c; qvel_index := qvel_index c;
     robot := r; joint_dim := joint_dim c; torques := torques c;
     new_update := new_update c; initial := initial c;
     desired_vec_fin := desired_vec_fin c; switch := switch c;
     method := method c; traj := traj c |}.

Definition set_new_update (b : bool) (c : Controller) : Controller :=
  {| actuator_min := actuator_min c; actuator_max := actuator_max c;
     scaling := scaling c; props := props c;
     model_timestep := model_timestep c;
     eef_name := eef_name c; joint_index := joint_index c;
     qpos_index := qpos_index c; qvel_index := qvel_index c;
     robot := robot c; joint_dim := joint_dim c; torques := torques c;
     new_update := b; initial := initial c;
     desired_vec_fin := desired_vec_fin c; switch := switch c;
     method := method c; traj := traj c |}.

Definition set_initial (i : Initial) (c : Controller) : Controller :=
  {| actuator_min := actuator_min c; actuator_max := actuator_max c;
     scaling := scaling c; props := props c;
     model_timestep := model_timestep c;
     eef_name := eef_name c; joint_index := joint_index c;
     qpos_index := qpos_index c; qvel_index := qvel_index c;
     robot := robot c; joint_dim := joint_dim c; torques := torques c;
     new_update := new_update c; initial := i;
     desired_vec_fin := desired_vec_fin c; switch := switch c;
     method := method c; traj := traj c |}.

Definition set_desired_vec_fin (h : list TrajPoint) (c : Controller)
  : Controller :=
  {| actuator_min := actuator_min c; actuator_max := actuator_max c;
     scaling := scaling c; props := props c;
     model_timestep := model_timestep c;
     eef_name := eef_name c; joint_index := joint_index c;
     qpos_index := qpos_index c; qvel_index := qvel_index c;
     robot := robot c; joint_dim := joint_dim c; torques := torques c;
     new_update := new_update c; initial := initial c;
     desired_vec_fin := h; switch := switch c;
     method := method c; traj := traj c |}.

Definition set_traj (t : Trajectory) (c : Controller) : Controller :=
  {| actuator_min := actuator_min c; actuator_max := actuator_max c;
     scaling := scaling c; props := props c;
     model_timestep := model_timestep c;
     eef_name := eef_name c; joint_index := joint_index c;
     qpos_index := qpos_index c; qvel_index := qvel_index c;
     robot := robot c; joint_dim := joint_dim c; torques := torques c;
     new_update := new_update c; initial := initial c;
     desired_vec_fin := desired_vec_fin c; switch := switch c;
     method := method c; traj := t |}.

(** ** The monad of methods *)

Record World : Type := {
  self : Controller;
  sim : MjSim
}.

Definition M (A : Type) : Type := World -> result (A * World).

Definition ret {A : Type} (a : A) : M A := fun w => Ok (a, w).

Definition bind {A B : Type} (m : M A) (k : A -> M B) : M B :=
  fun w =>
    match m w with
    | Ok (a, w') => k a w'
    | Raise e => Raise e
    end.

Definition raise {A : Type} (e : exn) : M A := fun _ => Raise e.

Definition lift {A : Type} (r : result A) : M A :=
  fun w => match r with Ok a => Ok (a, w) | Raise e => Raise e end.

Definition get_self : M Controller := fun w => Ok (self w, w).

Definition modify_self (f : Controller -> Controller) : M unit :=
  fun w => Ok (tt, {| self := f (self w); sim := sim w |}).

Declare Scope method_scope.
Delimit Scope method_scope with method.
Notation "x <- m ;; k" := (bind m (fun x => k))
  (at level 61, m at next level, right associativity) : method_scope.
Notation "m ;; k" := (bind m (fun _ => k))
  (at level 61, right associativity) : method_scope.
Open Scope method_scope.

Definition log_call (k : SimCall) (s : MjSim) : MjSim :=
  {| model := model s; data := data s; calls := calls s ++ [k] |}.

(** Reading an array of [self.sim.data]. *)
Definition sim_read {A : Type} (k : SimCall) (f : MjData -> A) : M A :=
  fun w =>
    Ok (f (data (sim w)), {| self := self w; sim := log_call k (sim w) |}).

(** [self.sim.model.site_name2id(name)]. *)
Definition site_name2id (name : string) : M Z :=
  fun w =>
    match index_of name (site_names (model (sim w))) with
    | Some i =>
        Ok (Z.of_nat i,
            {| self := self w; sim := log_call call_site_name2id (sim w) |})
    | None => Raise ValueError
    end.

(** [self.sim.forward()]. *)
Definition sim_forward `{MuJoCo} : M unit :=
  fun w =>
    let s := sim w in
    Ok (tt, {| self := self w;
               sim := {| model := model s;
                         data := mj_forward (model s) (data s);
                         calls := calls s ++ [call_forward] |} |}).

(** ** Methods of [Controller] *)

(** [np.clip] with bounds that may be [None]: a missing bound is not
    applied, and NumPy rejects the call when both are missing. *)
Definition np_clip_opt (a : ndarray) (lo hi : option ndarray)
  : result ndarray :=
  match lo, hi with
  | Some l, Some h => np_clip a l h
  | Some l, None => np_maximum a l
  | None, Some h => np_minimum h a
  | None, None => Raise ValueError
  end.

Definition scale_action (action : ndarray) : M ndarray :=
  c <- get_self ;;
  (match action_scale (scaling c) with
   | None =>
       omax <- lift (not_None (output_max (props c))) ;;
       omin <- lift (not_None (output_min (props c))) ;;
       d_out <- lift (np_sub omax omin) ;;
       imax <- lift (not_None (input_max (props c))) ;;
       imin <- lift (not_None (input_min (props c))) ;;
       d_in <- lift (np_sub imax imin) ;;
       scale <- lift (np_div (np_abs d_out) (np_abs d_in)) ;;
       s_out <- lift (np_add omax omin) ;;
       s_in <- lift (np_add imax imin) ;;
       modify_self (set_scaling
         {| action_scale := Some scale;
            action_input_transform := Some (np_div_scalar s_in 2);
            action_output_transform := Some (np_div_scalar s_out 2) |})
   | Some _ => ret tt
   end) ;;
  c <- get_self ;;
  action <- lift (np_clip_opt action (input_min (props c))
                                     (input_max (props c))) ;;
  in_t <- lift (not_None (action_input_transform (scaling c))) ;;
  centred <- lift (np_sub action in_t) ;;
  scale <- lift (not_None (action_scale (scaling c))) ;;
  scaled <- lift (np_mul centred scale) ;;
  out_t <- lift (not_None (action_output_transform (scaling c))) ;;
  transformed_action <- lift (np_add scaled out_t) ;;
  ret transformed_action.

Definition clip_torques (torques : ndarray) : M ndarray :=
  c <- get_self ;;
  lift (np_clip torques (actuator_min c) (actuator_max c)).

(** The base-class body of the abstract [run_controller]. *)
Definition run_controller : M unit :=
  modify_self (set_new_update true).

Definition reset_goal : M unit := raise NotImplementedError.

(** The argument of [nums2array]: text, a single number, or an iterable of
    numbers (list, tuple or one-dimensional array). *)
Inductive pyvalue : Type :=
| PyStr (s : string)
| PyNum (x : R)
| PySeq (l : list R).

Definition is_str (v : pyvalue) : bool :=
  match v with PyStr _ => true | _ => false end.

Definition is_Iterable (v : pyvalue) : bool :=
  match v with PyStr _ | PySeq _ => true | PyNum _ => false end.

(** [np.array(nums)] for an iterable of numbers, and [np.ones(dim) * nums]
    for a number; text reaches neither. *)
Definition np_array (nums : pyvalue) : result ndarray :=
  match nums with
  | PySeq l => Ok l
  | PyNum x => Ok [x]
  | PyStr _ => Raise TypeError
  end.

Definition np_ones_times (dim : Z) (nums : pyvalue) : result ndarray :=
  match nums with
  | PyNum x => rbind (np_ones dim) (fun o => Ok (map (fun e => e * x) o))
  | PySeq l => rbind (np_ones dim) (fun o => np_mul o l)
  | PyStr _ => Raise TypeError
  end.

Definition nums2array (nums : pyvalue) (dim : Z) : result ndarray :=
  if is_str nums then Raise TypeError
  else if is_Iterable nums then np_array nums
  else np_ones_times dim nums.

Section WithSimulator.
Context `{MJ : MuJoCo}.

(** [mass_matrix = np.ndarray(shape=(size,))] filled in place by
    [mujoco_py.cymj._mj_fullM(self.sim.model, mass_matrix, self.sim.data.qM)]. *)
Definition sim_fullM (size : nat) : M ndarray :=
  fun w =>
    let s := sim w in
    Ok (map (mj_fullM (model s) (qM (data s))) (seq 0 size),
        {| self := self w;
           sim := log_call call_mj_fullM (log_call read_qM s) |}).

(** The simulator queries of [update], in source order, and the values it
    assigns to the robot-state attributes.  The source assigns each
    attribute as soon as it is computed; here they are assigned together
    once every query has succeeded. *)
Definition query_robot_state : M RobotState :=
  c <- get_self ;;
  sim_forward ;;
  xpos <- sim_read read_site_xpos site_xpos ;;
  id <- site_name2id (eef_name c) ;;
  ee_pos' <- lift (py_index xpos id) ;;
  xmat <- sim_read read_site_xmat site_xmat ;;
  id <- site_name2id (eef_name c) ;;
  row <- lift (py_index xmat id) ;;
  let ee_ori_mat' := reshape_3_3 row in
  xvelp <- sim_read read_site_xvelp site_xvelp ;;
  id <- site_name2id (eef_name c) ;;
  ee_pos_vel' <- lift (py_index xvelp id) ;;
  xvelr <- sim_read read_site_xvelr site_xvelr ;;
  id <- site_name2id (eef_name c) ;;
  ee_ori_vel' <- lift (py_index xvelr id) ;;
  q <- sim_read read_qpos qpos ;;
  joint_pos' <- lift (py_take q (qpos_index c)) ;;
  v <- sim_read read_qvel qvel ;;
  joint_vel' <- lift (py_take v (qvel_index c)) ;;
  jp <- sim_read call_get_site_jacp
          (fun d => get_site_jacp d (eef_name c)) ;;
  jp <- lift jp ;;
  jp <- lift (reshape_3_rows jp) ;;
  J_pos' <- lift (py_take_cols jp (qvel_index c)) ;;
  jr <- sim_read call_get_site_jacr
          (fun d => get_site_jacr d (eef_name c)) ;;
  jr <- lift jr ;;
  jr <- lift (reshape_3_rows jr) ;;
  J_ori' <- lift (py_take_cols jr (qvel_index c)) ;;
  let J_full' := J_pos' ++ J_ori' in
  v <- sim_read read_qvel qvel ;;
  buffer <- sim_fullM (length v * length v) ;;
  v1 <- sim_read read_qvel qvel ;;
  v2 <- sim_read read_qvel qvel ;;
  full <- lift (np_reshape (length v1) (length v2) buffer) ;;
  rows <- lift (py_take full (qvel_index c)) ;;
  mass_matrix' <- lift (py_take_cols rows (qvel_index c)) ;;
  ret {| ee_pos := Some ee_pos';
         ee_ori_mat := Some ee_ori_mat';
         ee_pos_vel := Some ee_pos_vel';
         ee_ori_vel := Some ee_ori_vel';
         joint_pos := Some joint_pos';
         joint_vel := Some joint_vel';
         J_pos := Some J_pos';
         J_ori := Some J_ori';
         J_full := Some J_full';
         mass_matrix := Some mass_matrix' |}.

Definition update (force : bool) : M unit :=
  c <- get_self ;;
  if (new_update c || force)%bool then
    r <- query_robot_state ;;
    modify_self (fun c => set_new_update false (set_robot r c))
  else ret tt.

End WithSimulator.

(** [np.round] of one entry: the nearest integer, a tie going to the even
    neighbour. *)
Definition np_round (x : R) : R :=
  let f := Int_part x in
  let d := frac_part x in
  if Rlt_dec d (1 / 2) then IZR f
  else if Rlt_dec (1 / 2) d then IZR (f + 1)
  else if Z.even f then IZR f else IZR (f + 1).

(** [str(n)] for an integer [n]. *)
Definition py_str (n : Z) : string := NilZero.string_of_int (Z.to_int n).

Definition point_position (p : TrajPoint) : vec3 :=
  let '(position, _, _, _) := p in position.

Definition point_orientation (p : TrajPoint) : vec3 :=
  let '(_, orientation, _, _) := p in orientation.

(** [dst[:2] = src[:2]] on 3-vectors. *)
Definition assign_first_two (dst src : vec3) : vec3 :=
  let '(_, _, z) := dst in let '(x, y, _) := src in (x, y, z).

(** The blending polynomial of the source, written once; the source writes
    it out for each axis.  The divisions are those of the real numbers:
    [desired_point_locals] evaluates the polynomials only after the
    duration has passed its [divisor] test. *)
Definition quintic (fin ini T t : R) : R :=
  (fin - ini) / (T ^ 3)
  * (6 * (t ^ 5) / (T ^ 2) - 15 * (t ^ 4) / T + 10 * (t ^ 3)) + ini.

Definition quintic_vel (fin ini T t : R) : R :=
  (fin - ini) / (T ^ 3)
  * (30 * (t ^ 4) / (T ^ 2) - 60 * (t ^ 3) / T + 30 * (t ^ 2)).

Definition quintic_acc (fin ini T t : R) : R :=
  (fin - ini) / (T ^ 3)
  * (120 * (t ^ 3) / (T ^ 2) - 180 * (t ^ 2) / T + 60 * t).

(** The local variables of [built_next_desired_point] at its last line. *)
Record Locals : Type := {
  position : vec3;
  velocity : vec3;
  acceleration : vec3;
  orientation : vec3;
  ang_vel : vec3
}.

Definition upper_bound : R := 1 / 1000000.


Definition set_method (m : string) (c : Controller) : Controller :=
  {| actuator_min := actuator_min c; actuator_max := actuator_max c;
     scaling := scaling c; props := props c;
     model_timestep := model_timestep c;
     eef_name := eef_name c; joint_index := joint_index c;
     qpos_index := qpos_index c; qvel_index := qvel_index c;
     robot := robot c; joint_dim := joint_dim c; torques := torques c;
     new_update := new_update c; initial := initial c;
     desired_vec_fin := desired_vec_fin c; switch := switch c;
     method := Some m; traj := traj c |}.

Definition set_switch (n : Z) (c : Controller) : Controller :=
  {| actuator_min := actuator_min c; actuator_max := actuator_max c;
     scaling := scaling c; props := props c;
     model_timestep := model_timestep c;
     eef_name := eef_name c; joint_index := joint_index c;
     qpos_index := qpos_index c; qvel_index := qvel_index c;
     robot := robot c; joint_dim := joint_dim c; torques := torques c;
     new_update := new_update c; initial := initial c;
     desired_vec_fin := desired_vec_fin c; switch := n;
     method := method c; traj := traj c |}.

Definition set_props (p : Props) (c : Controller) : Controller :=
  {| actuator_min := actuator_min c; actuator_max := actuator_max c;
     scaling := scaling c; props := p;
     model_timestep := model_timestep c;
     eef_name := eef_name c; joint_index := joint_index c;
     qpos_index := qpos_index c; qvel_index := qvel_index c;
     robot := robot c; joint_dim := joint_dim c; torques := torques c;
     new_update := new_update c; initial := initial c;
     desired_vec_fin := desired_vec_fin c; switch := switch c;
     method := method c; traj := traj c |}.

Section WithLibraries.
Context `{MJ : MuJoCo} `{TU : TransformUtils}.


Definition built_min_jerk_traj (t_finial' t_bias' : R) (via_point : via_dict)
  : M unit :=
  c <- get_self ;;
  pos_fi <- lift (rbind (dict_get via_point ("p" ++ py_str (switch c)))
                        as_pos) ;;
  o <- lift (rbind (dict_get via_point ("o" ++ py_str (switch c)))
                   as_ori) ;;
  let final_orientation' := m3_map np_round o in
  xpos <- sim_read read_site_xpos site_xpos ;;
  id <- site_name2id (eef_name c) ;;
  pos_in <- lift (py_index xpos id) ;;
  pos_in <- (if (switch c =? 1)%Z then
               last <- lift (py_index (desired_vec_fin c) (-1)) ;;
               ret (assign_first_two pos_in (point_position last))
             else ret pos_in) ;;
  xmat <- sim_read read_site_xmat site_xmat ;;
  id <- site_name2id (eef_name c) ;;
  row <- lift (py_index xmat id) ;;
  let initial_orientation' := reshape_3_3 row in
  m <- lift (has_attr (method c)) ;;
  euler <- (if String.eqb m "euler" then
              let fin := mat2euler final_orientation' in
              ini <- (if (switch c =? 1)%Z then
                        last <- lift (py_index (desired_vec_fin c) (-1)) ;;
                        ret (point_orientation last)
                      else ret (mat2euler initial_orientation')) ;;
              ret (Some fin, Some ini)
            else ret (fin_orientation (traj c), init_orientation (traj c))) ;;
  let '(pix, piy, piz) := pos_in in
  let '(pfx, pfy, pfz) := pos_fi in
  modify_self (set_traj
    {| final_orientation := Some final_orientation';
       initial_orientation := Some initial_orientation';
       fin_orientation := fst euler;
       init_orientation := snd euler;
       X_init := Some pix; Y_init := Some piy; Z_init := Some piz;
       X_final := Some pfx; Y_final := Some pfy; Z_final := Some pfz;
       t_finial := Some t_finial';
       t_bias := Some t_bias' |}).

(** The body of the branch [if self.method == 'rotation'] of
    [built_next_desired_point]: the pair [(orientation, ang_vel)] it
    assigns. *)
Definition rotation_law (R1 R2 : mat3) (T t : R) : vec3 * vec3 :=
  let Vrot := Rotation_Matrix_To_Vector R1 R2 in
  let '(magnitude_traj, magnitude_vel_traj, direction) :=
    if Rlt_dec (np_linalg_norm Vrot) upper_bound then
      (0, 0, v3_zero)
    else
      let '(magnitude, direction) := Axis2Vector Vrot in
      (magnitude / (T ^ 3)
       * (6 * (t ^ 5) / (T ^ 2) - 15 * (t ^ 4) / T + 10 * (t ^ 3))
       - magnitude,
       magnitude / (T ^ 3)
       * (30 * (t ^ 4) / (T ^ 2) - 60 * (t ^ 3) / T + 30 * (t ^ 2)),
       direction) in
  (v3_scale magnitude_traj direction, v3_scale magnitude_vel_traj direction).

(** The body of the branch [if self.method == 'euler']. *)
Definition euler_law (fin ini : vec3) (T t : R) : vec3 * vec3 :=
  (v3_zip (fun f i => quintic f i T t) fin ini,
   v3_zip (fun f i => quintic_vel f i T t) fin ini).

(** The body of [built_next_desired_point] up to, and not including, the
    append to the history.  The first statement divides by
    [self.t_finial ** 3] and then by [self.t_finial ** 2]: with a duration
    of zero it raises [ZeroDivisionError] (at the second division at the
    latest, which is one of Python floats), having read no attribute after
    [t_finial]; past it the divisors [self.t_finial ** 3],
    [self.t_finial ** 2] and [self.t_finial] of the polynomials are all
    different from zero. *)
Definition desired_point_locals : M Locals :=
  c <- get_self ;;
  now <- sim_read read_time time ;;
  tb <- lift (has_attr (t_bias (traj c))) ;;
  let t := now - tb in
  Xf <- lift (has_attr (X_final (traj c))) ;;
  Xi <- lift (has_attr (X_init (traj c))) ;;
  T <- lift (has_attr (t_finial (traj c))) ;;
  lift (divisor (T ^ 3)) ;;
  Yf <- lift (has_attr (Y_final (traj c))) ;;
  Yi <- lift (has_attr (Y_init (traj c))) ;;
  Zf <- lift (has_attr (Z_final (traj c))) ;;
  Zi <- lift (has_attr (Z_init (traj c))) ;;
  let x_traj := quintic Xf Xi T t in
  let y_traj := quintic Yf Yi T t in
  let z_traj := quintic Zf Zi T t in
  let vx := quintic_vel Xf Xi T t in
  let vy := quintic_vel Yf Yi T t in
  let vz := quintic_vel Zf Zi T t in
  let ax := quintic_acc Xf Xi T t in
  let ay := quintic_acc Yf Yi T t in
  let az := quintic_acc Zf Zi T t in
  m <- lift (has_attr (method c)) ;;
  rot <- (if String.eqb m "rotation" then
            R1 <- lift (has_attr (initial_orientation (traj c))) ;;
            R2 <- lift (has_attr (final_orientation (traj c))) ;;
            ret (Some (rotation_law R1 R2 T t))
          else ret None) ;;
  eul <- (if String.eqb m "euler" then
            fin <- lift (has_attr (fin_orientation (traj c))) ;;
            ini <- lift (has_attr (init_orientation (traj c))) ;;
            ret (Some (euler_law fin ini T t))
          else ret rot) ;;
  match eul with
  | Some (orientation', ang_vel') =>
      ret {| position := (x_traj, y_traj, z_traj);
             velocity := (vx, vy, vz);
             acceleration := (ax, ay, az);
             orientation := orientation';
             ang_vel := ang_vel' |}
  | None => raise UnboundLocalError
  end.

Definition built_next_desired_point : M (vec3 * vec3 * vec3 * vec3) :=
  l <- desired_point_locals ;;
  let point := (position l, orientation l, velocity l, ang_vel l) in
  modify_self (fun c =>
    set_desired_vec_fin (desired_vec_fin c ++ [point]) c) ;;
  ret point.

End WithLibraries.

(** ** Concrete instances

    A simulator with one site and two joints whose [forward] leaves the
    arrays as they are, and a helper module that follows the documented
    behaviour of [Axis2Vector]. *)

Definition demo_mujoco : MuJoCo :=
  {| mj_forward := fun _ d => d;
     mj_fullM := fun _ _ k => INR k |}.

(** Modelled from the spec: [T.Axis2Vector] is not part of the source file;
    the spec says it decomposes the rotation vector "into magnitude and unit
    axis". *)
Definition Axis2Vector_spec (v : vec3) : R * vec3 :=
  (np_linalg_norm v, v3_scale (/ np_linalg_norm v) v).

(** A helper module whose [Axis2Vector] is the one of the spec. *)
Definition transform_utils_with (m2e : mat3 -> vec3)
  (rm2v : mat3 -> mat3 -> vec3) (step : R) : TransformUtils :=
  {| mat2euler := m2e;
     Rotation_Matrix_To_Vector := rm2v;
     Axis2Vector := Axis2Vector_spec;
     SIMULATION_TIMESTEP := step |}.


Definition demo_transform_utils : TransformUtils :=
  transform_utils_with
    (fun m => let '(r0, _, _) := m in r0)
    (fun R1 R2 => let '(a, _, _) := R1 in let '(b, _, _) := R2 in
                  v3_zip Rminus b a)
    (1 / 500).

Definition demo_data (now : R) : MjData :=
  {| time := now;
     site_xpos := [(1, 2, 3)];
     site_xmat := [(1, 0, 0, 0, 1, 0, 0, 0, 1)];
     site_xvelp := [(0, 0, 0)];
     site_xvelr := [(0, 0, 0)];
     qpos := [0; 0];
     qvel := [0; 0];
     get_site_jacp := fun _ => Ok [1; 0; 0; 1; 0; 0];
     get_site_jacr := fun _ => Ok [0; 0; 0; 0; 1; 1];
     qM := [1; 0; 1];
     qfrc_bias := [0; 0] |}.

Definition demo_sim (now : R) : MjSim :=
  {| model := {| site_names := ["grip_site"%string] |};
     data := demo_data now;
     calls := [] |}.

Definition empty_trajectory : Trajectory :=
  {| final_orientation := None; initial_orientation := None;
     fin_orientation := None; init_orientation := None;
     X_init := None; Y_init := None; Z_init := None;
     X_final := None; Y_final := None; Z_final := None;
     t_finial := None; t_bias := None |}.

(** A controller as [__init__] leaves it, before the first [update], with
    the action ranges a concrete controller class would assign. *)
Definition demo_controller (imin imax omin omax : ndarray) : Controller :=
  {| actuator_min := [-10; -10];
     actuator_max := [10; 10];
     scaling := {| action_scale := None;
                   action_input_transform := None;
                   action_output_transform := None |};
     props := {| control_dim := Some (Z.of_nat (length imin));
                 output_min := Some omin; output_max := Some omax;
                 input_min := Some imin; input_max := Some imax |};
     model_timestep := 1 / 500;
     eef_name := "grip_site";
     joint_index := [0%Z; 1%Z];
     qpos_index := [0%Z; 1%Z];
     qvel_index := [0%Z; 1%Z];
     robot := {| ee_pos := None; ee_ori_mat := None; ee_pos_vel := None;
                 ee_ori_vel := None; joint_pos := None; joint_vel := None;
                 J_pos := None; J_ori := None; J_full := None;
                 mass_matrix := None |};
     joint_dim := 2;
     torques := None;
     new_update := true;
     initial := {| initial_joint := None; initial_ee_pos := None;
                   initial_ee_ori_mat := None;
                   initial_ee_ori_vel := None |};
     desired_vec_fin := [];
     switch := 0%Z;
     method := None;
     traj := empty_trajectory |}.

Definition demo_world (imin imax omin omax : ndarray) (now : R) : World :=
  {| self := demo_controller imin imax omin omax; sim := demo_sim now |}.

Definition identity3 : mat3 := ((1, 0, 0), (0, 1, 0), (0, 0, 1)).

Definition quarter_turn : mat3 := ((0, -1, 0), (1, 0, 0), (0, 0, 1)).

(** A segment from (0,0,0) to (1,0,0) lasting two seconds from time 0,
    starting at the identity orientation. *)
Definition demo_trajectory_to (Rf : mat3) : Trajectory :=
  {| final_orientation := Some Rf;
     initial_orientation := Some identity3;
     fin_orientation := Some (0, 0, 1);
     init_orientation := Some (0, 0, 0);
     X_init := Some 0; Y_init := Some 0; Z_init := Some 0;
     X_final := Some 1; Y_final := Some 0; Z_final := Some 0;
     t_finial := Some 2;
     t_bias := Some 0 |}.

Definition demo_trajectory : Trajectory := demo_trajectory_to quarter_turn.

Definition demo_segment_world (m : string) (now : R) : World :=
  {| self := set_traj demo_trajectory
               (set_method m (demo_controller [-1] [1] [-2] [2]));
     sim := demo_sim now |}.

(** A controller holding a segment of duration zero, with [self.method]
    never assigned. *)
Definition demo_instant_world : World :=
  {| self := set_traj
               {| final_orientation := Some quarter_turn;
                  initial_orientation := Some identity3;
                  fin_orientation := None;
                  init_orientation := None;
                  X_init := Some 0; Y_init := Some 0; Z_init := Some 0;
                  X_final := Some 1; Y_final := Some 0; Z_final := Some 0;
                  t_finial := Some 0;
                  t_bias := Some 0 |}
               (demo_controller [-1] [1] [-2] [2]);
     sim := demo_sim 1 |}.

(** Component [k] of a 3-vector ([v[k]] for [k] = 0, 1, 2). *)
Definition coord (v : vec3) (k : nat) : R :=
  let '(x, y, z) := v in
  match k with
  | O => x
  | S O => y
  | _ => z
  end.

(** The normalised blend of the spec, [s] of the progress [tau = t/T], and its
    derivative with respect to [tau]. *)
Definition blend (tau : R) : R := 6 * tau ^ 5 - 15 * tau ^ 4 + 10 * tau ^ 3.

Definition blend_slope (tau : R) : R :=
  30 * tau ^ 4 - 60 * tau ^ 3 + 30 * tau ^ 2.

(** Via-points for both values of [self.switch]; the second orientation
    has an entry that is not an integer. *)
Definition demo_via : via_dict :=
  [ ("p0"%string, ViaPos (1, 0, 0));
    ("o0"%string, ViaOri quarter_turn);
    ("p1"%string, ViaPos (2, 1, 0));
    ("o1"%string, ViaOri ((1 / 2, 0, 0), (0, 1, 0), (0, 0, 1))) ].

Definition demo_point : TrajPoint :=
  ((7, 8, 9), (1 / 10, 2 / 10, 3 / 10), (0, 0, 0), (0, 0, 0)).

(** A controller in the chained state: [switch] is 1 and one point has been
    evaluated. *)
Definition demo_chained_world (m : string) : World :=
  {| self := set_desired_vec_fin [demo_point]
               (set_switch 1
                  (set_method m (demo_controller [-1] [1] [-2] [2])));
     sim := demo_sim 0 |}.

(** ** Well-formedness predicates used by the statements *)

(** The position attributes assigned by [built_min_jerk_traj]. *)
Definition position_segment (c : Controller) (ini fin : vec3) (T tb : R)
  : Prop :=
  X_init (traj c) = Some (fst (fst ini)) /\
  Y_init (traj c) = Some (snd (fst ini)) /\
  Z_init (traj c) = Some (snd ini) /\
  X_final (traj c) = Some (fst (fst fin)) /\
  Y_final (traj c) = Some (snd (fst fin)) /\
  Z_final (traj c) = Some (snd fin) /\
  t_finial (traj c) = Some T /\
  t_bias (traj c) = Some tb.

(** The segment is built for the [rotation] method. *)
Definition rotation_segment (c : Controller) (R1 R2 : mat3) : Prop :=
  method c = Some "rotation"%string /\
  initial_orientation (traj c) = Some R1 /\
  final_orientation (traj c) = Some R2.

(** The segment is built for the [euler] method. *)
Definition euler_segment (c : Controller) (fin ini : vec3) : Prop :=
  method c = Some "euler"%string /\
  fin_orientation (traj c) = Some fin /\
  init_orientation (traj c) = Some ini.

Definition orientation_ready (c : Controller) : Prop :=
  (exists R1 R2, rotation_segment c R1 R2) \/
  (exists fin ini, euler_segment c fin ini).

(** The world after one logged read of the simulator. *)
Definition after_read (k : SimCall) (w : World) : World :=
  {| self := self w; sim := log_call k (sim w) |}.

(** Elapsed time of the active segment, [self.sim.data.time - self.t_bias]. *)
Definition elapsed (w : World) (tb : R) : R := time (data (sim w)) - tb.

(** The [via_point] dictionary holds a position and an orientation for the
    current value of [self.switch]. *)
Definition via_entries (via : via_dict) (sw : Z) (pf : vec3) (o : mat3)
  : Prop :=
  dict_get via ("p" ++ py_str sw) = Ok (ViaPos pf) /\
  dict_get via ("o" ++ py_str sw) = Ok (ViaOri o).

(** The end-effector site exists in the simulator; [xp] and [xm] are its
    current position and (flat) orientation matrix. *)
Definition backend_site (w : World) (xp : vec3) (xm : vec9) : Prop :=
  exists id,
    index_of (eef_name (self w)) (site_names (model (sim w))) = Some id /\
    nth_error (site_xpos (data (sim w))) id = Some xp /\
    nth_error (site_xmat (data (sim w))) id = Some xm.

(** The simulator after the four accesses of [built_min_jerk_traj]. *)
Definition after_site_reads (s : MjSim) : MjSim :=
  log_call call_site_name2id
    (log_call read_site_xmat
       (log_call call_site_name2id (log_call read_site_xpos s))).

Section SegmentAttributes.
Context `{TU : TransformUtils}.

(** The attributes [built_min_jerk_traj] leaves behind, given the start
    position [pos_in] and the Euler start orientation [ini] it selected. *)
Definition segment_attributes (c : Controller) (T tb : R) (pf : vec3)
  (o : mat3) (pos_in : vec3) (xm : vec9) (m : string) (ini : vec3)
  : Trajectory :=
  {| final_orientation := Some (m3_map np_round o);
     initial_orientation := Some (reshape_3_3 xm);
     fin_orientation :=
       if String.eqb m "euler" then Some (mat2euler (m3_map np_round o))
       else fin_orientation (traj c);
     init_orientation :=
       if String.eqb m "euler" then Some ini else init_orientation (traj c);
     X_init := Some (coord pos_in 0);
     Y_init := Some (coord pos_in 1);
     Z_init := Some (coord pos_in 2);
     X_final := Some (coord pf 0);
     Y_final := Some (coord pf 1);
     Z_final := Some (coord pf 2);
     t_finial := Some T;
     t_bias := Some tb |}.

End SegmentAttributes.

(** Integer-valued reals and the entries of a 3x3 matrix. *)
Definition is_integer (x : R) : Prop := exists z : Z, x = IZR z.

Definition m3_entries (m : mat3) : list R :=
  let '((a0, a1, a2), (a3, a4, a5), (a6, a7, a8)) := m in
  [a0; a1; a2; a3; a4; a5; a6; a7; a8].

(** Indices Python accepts for a sequence of length [n]. *)
Definition valid_indices (idx : list Z) (n : nat) : Prop :=
  Forall (fun i => (- Z.of_nat n <= i < Z.of_nat n)%Z) idx.

Section BackendReady.
Context `{MJ : MuJoCo}.

(** The simulator arrays, as they are after [forward], have the shapes the
    controller expects: the end-effector site exists, the joint indices fit
    [qpos] and [qvel], and both Jacobians have [3 * nv] entries. *)
Definition backend_ready (w : World) : Prop :=
  let c := self w in
  let d := mj_forward (model (sim w)) (data (sim w)) in
  let nv := length (qvel d) in
  (exists id,
     index_of (eef_name c) (site_names (model (sim w))) = Some id /\
     (id < length (site_xpos d))%nat /\
     (id < length (site_xmat d))%nat /\
     (id < length (site_xvelp d))%nat /\
     (id < length (site_xvelr d))%nat) /\
  valid_indices (qpos_index c) (length (qpos d)) /\
  valid_indices (qvel_index c) nv /\
  (exists jp, get_site_jacp d (eef_name c) = Ok jp
              /\ length jp = (3 * nv)%nat) /\
  (exists jr, get_site_jacr d (eef_name c) = Ok jr
              /\ length jr = (3 * nv)%nat).

End BackendReady.

(** ** Array-level description of the action map *)

(** [np.clip] on arrays of one length. *)
Definition clip_list (a lo hi : ndarray) : ndarray :=
  zip_with Rmin hi (zip_with Rmax a lo).

(** The cached scale and offsets for given ranges. *)
Definition scale_of (imin imax omin omax : ndarray) : ndarray :=
  zip_with Rdiv (np_abs (zip_with Rminus omax omin))
                (np_abs (zip_with Rminus imax imin)).

Definition input_transform_of (imin imax : ndarray) : ndarray :=
  np_div_scalar (zip_with Rplus imax imin) 2.

Definition output_transform_of (omin omax : ndarray) : ndarray :=
  np_div_scalar (zip_with Rplus omax omin) 2.

Definition expected_scaling (imin imax omin omax : ndarray) : Scaling :=
  {| action_scale := Some (scale_of imin imax omin omax);
     action_input_transform := Some (input_transform_of imin imax);
     action_output_transform := Some (output_transform_of omin omax) |}.

Definition no_scaling : Scaling :=
  {| action_scale := None;
     action_input_transform := None;
     action_output_transform := None |}.

(** The affine transform applied after clipping. *)
Definition affine_list (imin imax omin omax x : ndarray) : ndarray :=
  zip_with Rplus
    (zip_with Rmult (zip_with Rminus x (input_transform_of imin imax))
                    (scale_of imin imax omin omax))
    (output_transform_of omin omax).

(** One component of [scale_action]. *)
Definition scale1 (imin imax omin omax a : R) : R :=
  (clip1 a imin imax - (imax + imin) / 2)
  * (Rabs (omax - omin) / Rabs (imax - imin))
  + (omax + omin) / 2.

(** The controller has the four ranges, all of length [n]. *)
Definition has_ranges (c : Controller) (imin imax omin omax : ndarray)
  (n : nat) : Prop :=
  input_min (props c) = Some imin /\
  input_max (props c) = Some imax /\
  output_min (props c) = Some omin /\
  output_max (props c) = Some omax /\
  length imin = n /\ length imax = n /\
  length omin = n /\ length omax = n.

(** The cache is empty or holds what the ranges give. *)
Definition cache_consistent (c : Controller)
  (imin imax omin omax : ndarray) : Prop :=
  scaling c = no_scaling \/
  scaling c = expected_scaling imin imax omin omax.

(** ** Further methods of [Controller] *)

(** [np.dot] of a 3x3 matrix and a 3-vector. *)
Definition v3_dot (u v : vec3) : R :=
  let '(a, b, c) := u in let '(x, y, z) := v in a * x + b * y + c * z.

Definition np_dot_3 (m : mat3) (v : vec3) : vec3 :=
  let '(r0, r1, r2) := m in (v3_dot r0 v, v3_dot r1 v, v3_dot r2 v).

(** The matrix [mat_EE] of [euler2EEangle_vel] for Euler angles
    [(phi, theta, psi)]. *)
Definition mat_EE (euler_angle : vec3) : mat3 :=
  let '(phi, theta, psi) := euler_angle in
  ((1, 0, sin theta),
   (0, cos phi, - cos theta * sin phi),
   (0, sin phi, cos theta * cos phi)).

(** The property [actuator_limits]. *)
Definition actuator_limits : M (ndarray * ndarray) :=
  c <- get_self ;;
  ret (actuator_min c, actuator_max c).

(** The property [control_limits]. *)
Definition control_limits : M (option ndarray * option ndarray) :=
  c <- get_self ;;
  ret (input_min (props c), input_max (props c)).

(** The property [torque_compensation]. *)
Definition torque_compensation : M ndarray :=
  c <- get_self ;;
  bias <- sim_read read_qfrc_bias qfrc_bias ;;
  lift (py_take bias (qvel_index c)).

(** The property [name]. *)
Definition name : M string := raise NotImplementedError.

Definition update_base_pose (base_pos : vec3) (base_ori : R * R * R * R)
  : M unit := ret tt.

Section FurtherMethods.
Context `{MJ : MuJoCo} `{TU : TransformUtils}.

(** [euler2EEangle_vel(ori_vel)].  With [self.ee_ori_mat] still [None] the
    call fails inside [T.mat2euler], which is not part of the source file;
    the class of that exception is not modelled. *)
Definition euler2EEangle_vel (ori_vel : vec3) : M vec3 :=
  c <- get_self ;;
  m <- lift (not_None (ee_ori_mat (robot c))) ;;
  let euler_angle := mat2euler m in
  ret (np_dot_3 (mat_EE euler_angle) ori_vel).

(** [euler2WorldAngle_vel(ori_vel)]. *)
Definition euler2WorldAngle_vel (ori_vel : vec3) : M vec3 :=
  c <- get_self ;;
  v <- euler2EEangle_vel ori_vel ;;
  m <- lift (not_None (ee_ori_mat (robot c))) ;;
  ret (np_dot_3 m v).

(** [update_initial_joints(initial_joints)]. *)
Definition update_initial_joints (initial_joints : ndarray) : M unit :=
  modify_self (fun c =>
    set_initial {| initial_joint := Some initial_joints;
                   initial_ee_pos := initial_ee_pos (initial c);
                   initial_ee_ori_mat := initial_ee_ori_mat (initial c);
                   initial_ee_ori_vel := initial_ee_ori_vel (initial c) |}
      c) ;;
  update true ;;
  modify_self (fun c =>
    set_initial {| initial_joint := initial_joint (initial c);
                   initial_ee_pos := ee_pos (robot c);
                   initial_ee_ori_mat := ee_ori_mat (robot c);
                   initial_ee_ori_vel := initial_ee_ori_vel (initial c) |}
      c).

End FurtherMethods.

(** ** The trajectory as a function of the simulation time *)

Definition set_time (now : R) (d : MjData) : MjData :=
  {| time := now;
     site_xpos := site_xpos d;
     site_xmat := site_xmat d;
     site_xvelp := site_xvelp d;
     site_xvelr := site_xvelr d;
     qpos := qpos d;
     qvel := qvel d;
     get_site_jacp := get_site_jacp d;
     get_site_jacr := get_site_jacr d;
     qM := qM d;
     qfrc_bias := qfrc_bias d |}.

(** The same world with the simulation clock at [now]. *)
Definition at_time (w : World) (now : R) : World :=
  {| self := self w;
     sim := {| model := model (sim w);
               data := set_time now (data (sim w));
               calls := calls (sim w) |} |}.

Section TrajectoryInTime.
Context `{TU : TransformUtils}.

(** What [built_next_desired_point] computes when called at time [now]. *)
Definition locals_at (w : World) (now : R) : option Locals :=
  match desired_point_locals (at_time w now) with
  | Ok (l, _) => Some l
  | Raise _ => None
  end.

Definition position_at (w : World) (now : R) : vec3 :=
  match locals_at w now with Some l => position l | None => v3_zero end.

Definition velocity_at (w : World) (now : R) : vec3 :=
  match locals_at w now with Some l => velocity l | None => v3_zero end.

Definition acceleration_at (w : World) (now : R) : vec3 :=
  match locals_at w now with Some l => acceleration l | None => v3_zero end.

Definition orientation_at (w : World) (now : R) : vec3 :=
  match locals_at w now with Some l => orientation l | None => v3_zero end.

Definition ang_vel_at (w : World) (now : R) : vec3 :=
  match locals_at w now with Some l => ang_vel l | None => v3_zero end.

End TrajectoryInTime.

(** ** Shapes of the cached arrays *)

(** The position Python reads for index [i] in a sequence of length [n]. *)
Definition norm_index (n : nat) (i : Z) : nat :=
  Z.to_nat (if (i <? 0)%Z then (i + Z.of_nat n)%Z else i).

Definition is_matrix (rows cols : nat) (m : matrix) : Prop :=
  length m = rows /\ Forall (fun row => length row = cols) m.

(** Every attribute of the robot state is set, with the shapes given by the
    joint indices of controller [c]. *)
Definition populated (c : Controller) (r : RobotState) : Prop :=
  let nq := length (qpos_index c) in
  let nv := length (qvel_index c) in
  exists p o pv ov jp jv Jp Jr mm,
    r = {| ee_pos := Some p; ee_ori_mat := Some o;
           ee_pos_vel := Some pv; ee_ori_vel := Some ov;
           joint_pos := Some jp; joint_vel := Some jv;
           J_pos := Some Jp; J_ori := Some Jr;
           J_full := Some (Jp ++ Jr); mass_matrix := Some mm |} /\
    length jp = nq /\ length jv = nv /\
    is_matrix 3 nv Jp /\ is_matrix 3 nv Jr /\
    is_matrix 6 nv (Jp ++ Jr) /\ is_matrix nv nv mm.

Section Construction.
Context `{TU : TransformUtils}.


End Construction.

Section Forwarded.
Context `{MJ : MuJoCo}.


End Forwarded.

(** An engine whose dense mass matrix, for two degrees of freedom, is the
    symmetric matrix [[2, 1], [1, 1]]. *)
Definition demo_mujoco_symmetric : MuJoCo :=
  {| mj_forward := fun _ d => d;
     mj_fullM := fun _ _ k => if Nat.eqb k 0 then 2 else 1 |}.

(** The demonstration controller with a cached orientation. *)
Definition demo_oriented_world (m : mat3) : World :=
  {| self :=
       set_robot
         {| ee_pos := None; ee_ori_mat := Some m;
            ee_pos_vel := None; ee_ori_vel := None; joint_pos := None;
            joint_vel := None; J_pos := None; J_ori := None;
            J_full := None; mass_matrix := None |}
         (demo_controller [-1] [1] [-2] [2]);
     sim := demo_sim 0 |}.

(** * Verified properties *)

(** ** The blending polynomials *)

Lemma quintic_start (fin ini T : R) : quintic fin ini T 0 = ini.
Proof. unfold quintic. simpl. unfold Rdiv. ring. Qed.

Lemma quintic_vel_start (fin ini T : R) : quintic_vel fin ini T 0 = 0.
Proof. unfold quintic_vel. simpl. unfold Rdiv. ring. Qed.

Lemma quintic_acc_start (fin ini T : R) : quintic_acc fin ini T 0 = 0.
Proof. unfold quintic_acc. simpl. unfold Rdiv. ring. Qed.

Lemma quintic_end (fin ini T : R) : T <> 0 -> quintic fin ini T T = fin.
Proof. intros HT. unfold quintic. field. exact HT. Qed.

Lemma quintic_vel_end (fin ini T : R) : T <> 0 -> quintic_vel fin ini T T = 0.
Proof. intros HT. unfold quintic_vel. field. exact HT. Qed.

Lemma quintic_acc_end (fin ini T : R) : T <> 0 -> quintic_acc fin ini T T = 0.
Proof. intros HT. unfold quintic_acc. field. exact HT. Qed.

(** Factored forms of the distance to the end points. *)
Lemma quintic_minus_fin (fin ini T t : R) :
  T <> 0 ->
  quintic fin ini T t - fin
  = (fin - ini) * ((t - T) ^ 3 * (6 * t ^ 2 + 3 * t * T + T ^ 2)) / T ^ 5.
Proof. intros HT. unfold quintic. field. exact HT. Qed.

Lemma quintic_minus_ini (fin ini T t : R) :
  T <> 0 ->
  quintic fin ini T t - ini
  = (fin - ini) * (t ^ 3 * (6 * t ^ 2 - 15 * t * T + 10 * T ^ 2)) / T ^ 5.
Proof. intros HT. unfold quintic. field. exact HT. Qed.

Lemma quintic_vel_factored (fin ini T t : R) :
  T <> 0 ->
  quintic_vel fin ini T t
  = (fin - ini) * (30 * t ^ 2 * (t - T) ^ 2) / T ^ 5.
Proof. intros HT. unfold quintic_vel. field. exact HT. Qed.

Lemma div_nonzero (a b : R) : a <> 0 -> b <> 0 -> a / b <> 0.
Proof.
  intros Ha Hb. unfold Rdiv. apply Rmult_integral_contrapositive_currified.
  - exact Ha.
  - apply Rinv_neq_0_compat. exact Hb.
Qed.

Lemma quintic_overshoots (fin ini T t : R) :
  0 < T -> T < t -> fin <> ini -> quintic fin ini T t <> fin.
Proof.
  intros HT Ht Hne Heq.
  assert (HT0 : T <> 0) by lra.
  pose proof (quintic_minus_fin fin ini T t HT0) as E.
  rewrite Heq in E. replace (fin - fin) with 0 in E by ring.
  symmetry in E. revert E. apply div_nonzero.
  - apply Rmult_integral_contrapositive_currified; [lra|].
    apply Rmult_integral_contrapositive_currified.
    + apply pow_nonzero. lra.
    + nra.
  - apply pow_nonzero. exact HT0.
Qed.

Lemma quintic_before_start (fin ini T t : R) :
  0 < T -> t < 0 -> fin <> ini -> quintic fin ini T t <> ini.
Proof.
  intros HT Ht Hne Heq.
  assert (HT0 : T <> 0) by lra.
  pose proof (quintic_minus_ini fin ini T t HT0) as E.
  rewrite Heq in E. replace (ini - ini) with 0 in E by ring.
  symmetry in E. revert E. apply div_nonzero.
  - apply Rmult_integral_contrapositive_currified; [lra|].
    apply Rmult_integral_contrapositive_currified.
    + apply pow_nonzero. lra.
    + nra.
  - apply pow_nonzero. exact HT0.
Qed.

Lemma quintic_vel_nonzero (fin ini T t : R) :
  T <> 0 -> t <> 0 -> t <> T -> fin <> ini -> quintic_vel fin ini T t <> 0.
Proof.
  intros HT Ht HtT Hne.
  rewrite (quintic_vel_factored fin ini T t HT).
  apply div_nonzero.
  - apply Rmult_integral_contrapositive_currified; [lra|].
    apply Rmult_integral_contrapositive_currified.
    + apply Rmult_integral_contrapositive_currified; [lra|].
      apply pow_nonzero. exact Ht.
    + apply pow_nonzero. lra.
  - apply pow_nonzero. exact HT.
Qed.

(** ** Running [built_next_desired_point] *)

Lemma divisor_nonzero (T : R) : T <> 0 -> divisor (T ^ 3) = Ok tt.
Proof.
  intros HT. unfold divisor.
  destruct (Req_dec_T (T ^ 3) 0) as [E | _]; [|reflexivity].
  exfalso. exact (pow_nonzero T 3 HT E).
Qed.

Lemma divisor_zero (T : R) :
  T = 0 -> divisor (T ^ 3) = Raise ZeroDivisionError.
Proof.
  intros ->. unfold divisor.
  destruct (Req_dec_T (0 ^ 3) 0) as [_ | E]; [reflexivity|].
  exfalso. apply E. ring.
Qed.

Section NextPoint.
Context `{MJ : MuJoCo} `{TU : TransformUtils}.

Lemma locals_rotation (w : World) (ini fin : vec3) (T tb : R)
  (R1 R2 : mat3) :
  position_segment (self w) ini fin T tb ->
  rotation_segment (self w) R1 R2 ->
  T <> 0 ->
  let t := elapsed w tb in
  desired_point_locals w
  = Ok ({| position := v3_zip (fun f i => quintic f i T t) fin ini;
           velocity := v3_zip (fun f i => quintic_vel f i T t) fin ini;
           acceleration := v3_zip (fun f i => quintic_acc f i T t) fin ini;
           orientation := fst (rotation_law R1 R2 T t);
           ang_vel := snd (rotation_law R1 R2 T t) |},
        after_read read_time w).
Proof.
  destruct ini as [[xi yi] zi], fin as [[xf yf] zf].
  intros (H1 & H2 & H3 & H4 & H5 & H6 & H7 & H8) (Hm & Hi & Hf) HT t.
  unfold desired_point_locals, bind, get_self, sim_read, lift, ret.
  cbn [fst snd] in *.
  rewrite H8, H4, H1, H7. cbn [has_attr].
  rewrite (divisor_nonzero T HT).
  rewrite H5, H2, H6, H3, Hm. cbn [has_attr].
  cbn [String.eqb Ascii.eqb Bool.eqb self].
  rewrite Hi, Hf. cbn [has_attr].
  destruct (rotation_law R1 R2 T (time (data (sim w)) - tb)) as [o a] eqn:E.
  unfold elapsed in t. subst t. rewrite E. reflexivity.
Qed.

Lemma locals_euler (w : World) (ini fin : vec3) (T tb : R)
  (ofin oini : vec3) :
  position_segment (self w) ini fin T tb ->
  euler_segment (self w) ofin oini ->
  T <> 0 ->
  let t := elapsed w tb in
  desired_point_locals w
  = Ok ({| position := v3_zip (fun f i => quintic f i T t) fin ini;
           velocity := v3_zip (fun f i => quintic_vel f i T t) fin ini;
           acceleration := v3_zip (fun f i => quintic_acc f i T t) fin ini;
           orientation := fst (euler_law ofin oini T t);
           ang_vel := snd (euler_law ofin oini T t) |},
        after_read read_time w).
Proof.
  destruct ini as [[xi yi] zi], fin as [[xf yf] zf].
  intros (H1 & H2 & H3 & H4 & H5 & H6 & H7 & H8) (Hm & Hi & Hf) HT t.
  unfold desired_point_locals, bind, get_self, sim_read, lift, ret.
  cbn [fst snd] in *.
  rewrite H8, H4, H1, H7. cbn [has_attr].
  rewrite (divisor_nonzero T HT).
  rewrite H5, H2, H6, H3, Hm. cbn [has_attr].
  cbn [String.eqb Ascii.eqb Bool.eqb self].
  rewrite Hi, Hf. cbn [has_attr].
  reflexivity.
Qed.

(** Whenever a segment is ready the body returns, and its position,
    velocity and acceleration are the three polynomials at the elapsed
    time. *)
Lemma locals_ready (w : World) (ini fin : vec3) (T tb : R) :
  position_segment (self w) ini fin T tb ->
  orientation_ready (self w) ->
  T <> 0 ->
  let t := elapsed w tb in
  exists o a,
    desired_point_locals w
    = Ok ({| position := v3_zip (fun f i => quintic f i T t) fin ini;
             velocity := v3_zip (fun f i => quintic_vel f i T t) fin ini;
             acceleration := v3_zip (fun f i => quintic_acc f i T t) fin ini;
             orientation := o;
             ang_vel := a |},
          after_read read_time w).
Proof.
  intros Hp [(R1 & R2 & Hr) | (f & i & He)] HT t.
  - eexists _, _. exact (locals_rotation w ini fin T tb R1 R2 Hp Hr HT).
  - eexists _, _. exact (locals_euler w ini fin T tb f i Hp He HT).
Qed.

(** A segment of duration zero cannot be evaluated: the first division
    raises, before the orientation method is looked at. *)
Lemma locals_zero_duration (w : World) (ini fin : vec3) (tb : R) :
  position_segment (self w) ini fin 0 tb ->
  desired_point_locals w = Raise ZeroDivisionError.
Proof.
  destruct ini as [[xi yi] zi], fin as [[xf yf] zf].
  intros (H1 & H2 & H3 & H4 & H5 & H6 & H7 & H8).
  unfold desired_point_locals, bind, get_self, sim_read, lift, ret.
  cbn [fst snd] in *.
  rewrite H8, H4, H1, H7. cbn [has_attr].
  rewrite (divisor_zero 0 eq_refl). reflexivity.
Qed.

(** The returned tuple is made of the locals, and the same tuple is
    appended to the history. *)
Lemma next_point_of_locals (w w1 : World) (l : Locals) :
  desired_point_locals w = Ok (l, w1) ->
  let point := (position l, orientation l, velocity l, ang_vel l) in
  built_next_desired_point w
  = Ok (point,
        {| self := set_desired_vec_fin
                     (desired_vec_fin (self w1) ++ [point]) (self w1);
           sim := sim w1 |}).
Proof.
  intros H point. unfold built_next_desired_point, bind.
  rewrite H. reflexivity.
Qed.

(** An exception raised in the body is the exception of the method, and
    nothing is appended to the history. *)
Lemma next_point_raises (w : World) (e : exn) :
  desired_point_locals w = Raise e ->
  built_next_desired_point w = Raise e.
Proof.
  intros H. unfold built_next_desired_point, bind.
  rewrite H. reflexivity.
Qed.

End NextPoint.

(** ** Boundary conditions of the position law *)

Section Boundary.
Context `{MJ : MuJoCo} `{TU : TransformUtils}.

(** C1.  For every initial and final position and every duration [T > 0],
    [built_next_desired_point] returns, and the position, velocity and
    acceleration it computes satisfy: when the elapsed time is 0, position
    is the initial position and velocity and acceleration are zero; when
    the elapsed time is [T], position is the final position and velocity
    and acceleration are zero. *)
Theorem quintic_boundary_conditions (w : World) (ini fin : vec3) (T tb : R) :
  position_segment (self w) ini fin T tb ->
  orientation_ready (self w) ->
  0 < T ->
  exists l w1 w2,
    desired_point_locals w = Ok (l, w1) /\
    built_next_desired_point w
    = Ok ((position l, orientation l, velocity l, ang_vel l), w2) /\
    (time (data (sim w)) = tb ->
     position l = ini /\ velocity l = v3_zero /\ acceleration l = v3_zero) /\
    (time (data (sim w)) = tb + T ->
     position l = fin /\ velocity l = v3_zero /\ acceleration l = v3_zero).
Proof.
  intros Hp Ho HT.
  assert (HT0 : T <> 0) by lra.
  destruct (locals_ready w ini fin T tb Hp Ho HT0) as (o & a & Hrun).
  eexists _, _, _. split; [exact Hrun|].
  split; [exact (next_point_of_locals _ _ _ Hrun)|].
  destruct ini as [[xi yi] zi], fin as [[xf yf] zf].
  cbn [position velocity acceleration v3_zip].
  split; intros Ht; unfold elapsed; rewrite Ht.
  - replace (tb - tb) with 0 by ring.
    rewrite !quintic_start, !quintic_vel_start, !quintic_acc_start.
    repeat split.
  - replace (tb + T - tb) with T by ring.
    rewrite !quintic_end, !quintic_vel_end, !quintic_acc_end by exact HT0.
    repeat split.
Qed.

End Boundary.

Lemma quintic_boundary_conditions_witness :
  exists l w1 w2,
    desired_point_locals (TU := demo_transform_utils)
      (demo_segment_world "rotation" 2) = Ok (l, w1) /\
    built_next_desired_point (TU := demo_transform_utils)
      (demo_segment_world "rotation" 2)
    = Ok ((position l, orientation l, velocity l, ang_vel l), w2) /\
    (time (data (sim (demo_segment_world "rotation" 2))) = 0 ->
     position l = (0, 0, 0) /\ velocity l = v3_zero
     /\ acceleration l = v3_zero) /\
    (time (data (sim (demo_segment_world "rotation" 2))) = 0 + 2 ->
     position l = (1, 0, 0) /\ velocity l = v3_zero
     /\ acceleration l = v3_zero).
Proof.
  apply (quintic_boundary_conditions (TU := demo_transform_utils)
           (demo_segment_world "rotation" 2) (0, 0, 0) (1, 0, 0) 2 0).
  - repeat split.
  - left. exists identity3, quarter_turn. repeat split.
  - lra.
Defined.

(** ** The two branches of the [rotation] law *)

Section Rotation.
Context `{MJ : MuJoCo} `{TU : TransformUtils}.

Lemma v3_scale_zero (k : R) : v3_scale k v3_zero = v3_zero.
Proof.
  unfold v3_scale, v3_map, v3_zero. rewrite Rmult_0_r. reflexivity.
Qed.

Lemma rotation_law_degenerate (R1 R2 : mat3) (T t : R) :
  np_linalg_norm (Rotation_Matrix_To_Vector R1 R2) < upper_bound ->
  rotation_law R1 R2 T t = (v3_zero, v3_zero).
Proof.
  intros H. unfold rotation_law.
  destruct (Rlt_dec (np_linalg_norm (Rotation_Matrix_To_Vector R1 R2))
              upper_bound) as [_ | Hn]; [|contradiction].
  rewrite v3_scale_zero. reflexivity.
Qed.

Lemma rotation_law_regular (R1 R2 : mat3) (T t : R) :
  upper_bound <= np_linalg_norm (Rotation_Matrix_To_Vector R1 R2) ->
  rotation_law R1 R2 T t
  = (let '(magnitude, direction) :=
       Axis2Vector (Rotation_Matrix_To_Vector R1 R2) in
     (v3_scale
        (magnitude / (T ^ 3)
         * (6 * (t ^ 5) / (T ^ 2) - 15 * (t ^ 4) / T + 10 * (t ^ 3))
         - magnitude) direction,
      v3_scale
        (magnitude / (T ^ 3)
         * (30 * (t ^ 4) / (T ^ 2) - 60 * (t ^ 3) / T + 30 * (t ^ 2)))
        direction)).
Proof.
  intros H. unfold rotation_law.
  destruct (Rlt_dec (np_linalg_norm (Rotation_Matrix_To_Vector R1 R2))
              upper_bound) as [Hn | _]; [lra|].
  destruct (Axis2Vector (Rotation_Matrix_To_Vector R1 R2)) as [m d].
  reflexivity.
Qed.

End Rotation.

(** ** No clamping of the elapsed time *)

Section Extrapolation.
Context `{MJ : MuJoCo} `{TU : TransformUtils}.

Lemma coord_zip (f : R -> R -> R) (u v : vec3) (k : nat) :
  coord (v3_zip f u v) k = f (coord u k) (coord v k).
Proof.
  destruct u as [[a b] c], v as [[x y] z].
  destruct k as [|[|k]]; reflexivity.
Qed.

Lemma quintic_as_blend (fin ini T t : R) :
  T <> 0 ->
  quintic fin ini T t = ini + (fin - ini) * blend (t / T) /\
  quintic_vel fin ini T t = (fin - ini) * blend_slope (t / T) / T /\
  quintic_acc fin ini T t
  = (fin - ini) * (120 * (t / T) ^ 3 - 180 * (t / T) ^ 2 + 60 * (t / T))
    / T ^ 2.
Proof.
  intros HT.
  unfold quintic, quintic_vel, quintic_acc, blend, blend_slope.
  repeat split; field; exact HT.
Qed.

(** C10.  The elapsed time [t] is not clamped to [[0, t_final]]: whatever
    [t] is, position, velocity and acceleration are the quintic
    [s(tau) = 6 tau^5 - 15 tau^4 + 10 tau^3] and its first and second time
    derivatives at [tau = t / T], and the orientation outputs are the same
    laws at [t]: for [euler] the blend between the two Euler triples, for
    [rotation] the axis scaled by [m s(t/T) - m] (zero below the
    threshold).  After the duration has elapsed every axis that moves has
    left the final value and has a non-zero velocity, and so has every
    Euler angle that moves; before the start every axis that moves is away
    from the initial value and has a non-zero velocity. *)
Theorem elapsed_time_not_clamped (w : World) (ini fin : vec3) (T tb : R) :
  position_segment (self w) ini fin T tb ->
  orientation_ready (self w) ->
  0 < T ->
  let t := elapsed w tb in
  exists l w1 w2,
    desired_point_locals w = Ok (l, w1) /\
    built_next_desired_point w
    = Ok ((position l, orientation l, velocity l, ang_vel l), w2) /\
    (forall k,
       coord (position l) k
       = coord ini k + (coord fin k - coord ini k) * blend (t / T) /\
       coord (velocity l) k
       = (coord fin k - coord ini k) * blend_slope (t / T) / T /\
       coord (acceleration l) k
       = (coord fin k - coord ini k)
         * (120 * (t / T) ^ 3 - 180 * (t / T) ^ 2 + 60 * (t / T))
         / T ^ 2) /\
    (forall R1 R2, rotation_segment (self w) R1 R2 ->
       let Vrot := Rotation_Matrix_To_Vector R1 R2 in
       (np_linalg_norm Vrot < upper_bound ->
        orientation l = v3_zero /\ ang_vel l = v3_zero) /\
       (upper_bound <= np_linalg_norm Vrot ->
        let m := fst (Axis2Vector Vrot) in
        let d := snd (Axis2Vector Vrot) in
        orientation l = v3_scale (m * blend (t / T) - m) d /\
        ang_vel l = v3_scale (m * blend_slope (t / T) / T) d)) /\
    (forall ofin oini, euler_segment (self w) ofin oini ->
       forall k,
         coord (orientation l) k
         = coord oini k + (coord ofin k - coord oini k) * blend (t / T) /\
         coord (ang_vel l) k
         = (coord ofin k - coord oini k) * blend_slope (t / T) / T /\
         (T < t -> coord ofin k <> coord oini k ->
          coord (orientation l) k <> coord ofin k /\
          coord (ang_vel l) k <> 0)) /\
    (T < t -> forall k, coord fin k <> coord ini k ->
       coord (position l) k <> coord fin k /\ coord (velocity l) k <> 0) /\
    (t < 0 -> forall k, coord fin k <> coord ini k ->
       coord (position l) k <> coord ini k /\ coord (velocity l) k <> 0).
Proof.
  intros Hp Ho HT t.
  assert (HT0 : T <> 0) by lra.
  assert (Hpoly :
    forall l,
      position l = v3_zip (fun f i => quintic f i T t) fin ini ->
      velocity l = v3_zip (fun f i => quintic_vel f i T t) fin ini ->
      acceleration l = v3_zip (fun f i => quintic_acc f i T t) fin ini ->
      forall k,
        coord (position l) k
        = coord ini k + (coord fin k - coord ini k) * blend (t / T) /\
        coord (velocity l) k
        = (coord fin k - coord ini k) * blend_slope (t / T) / T /\
        coord (acceleration l) k
        = (coord fin k - coord ini k)
          * (120 * (t / T) ^ 3 - 180 * (t / T) ^ 2 + 60 * (t / T))
          / T ^ 2).
  { intros l Hpos Hvel Hacc k. rewrite Hpos, Hvel, Hacc, !coord_zip.
    exact (quintic_as_blend (coord fin k) (coord ini k) T t HT0). }
  assert (Hout :
    forall l,
      position l = v3_zip (fun f i => quintic f i T t) fin ini ->
      velocity l = v3_zip (fun f i => quintic_vel f i T t) fin ini ->
      (T < t -> forall k, coord fin k <> coord ini k ->
         coord (position l) k <> coord fin k /\ coord (velocity l) k <> 0) /\
      (t < 0 -> forall k, coord fin k <> coord ini k ->
         coord (position l) k <> coord ini k /\ coord (velocity l) k <> 0)).
  { intros l Hpos Hvel. rewrite Hpos, Hvel.
    split; intros Ht k Hk; rewrite !coord_zip; split.
    - apply quintic_overshoots; assumption.
    - apply quintic_vel_nonzero; try assumption; lra.
    - apply quintic_before_start; assumption.
    - apply quintic_vel_nonzero; try assumption; lra. }
  destruct Ho as [(R1 & R2 & Hr) | (f & i & He)].
  - pose proof (locals_rotation w ini fin T tb R1 R2 Hp Hr HT0) as Hrun.
    cbv zeta in Hrun. fold t in Hrun.
    match type of Hrun with
    | _ = Ok (?l0, _) => set (l := l0) in *
    end.
    exists l. eexists _, _. split; [exact Hrun|].
    split; [exact (next_point_of_locals _ _ _ Hrun)|].
    split; [exact (Hpoly l eq_refl eq_refl eq_refl)|].
    split.
    { intros R1' R2' (_ & Hi' & Hf'). destruct Hr as (_ & Hi & Hf).
      rewrite Hi in Hi'. rewrite Hf in Hf'.
      injection Hi' as <-. injection Hf' as <-.
      unfold l. cbn [orientation ang_vel]. cbv zeta. split.
      - intros Hlt. rewrite (rotation_law_degenerate R1 R2 T t Hlt).
        split; reflexivity.
      - intros Hge. rewrite (rotation_law_regular R1 R2 T t Hge).
        destruct (Axis2Vector (Rotation_Matrix_To_Vector R1 R2)) as [m d].
        cbn [fst snd].
        split; f_equal; unfold blend, blend_slope; field; exact HT0. }
    split.
    { intros ofin oini (Hm' & _). destruct Hr as (Hm & _).
      rewrite Hm in Hm'. discriminate Hm'. }
    exact (Hout l eq_refl eq_refl).
  - pose proof (locals_euler w ini fin T tb f i Hp He HT0) as Hrun.
    cbv zeta in Hrun. fold t in Hrun.
    match type of Hrun with
    | _ = Ok (?l0, _) => set (l := l0) in *
    end.
    exists l. eexists _, _. split; [exact Hrun|].
    split; [exact (next_point_of_locals _ _ _ Hrun)|].
    split; [exact (Hpoly l eq_refl eq_refl eq_refl)|].
    split.
    { intros R1 R2 (Hm' & _). destruct He as (Hm & _).
      rewrite Hm in Hm'. discriminate Hm'. }
    split.
    { intros ofin oini (_ & Hf' & Hi') k. destruct He as (_ & Hf & Hi).
      rewrite Hi in Hi'. rewrite Hf in Hf'.
      injection Hi' as <-. injection Hf' as <-.
      unfold l. cbn [orientation ang_vel euler_law fst snd].
      rewrite !coord_zip.
      destruct (quintic_as_blend (coord f k) (coord i k) T t HT0)
        as (E1 & E2 & _).
      split; [exact E1|]. split; [exact E2|].
      intros Ht Hk. split.
      - apply quintic_overshoots; assumption.
      - apply quintic_vel_nonzero; try assumption; lra. }
    exact (Hout l eq_refl eq_refl).
Qed.

End Extrapolation.

Lemma elapsed_time_not_clamped_witness :
  exists l w1,
    desired_point_locals (TU := demo_transform_utils)
      (demo_segment_world "euler" 3) = Ok (l, w1) /\
    coord (position l) 0 <> 1 /\ coord (velocity l) 0 <> 0.
Proof.
  destruct (elapsed_time_not_clamped (TU := demo_transform_utils)
              (demo_segment_world "euler" 3) (0, 0, 0) (1, 0, 0) 2 0)
    as (l & w1 & w2 & Hrun & _ & _ & _ & _ & Hafter & _).
  - repeat split.
  - right. exists (0, 0, 1), (0, 0, 0). repeat split.
  - lra.
  - exists l, w1. split; [exact Hrun|].
    apply (Hafter ltac:(unfold elapsed; cbn; lra) 0%nat).
    cbn. lra.
Defined.

(** ** The [rotation] orientation law *)

Section Degenerate.
Context `{MJ : MuJoCo} `{TU : TransformUtils}.


End Degenerate.


(** *** The regular case: blending the magnitude *)

Lemma blend_derivative (tau : R) :
  derivable_pt_lim blend tau (blend_slope tau).
Proof.
  unfold blend, blend_slope.
  replace (30 * tau ^ 4 - 60 * tau ^ 3 + 30 * tau ^ 2)
    with (6 * (INR 5 * tau ^ pred 5) - 15 * (INR 4 * tau ^ pred 4)
          + 10 * (INR 3 * tau ^ pred 3)) by (simpl; ring).
  apply (derivable_pt_lim_plus
           (fun x => 6 * x ^ 5 - 15 * x ^ 4) (fun x => 10 * x ^ 3)).
  - apply (derivable_pt_lim_minus (fun x => 6 * x ^ 5) (fun x => 15 * x ^ 4)).
    + apply (derivable_pt_lim_scal (fun x => x ^ 5)).
      apply derivable_pt_lim_pow.
    + apply (derivable_pt_lim_scal (fun x => x ^ 4)).
      apply derivable_pt_lim_pow.
  - apply (derivable_pt_lim_scal (fun x => x ^ 3)).
    apply derivable_pt_lim_pow.
Qed.

Lemma magnitude_derivative (m T t : R) :
  T <> 0 ->
  derivable_pt_lim (fun u => m * blend (u / T) - m) t
    (m * blend_slope (t / T) / T).
Proof.
  intros HT.
  replace (m * blend_slope (t / T) / T)
    with (m * (blend_slope (t / T) * (1 * / T)) - 0) by (field; exact HT).
  apply (derivable_pt_lim_minus (fun u => m * blend (u / T)) (fun _ => m)).
  - apply (derivable_pt_lim_scal (fun u => blend (u / T))).
    apply (derivable_pt_lim_comp (fun u => u / T) blend).
    + apply (derivable_pt_lim_scal_right id). apply derivable_pt_lim_id.
    + apply blend_derivative.
  - apply derivable_pt_lim_const.
Qed.

Lemma unit_axis (v : vec3) :
  np_linalg_norm v <> 0 ->
  np_linalg_norm (v3_scale (/ np_linalg_norm v) v) = 1.
Proof.
  destruct v as [[x y] z]. unfold np_linalg_norm, v3_scale, v3_map.
  set (S := x * x + y * y + z * z). intros Hn.
  assert (HS : 0 <= S) by (unfold S; nra).
  assert (Hsq : sqrt S * sqrt S = S) by (apply sqrt_sqrt; exact HS).
  replace (/ sqrt S * x * (/ sqrt S * x) + / sqrt S * y * (/ sqrt S * y)
           + / sqrt S * z * (/ sqrt S * z))
    with (S / (sqrt S * sqrt S)) by (unfold S; field; exact Hn).
  rewrite Hsq. replace (S / S) with 1.
  - apply sqrt_1.
  - field. intros H0. apply Hn. rewrite H0. apply sqrt_0.
Qed.

Section Magnitude.
Context `{MJ : MuJoCo}.
Variables (m2e : mat3 -> vec3) (rm2v : mat3 -> mat3 -> vec3) (step : R).

(** C3.  With the [rotation] method and a relative rotation vector of
    magnitude [m] at or above the threshold, the orientation output is the
    unit axis scaled by [m * s(t/T) - m], which runs from [-m] at the start
    of the segment (the full magnitude in absolute value) to [0] at its end,
    and the angular-velocity output is the unit axis scaled by the time
    derivative of that blended magnitude. *)
Theorem rotation_magnitude_blend (w : World) (ini fin : vec3) (T tb : R)
  (R1 R2 : mat3) :
  position_segment (self w) ini fin T tb ->
  rotation_segment (self w) R1 R2 ->
  T <> 0 ->
  upper_bound <= np_linalg_norm (rm2v R1 R2) ->
  let m := np_linalg_norm (rm2v R1 R2) in
  let axis := v3_scale (/ m) (rm2v R1 R2) in
  let t := elapsed w tb in
  exists p v w2,
    built_next_desired_point (TU := transform_utils_with m2e rm2v step) w
    = Ok ((p, v3_scale (m * blend (t / T) - m) axis,
           v, v3_scale (m * blend_slope (t / T) / T) axis), w2) /\
    derivable_pt_lim (fun u => m * blend (u / T) - m) t
      (m * blend_slope (t / T) / T) /\
    np_linalg_norm axis = 1 /\
    m * blend (0 / T) - m = - m /\
    m * blend (T / T) - m = 0.
Proof.
  intros Hp Hr HT Hm m axis t.
  pose proof (locals_rotation (TU := transform_utils_with m2e rm2v step)
                w ini fin T tb R1 R2 Hp Hr HT) as Hrun.
  cbv zeta in Hrun. fold t in Hrun.
  rewrite (rotation_law_regular (TU := transform_utils_with m2e rm2v step)
             R1 R2 T t Hm) in Hrun.
  cbn [Axis2Vector Rotation_Matrix_To_Vector transform_utils_with
       Axis2Vector_spec fst snd] in Hrun.
  fold m in Hrun. fold axis in Hrun.
  pose proof (next_point_of_locals
                (TU := transform_utils_with m2e rm2v step) _ _ _ Hrun)
    as Hnext.
  cbv zeta in Hnext.
  cbn [position velocity orientation ang_vel] in Hnext.
  assert (Hm0 : m <> 0).
  { unfold m. unfold upper_bound in Hm. lra. }
  eexists _, _, _. split; [|split; [|split; [|split]]].
  - rewrite Hnext.
    replace (m / T ^ 3 * (6 * t ^ 5 / T ^ 2 - 15 * t ^ 4 / T + 10 * t ^ 3) - m)
      with (m * blend (t / T) - m) by (unfold blend; field; exact HT).
    replace (m / T ^ 3 * (30 * t ^ 4 / T ^ 2 - 60 * t ^ 3 / T + 30 * t ^ 2))
      with (m * blend_slope (t / T) / T)
      by (unfold blend_slope; field; exact HT).
    reflexivity.
  - apply magnitude_derivative. exact HT.
  - apply unit_axis. exact Hm0.
  - unfold blend. field. exact HT.
  - unfold blend. field. exact HT.
Qed.

End Magnitude.

Lemma rotation_magnitude_blend_witness :
  let Vrot := @Rotation_Matrix_To_Vector demo_transform_utils
                identity3 quarter_turn in
  let m := np_linalg_norm Vrot in
  let axis := v3_scale (/ m) Vrot in
  exists p v w2,
    built_next_desired_point (TU := demo_transform_utils)
      (demo_segment_world "rotation" 1)
    = Ok ((p, v3_scale (m * blend (1 / 2) - m) axis,
           v, v3_scale (m * blend_slope (1 / 2) / 2) axis), w2) /\
    np_linalg_norm axis = 1.
Proof.
  intros Vrot m axis.
  destruct (rotation_magnitude_blend
              (@mat2euler demo_transform_utils)
              (@Rotation_Matrix_To_Vector demo_transform_utils)
              (1 / 500)
              (demo_segment_world "rotation" 1) (0, 0, 0) (1, 0, 0) 2 0
              identity3 quarter_turn)
    as (p & v & w2 & Hrun & _ & Hunit & _).
  - repeat split.
  - repeat split.
  - lra.
  - cbn. unfold upper_bound.
    apply Rle_trans with (sqrt 1).
    + rewrite sqrt_1. lra.
    + apply sqrt_le_1_alt. lra.
  - exists p, v, w2. split; [|exact Hunit].
    replace (1 / 2) with (elapsed (demo_segment_world "rotation" 1) 0 / 2)
      by (unfold elapsed; cbn; lra).
    exact Hrun.
Defined.

(** ** Building a segment *)

Lemma py_index_nth {A : Type} (l : list A) (n : nat) (a : A) :
  nth_error l n = Some a -> py_index l (Z.of_nat n) = Ok a.
Proof.
  intros H. unfold py_index.
  assert (Hlt : (n < length l)%nat).
  { apply nth_error_Some. rewrite H. discriminate. }
  destruct (Z.ltb_spec (Z.of_nat n) 0) as [Hneg | _]; [lia|].
  destruct (Z.leb_spec 0 (Z.of_nat n)) as [_ | Hneg]; [|lia].
  destruct (Z.ltb_spec (Z.of_nat n) (Z.of_nat (length l))) as [_ | Hge];
    [|lia].
  cbn [andb]. rewrite Nat2Z.id, H. reflexivity.
Qed.

Lemma py_index_last {A : Type} (l : list A) (a : A) :
  py_index (l ++ [a]) (-1) = Ok a.
Proof.
  unfold py_index. rewrite length_app. cbn [length].
  replace (Z.of_nat (length l + 1)) with (Z.of_nat (length l) + 1)%Z by lia.
  cbn [Z.ltb Z.compare].
  replace (-1 + (Z.of_nat (length l) + 1))%Z with (Z.of_nat (length l))
    by lia.
  destruct (Z.leb_spec 0 (Z.of_nat (length l))) as [_ | Hneg]; [|lia].
  destruct (Z.ltb_spec (Z.of_nat (length l)) (Z.of_nat (length l) + 1))
    as [_ | Hge]; [|lia].
  cbn [andb]. rewrite Nat2Z.id, nth_error_app2 by lia.
  rewrite Nat.sub_diag. reflexivity.
Qed.

Lemma py_index_empty {A : Type} (i : Z) :
  py_index (@nil A) i = Raise IndexError.
Proof.
  unfold py_index. cbn [length Z.of_nat].
  destruct (Z.ltb_spec i 0).
  - destruct (Z.leb_spec 0 (i + 0)); [lia|]. reflexivity.
  - destruct (Z.leb_spec 0 i); [|reflexivity].
    destruct (Z.ltb_spec i 0); [lia|]. reflexivity.
Qed.

Section BuildSegment.
Context `{MJ : MuJoCo} `{TU : TransformUtils}.

(** The non-chained case: [self.switch] is not 1. *)
Lemma min_jerk_fresh (w : World) (T tb : R) (via : via_dict)
  (pf : vec3) (o : mat3) (xp : vec3) (xm : vec9) (m : string) :
  via_entries via (switch (self w)) pf o ->
  backend_site w xp xm ->
  method (self w) = Some m ->
  switch (self w) <> 1%Z ->
  built_min_jerk_traj T tb via w
  = Ok (tt,
        {| self := set_traj
                     (segment_attributes (self w) T tb pf o xp xm m
                        (mat2euler (reshape_3_3 xm))) (self w);
           sim := after_site_reads (sim w) |}).
Proof.
  intros (Hp & Ho) (id & Hid & Hxp & Hxm) Hm Hsw.
  apply py_index_nth in Hxp. apply py_index_nth in Hxm.
  apply Z.eqb_neq in Hsw.
  unfold built_min_jerk_traj, bind, get_self, sim_read, lift, ret,
    site_name2id, modify_self.
  rewrite Hp, Ho. cbn [rbind as_pos as_ori self sim model data log_call].
  rewrite Hid. cbn [self sim model data log_call].
  rewrite Hxp, Hsw. cbn [self sim model data log_call].
  rewrite Hid. cbn [self sim model data log_call].
  rewrite Hxm, Hm. cbn [has_attr self sim].
  destruct xp as [[x0 y0] z0], pf as [[x1 y1] z1].
  unfold segment_attributes, after_site_reads.
  destruct (String.eqb m "euler"); reflexivity.
Qed.

(** The chained case: [self.switch] is 1 and the history is not empty. *)
Lemma min_jerk_chained (w : World) (T tb : R) (via : via_dict)
  (pf : vec3) (o : mat3) (xp : vec3) (xm : vec9) (m : string)
  (hist : list TrajPoint) (last : TrajPoint) :
  via_entries via (switch (self w)) pf o ->
  backend_site w xp xm ->
  method (self w) = Some m ->
  switch (self w) = 1%Z ->
  desired_vec_fin (self w) = hist ++ [last] ->
  built_min_jerk_traj T tb via w
  = Ok (tt,
        {| self := set_traj
                     (segment_attributes (self w) T tb pf o
                        (assign_first_two xp (point_position last)) xm m
                        (point_orientation last)) (self w);
           sim := after_site_reads (sim w) |}).
Proof.
  intros (Hp & Ho) (id & Hid & Hxp & Hxm) Hm Hsw Hh.
  apply py_index_nth in Hxp. apply py_index_nth in Hxm.
  unfold built_min_jerk_traj, bind, get_self, sim_read, lift, ret,
    site_name2id, modify_self.
  rewrite Hp, Ho. cbn [rbind as_pos as_ori self sim model data log_call].
  rewrite Hid. cbn [self sim model data log_call].
  rewrite Hxp, Hsw, Hh, py_index_last.
  cbn [Z.eqb Pos.eqb self sim model data log_call].
  rewrite Hid. cbn [self sim model data log_call].
  rewrite Hxm, Hm. cbn [has_attr self sim].
  destruct last as [[[lp lo] lv] la].
  destruct xp as [[x0 y0] z0], pf as [[x1 y1] z1], lp as [[lx ly] lz].
  unfold segment_attributes, after_site_reads.
  cbn [assign_first_two point_position point_orientation].
  destruct (String.eqb m "euler"); reflexivity.
Qed.

(** With an empty history the chained case raises [IndexError]. *)
Lemma min_jerk_chained_empty (w : World) (T tb : R) (via : via_dict)
  (pf : vec3) (o : mat3) (xp : vec3) (xm : vec9) :
  via_entries via (switch (self w)) pf o ->
  backend_site w xp xm ->
  switch (self w) = 1%Z ->
  desired_vec_fin (self w) = [] ->
  built_min_jerk_traj T tb via w = Raise IndexError.
Proof.
  intros (Hp & Ho) (id & Hid & Hxp & Hxm) Hsw Hh.
  apply py_index_nth in Hxp.
  unfold built_min_jerk_traj, bind, get_self, sim_read, lift, ret,
    site_name2id, modify_self.
  rewrite Hp, Ho. cbn [rbind as_pos as_ori self sim model data log_call].
  rewrite Hid. cbn [self sim model data log_call].
  rewrite Hxp, Hsw, Hh, py_index_empty. reflexivity.
Qed.

End BuildSegment.

(** ** Rounding of the via-point orientation *)

Lemma np_round_is_integer (x : R) : is_integer (np_round x).
Proof.
  unfold np_round, is_integer.
  destruct (Rlt_dec (frac_part x) (1 / 2)); [eexists; reflexivity|].
  destruct (Rlt_dec (1 / 2) (frac_part x)); [eexists; reflexivity|].
  destruct (Z.even (Int_part x)); eexists; reflexivity.
Qed.

Lemma np_round_of_integer (x : R) : is_integer x -> np_round x = x.
Proof.
  intros [z ->].
  assert (Hi : Int_part (IZR z) = z).
  { symmetry. apply Int_part_spec. lra. }
  assert (Hf : frac_part (IZR z) = 0).
  { unfold frac_part. rewrite Hi. ring. }
  unfold np_round. rewrite Hf, Hi.
  destruct (Rlt_dec 0 (1 / 2)) as [_ | Hn]; [reflexivity|lra].
Qed.

Lemma np_round_changes (x : R) : ~ is_integer x -> np_round x <> x.
Proof.
  intros Hx Heq. apply Hx. rewrite <- Heq. apply np_round_is_integer.
Qed.

Lemma np_round_nearest (x : R) : Rabs (np_round x - x) <= 1 / 2.
Proof.
  pose proof (base_fp x) as [Hge Hlt].
  assert (Hx : x = IZR (Int_part x) + frac_part x)
    by apply Rplus_Int_part_frac_part.
  unfold np_round.
  destruct (Rlt_dec (frac_part x) (1 / 2)) as [Hlo | Hlo].
  - apply Rabs_le. lra.
  - destruct (Rlt_dec (1 / 2) (frac_part x)) as [Hhi | Hhi].
    + rewrite plus_IZR. apply Rabs_le. lra.
    + destruct (Z.even (Int_part x)).
      * apply Rabs_le. lra.
      * rewrite plus_IZR. apply Rabs_le. lra.
Qed.

Lemma m3_round_fixed (o : mat3) :
  Forall is_integer (m3_entries o) -> m3_map np_round o = o.
Proof.
  destruct o as [[[[a0 a1] a2] [[a3 a4] a5]] [[a6 a7] a8]].
  cbn [m3_entries]. intros H.
  repeat match goal with
         | H : Forall _ (_ :: _) |- _ => inversion_clear H
         end.
  cbn [m3_map v3_map].
  rewrite !np_round_of_integer by assumption. reflexivity.
Qed.

Lemma m3_round_changed (o : mat3) :
  Exists (fun x => ~ is_integer x) (m3_entries o) -> m3_map np_round o <> o.
Proof.
  destruct o as [[[[a0 a1] a2] [[a3 a4] a5]] [[a6 a7] a8]].
  cbn [m3_entries m3_map v3_map]. intros H Heq.
  injection Heq as E0 E1 E2 E3 E4 E5 E6 E7 E8.
  apply Exists_exists in H. destruct H as (x & Hin & Hx).
  cbn [In] in Hin.
  repeat (destruct Hin as [<- | Hin];
          [eapply np_round_changes; [exact Hx|assumption]|]).
  exact Hin.
Qed.

Lemma m3_round_entries (o : mat3) :
  Forall is_integer (m3_entries (m3_map np_round o)) /\
  Forall2 (fun x r => Rabs (r - x) <= 1 / 2)
    (m3_entries o) (m3_entries (m3_map np_round o)).
Proof.
  destruct o as [[[[a0 a1] a2] [[a3 a4] a5]] [[a6 a7] a8]].
  cbn [m3_entries m3_map v3_map]. split.
  - repeat (apply Forall_cons; [apply np_round_is_integer|]).
    apply Forall_nil.
  - repeat (apply Forall2_cons; [apply np_round_nearest|]).
    apply Forall2_nil.
Qed.

Section Continuity.
Context `{MJ : MuJoCo} `{TU : TransformUtils}.

(** C8.  In the chained case ([switch] = 1, non-empty history) the new
    segment takes its initial X and Y, and with the [euler] method its
    initial orientation, from the last evaluated point; Z and the initial
    orientation matrix come from the simulator.  With [switch] = 0 all of
    them come from the simulator. *)
Theorem chained_segment_continuity (w : World) (T tb : R) (via : via_dict)
  (pf : vec3) (o : mat3) (xp : vec3) (xm : vec9) (m : string)
  (hist : list TrajPoint) (last : TrajPoint) :
  via_entries via (switch (self w)) pf o ->
  backend_site w xp xm ->
  method (self w) = Some m ->
  (switch (self w) = 1%Z ->
   desired_vec_fin (self w) = hist ++ [last] ->
   exists w',
     built_min_jerk_traj T tb via w = Ok (tt, w') /\
     X_init (traj (self w')) = Some (coord (point_position last) 0) /\
     Y_init (traj (self w')) = Some (coord (point_position last) 1) /\
     Z_init (traj (self w')) = Some (coord xp 2) /\
     initial_orientation (traj (self w')) = Some (reshape_3_3 xm) /\
     (m = "euler"%string ->
      init_orientation (traj (self w')) = Some (point_orientation last)))
  /\
  (switch (self w) = 0%Z ->
   exists w',
     built_min_jerk_traj T tb via w = Ok (tt, w') /\
     X_init (traj (self w')) = Some (coord xp 0) /\
     Y_init (traj (self w')) = Some (coord xp 1) /\
     Z_init (traj (self w')) = Some (coord xp 2) /\
     initial_orientation (traj (self w')) = Some (reshape_3_3 xm) /\
     (m = "euler"%string ->
      init_orientation (traj (self w'))
      = Some (mat2euler (reshape_3_3 xm)))).
Proof.
  intros Hv Hb Hm. split.
  - intros Hsw Hh. eexists. split.
    + exact (min_jerk_chained w T tb via pf o xp xm m hist last
               Hv Hb Hm Hsw Hh).
    + cbn [self traj set_traj segment_attributes X_init Y_init Z_init
           initial_orientation init_orientation].
      destruct last as [[[[[lx ly] lz] lo] lv] la].
      destruct xp as [[x0 y0] z0].
      cbn [assign_first_two point_position point_orientation coord].
      repeat (split; [reflexivity|]).
      intros ->. reflexivity.
  - intros Hsw. eexists. split.
    + apply (min_jerk_fresh w T tb via pf o xp xm m Hv Hb Hm).
      rewrite Hsw. discriminate.
    + cbn [self traj set_traj segment_attributes X_init Y_init Z_init
           initial_orientation init_orientation].
      repeat (split; [reflexivity|]).
      intros ->. reflexivity.
Qed.

(** C9.  The stored final orientation is the entry-wise rounding of the
    via-point orientation: it has integer entries, each within 1/2 of the
    supplied entry; it differs from the supplied matrix as soon as one entry
    is not an integer, and equals it when all entries are integers.  With
    the [euler] method the Euler target is computed from the rounded
    matrix. *)
Theorem final_orientation_is_rounded (w : World) (T tb : R) (via : via_dict)
  (pf : vec3) (o : mat3) (xp : vec3) (xm : vec9) (m : string) :
  via_entries via (switch (self w)) pf o ->
  backend_site w xp xm ->
  method (self w) = Some m ->
  (switch (self w) = 1%Z -> desired_vec_fin (self w) <> []) ->
  exists w',
    built_min_jerk_traj T tb via w = Ok (tt, w') /\
    final_orientation (traj (self w')) = Some (m3_map np_round o) /\
    (m = "euler"%string ->
     fin_orientation (traj (self w'))
     = Some (mat2euler (m3_map np_round o))) /\
    Forall is_integer (m3_entries (m3_map np_round o)) /\
    Forall2 (fun x r => Rabs (r - x) <= 1 / 2)
      (m3_entries o) (m3_entries (m3_map np_round o)) /\
    (Exists (fun x => ~ is_integer x) (m3_entries o) ->
     m3_map np_round o <> o) /\
    (Forall is_integer (m3_entries o) -> m3_map np_round o = o).
Proof.
  intros Hv Hb Hm Hh.
  assert (Hrun : exists pos_in ini,
             built_min_jerk_traj T tb via w
             = Ok (tt,
                   {| self := set_traj
                                (segment_attributes (self w) T tb pf o
                                   pos_in xm m ini) (self w);
                      sim := after_site_reads (sim w) |})).
  { destruct (Z.eq_dec (switch (self w)) 1) as [Hsw | Hsw].
    - destruct (exists_last (Hh Hsw)) as (hist & last & Hl).
      eexists _, _.
      exact (min_jerk_chained w T tb via pf o xp xm m hist last
               Hv Hb Hm Hsw Hl).
    - eexists _, _.
      exact (min_jerk_fresh w T tb via pf o xp xm m Hv Hb Hm Hsw). }
  destruct Hrun as (pos_in & ini & Hrun).
  eexists. split; [exact Hrun|].
  cbn [self traj set_traj segment_attributes final_orientation
       fin_orientation].
  split; [reflexivity|].
  split; [intros ->; reflexivity|].
  split; [apply m3_round_entries|].
  split; [apply m3_round_entries|].
  split; [apply m3_round_changed | apply m3_round_fixed].
Qed.

End Continuity.

Lemma chained_segment_continuity_witness :
  exists w',
    built_min_jerk_traj (TU := demo_transform_utils) 2 5 demo_via
      (demo_chained_world "euler") = Ok (tt, w') /\
    X_init (traj (self w')) = Some 7 /\
    Y_init (traj (self w')) = Some 8 /\
    Z_init (traj (self w')) = Some 3 /\
    init_orientation (traj (self w')) = Some (1 / 10, 2 / 10, 3 / 10).
Proof.
  destruct (chained_segment_continuity (TU := demo_transform_utils)
              (demo_chained_world "euler") 2 5 demo_via
              (2, 1, 0) ((1 / 2, 0, 0), (0, 1, 0), (0, 0, 1))
              (1, 2, 3) (1, 0, 0, 0, 1, 0, 0, 0, 1) "euler"
              [] demo_point) as [Hchained _].
  - split; reflexivity.
  - exists 0%nat. repeat split.
  - reflexivity.
  - destruct (Hchained eq_refl eq_refl)
      as (w' & Hrun & Hx & Hy & Hz & _ & He).
    exists w'. repeat split; try assumption.
    exact (He eq_refl).
Defined.

Lemma final_orientation_is_rounded_witness :
  exists w',
    built_min_jerk_traj (TU := demo_transform_utils) 2 5 demo_via
      (demo_chained_world "rotation") = Ok (tt, w') /\
    final_orientation (traj (self w'))
    = Some (m3_map np_round ((1 / 2, 0, 0), (0, 1, 0), (0, 0, 1))) /\
    m3_map np_round ((1 / 2, 0, 0), (0, 1, 0), (0, 0, 1))
    <> ((1 / 2, 0, 0), (0, 1, 0), (0, 0, 1)).
Proof.
  destruct (final_orientation_is_rounded (TU := demo_transform_utils)
              (demo_chained_world "rotation") 2 5 demo_via
              (2, 1, 0) ((1 / 2, 0, 0), (0, 1, 0), (0, 0, 1))
              (1, 2, 3) (1, 0, 0, 0, 1, 0, 0, 0, 1) "rotation")
    as (w' & Hrun & Hfin & _ & _ & _ & Hne & _).
  - split; reflexivity.
  - exists 0%nat. repeat split.
  - reflexivity.
  - intros _. discriminate.
  - exists w'. split; [exact Hrun|]. split; [exact Hfin|].
    apply Hne. apply Exists_cons_hd.
    intros [z Hz].
    assert (H : IZR (2 * z) = 1) by (rewrite mult_IZR; lra).
    apply eq_IZR in H. lia.
Defined.

(** ** [nums2array] *)

(** C7.  [nums2array] raises [TypeError] on text; broadcasts a number to an
    array of length [dim] filled with that number; and returns an iterable
    as it is, whatever [dim] says about its length. *)
Theorem nums2array_cases :
  (forall (s : string) (dim : Z), nums2array (PyStr s) dim = Raise TypeError)
  /\
  (forall (x : R) (n : nat),
     nums2array (PyNum x) (Z.of_nat n) = Ok (repeat x n) /\
     length (repeat x n) = n /\
     Forall (eq x) (repeat x n)) /\
  (forall (l : list R) (dim : Z), nums2array (PySeq l) dim = Ok l) /\
  nums2array (PyNum 5) 3 = Ok [5; 5; 5] /\
  nums2array (PySeq [1; 2; 3]) 3 = Ok [1; 2; 3] /\
  nums2array (PySeq [1; 2]) 3 = Ok [1; 2] /\
  nums2array (PyStr "x") 3 = Raise TypeError.
Proof.
  assert (Hnum : forall (x : R) (n : nat),
             nums2array (PyNum x) (Z.of_nat n) = Ok (repeat x n)).
  { intros x n.
    unfold nums2array, np_ones_times, np_ones. cbn [is_str is_Iterable].
    destruct (Z.ltb_spec (Z.of_nat n) 0) as [Hneg | _]; [lia|].
    cbn [rbind]. rewrite Nat2Z.id, map_repeat, Rmult_1_l. reflexivity. }
  split; [reflexivity|].
  split.
  { intros x n. split; [apply Hnum|split].
    - apply repeat_length.
    - apply Forall_forall. intros y Hy. symmetry.
      exact (repeat_spec n x y Hy). }
  split; [reflexivity|].
  split; [exact (Hnum 5 3%nat)|].
  repeat split.
Qed.

(** ** The state cache *)

Lemma py_index_valid {A : Type} (l : list A) (i : Z) :
  (- Z.of_nat (length l) <= i < Z.of_nat (length l))%Z ->
  exists a, py_index l i = Ok a /\ In a l.
Proof.
  intros Hi. unfold py_index.
  set (n := Z.of_nat (length l)) in *.
  set (j := if (i <? 0)%Z then (i + n)%Z else i).
  assert (Hj : (0 <= j < n)%Z).
  { unfold j. destruct (Z.ltb_spec i 0); lia. }
  destruct (Z.leb_spec 0 j) as [_ | Hneg]; [|lia].
  destruct (Z.ltb_spec j n) as [_ | Hge]; [|lia].
  cbn [andb].
  destruct (nth_error l (Z.to_nat j)) as [a |] eqn:E.
  - exists a. split; [reflexivity|]. exact (nth_error_In _ _ E).
  - apply nth_error_None in E. unfold n in Hj. lia.
Qed.

Lemma py_take_valid {A : Type} (l : list A) (idx : list Z) :
  valid_indices idx (length l) ->
  exists r, py_take l idx = Ok r /\ Forall (fun a => In a l) r.
Proof.
  induction 1 as [| i idx Hi _ IH].
  - exists []. split; [reflexivity|constructor].
  - destruct (py_index_valid l i Hi) as (a & Ha & Hin).
    destruct IH as (r & Hr & Hall).
    exists (a :: r). cbn [py_take]. rewrite Ha. cbn [rbind].
    rewrite Hr. cbn [rbind]. split; [reflexivity|].
    constructor; assumption.
Qed.

Lemma py_take_cols_valid (m : matrix) (idx : list Z) (n : nat) :
  Forall (fun row => length row = n) m ->
  valid_indices idx n ->
  exists r, py_take_cols m idx = Ok r.
Proof.
  intros Hm Hidx. induction Hm as [| row m Hrow _ IH].
  - exists []. reflexivity.
  - rewrite <- Hrow in Hidx.
    destruct (py_take_valid row idx Hidx) as (r & Hr & _).
    destruct IH as (rs & Hrs).
    exists (r :: rs). cbn [py_take_cols]. rewrite Hr. cbn [rbind].
    rewrite Hrs. reflexivity.
Qed.

Lemma chunks_rows (rows cols : nat) (a : list R) :
  (rows * cols <= length a)%nat ->
  Forall (fun row => length row = cols) (chunks rows cols a).
Proof.
  revert a. induction rows as [| rows IH]; intros a Ha; cbn [chunks].
  - constructor.
  - constructor.
    + apply firstn_length_le. lia.
    + apply IH. rewrite length_skipn. lia.
Qed.

Lemma chunks_length (rows cols : nat) (a : list R) :
  length (chunks rows cols a) = rows.
Proof.
  revert a. induction rows as [| rows IH]; intros a; cbn [chunks length].
  - reflexivity.
  - rewrite IH. reflexivity.
Qed.

Lemma reshape_3_rows_ok (a : ndarray) (n : nat) :
  length a = (3 * n)%nat -> reshape_3_rows a = Ok (chunks 3 n a).
Proof.
  intros Ha. unfold reshape_3_rows. rewrite Ha.
  replace (3 * n)%nat with (n * 3)%nat by lia.
  rewrite Nat.Div0.mod_mul, Nat.div_mul by discriminate.
  reflexivity.
Qed.

Lemma np_reshape_ok (rows cols : nat) (a : ndarray) :
  length a = (rows * cols)%nat ->
  np_reshape rows cols a = Ok (chunks rows cols a).
Proof.
  intros Ha. unfold np_reshape. rewrite Ha, Nat.eqb_refl. reflexivity.
Qed.

Section StateCache.
Context `{MJ : MuJoCo}.

Lemma site_index_valid {A : Type} (l : list A) (id : nat) :
  (id < length l)%nat -> exists a, py_index l (Z.of_nat id) = Ok a.
Proof.
  intros H. destruct (py_index_valid l (Z.of_nat id)) as (a & Ha & _).
  - lia.
  - exists a. exact Ha.
Qed.

(** With a well-shaped simulator every query of [update] succeeds; the
    controller object is not touched, the simulator data are those after
    [forward], and the log starts with the call to [forward]. *)
Lemma query_robot_state_ready (w : World) :
  backend_ready w ->
  exists r rest,
    query_robot_state w
    = Ok (r, {| self := self w;
                sim := {| model := model (sim w);
                          data := mj_forward (model (sim w)) (data (sim w));
                          calls := calls (sim w) ++ call_forward :: rest |} |}).
Proof.
  unfold backend_ready. cbv zeta.
  set (d := mj_forward (model (sim w)) (data (sim w))).
  set (nv := length (qvel d)).
  intros ((id & Hid & H1 & H2 & H3 & H4) & Hqp & Hqv
          & (jp & Hjp & Hjpl) & (jr & Hjr & Hjrl)).
  destruct (site_index_valid _ _ H1) as (xp & Hxp).
  destruct (site_index_valid _ _ H2) as (xm & Hxm).
  destruct (site_index_valid _ _ H3) as (xvp & Hxvp).
  destruct (site_index_valid _ _ H4) as (xvr & Hxvr).
  destruct (py_take_valid _ _ Hqp) as (jpos & Hjpos & _).
  destruct (py_take_valid _ _ Hqv) as (jvel & Hjvel & _).
  assert (Hrows : forall a, length a = (3 * nv)%nat ->
            exists r, py_take_cols (chunks 3 nv a) (qvel_index (self w))
                      = Ok r).
  { intros a Ha. apply py_take_cols_valid with (n := nv).
    - apply chunks_rows. lia.
    - exact Hqv. }
  destruct (Hrows jp Hjpl) as (Jp & HJp).
  destruct (Hrows jr Hjrl) as (Jr & HJr).
  set (buffer := map (mj_fullM (model (sim w)) (qM d)) (seq 0 (nv * nv))).
  assert (Hbuf : length buffer = (nv * nv)%nat).
  { unfold buffer. rewrite length_map, length_seq. reflexivity. }
  assert (Hqv' : valid_indices (qvel_index (self w))
                   (length (chunks nv nv buffer))).
  { rewrite chunks_length. exact Hqv. }
  destruct (py_take_valid _ _ Hqv') as (rows & Hrows' & Hin).
  assert (Hmm : exists mm, py_take_cols rows (qvel_index (self w)) = Ok mm).
  { apply py_take_cols_valid with (n := nv); [|exact Hqv].
    pose proof (chunks_rows nv nv buffer ltac:(lia)) as Hall.
    rewrite Forall_forall in Hall, Hin |- *.
    intros row Hrow. apply Hall. apply Hin. exact Hrow. }
  destruct Hmm as (mm & Hmm).
  unfold query_robot_state, bind, get_self, sim_forward, sim_read,
    site_name2id, lift, sim_fullM, ret.
  cbn [self sim model data calls log_call]. fold d.
  pose proof (reshape_3_rows_ok jp nv Hjpl) as Hrp.
  pose proof (reshape_3_rows_ok jr nv Hjrl) as Hrr.
  pose proof (np_reshape_ok nv nv buffer Hbuf) as Hrm.
  unfold buffer, nv in *.
  repeat (cbn [self sim model data calls log_call];
          first [ rewrite Hid | rewrite Hxp | rewrite Hxm | rewrite Hxvp
                | rewrite Hxvr | rewrite Hjpos | rewrite Hjvel
                | rewrite Hjp | rewrite Hrp | rewrite HJp
                | rewrite Hjr | rewrite Hrr | rewrite HJr
                | rewrite Hrm | rewrite Hrows' | rewrite Hmm ]).
  cbn [self sim model data calls log_call].
  cbv [log_call model data calls].
  rewrite <- !app_assoc. cbn [app].
  eexists _, _. reflexivity.
Qed.

End StateCache.

Section LazyUpdate.
Context `{MJ : MuJoCo}.

(** C5.  With a clean cache and [force = False], [update] returns at once:
    the whole world, that is every cached attribute, the flag and the
    simulator with its access log, is unchanged.  After any [update] that
    returns the flag is false; and with a dirty flag or [force = True]
    and a well-shaped simulator [update] does return, having called
    [forward] and cleared the flag. *)
Theorem update_is_lazy (w : World) :
  (new_update (self w) = false -> update false w = Ok (tt, w)) /\
  (forall force w',
     update force w = Ok (tt, w') -> new_update (self w') = false) /\
  (forall force,
     (new_update (self w) || force)%bool = true ->
     backend_ready w ->
     exists w' rest,
       update force w = Ok (tt, w') /\
       new_update (self w') = false /\
       data (sim w') = mj_forward (model (sim w)) (data (sim w)) /\
       calls (sim w') = calls (sim w) ++ call_forward :: rest).
Proof.
  split; [|split].
  - intros Hclean. unfold update, bind, get_self. rewrite Hclean.
    cbn [orb]. unfold ret. destruct w; reflexivity.
  - intros force w'. unfold update, bind, get_self.
    destruct (new_update (self w) || force)%bool eqn:Hflag.
    + destruct (query_robot_state w) as [[r w1] | e]; [|discriminate].
      unfold modify_self. intros H. injection H as <-. reflexivity.
    + unfold ret. intros H. injection H as <-.
      apply orb_false_elim in Hflag. exact (proj1 Hflag).
  - intros force Hflag Hready.
    destruct (query_robot_state_ready w Hready) as (r & rest & Hrun).
    unfold update, bind, get_self. rewrite Hflag, Hrun.
    unfold modify_self. cbn [self sim].
    eexists _, rest. repeat split.
Qed.

End LazyUpdate.

Lemma update_is_lazy_witness :
  exists w' rest,
    update (MJ := demo_mujoco) false (demo_world [-1] [1] [-2] [2] 0)
    = Ok (tt, w') /\
    new_update (self w') = false /\
    data (sim w') = demo_data 0 /\
    calls (sim w') = call_forward :: rest.
Proof.
  destruct (update_is_lazy (MJ := demo_mujoco)
              (demo_world [-1] [1] [-2] [2] 0)) as (_ & _ & Hrun).
  apply (Hrun false).
  - reflexivity.
  - unfold backend_ready. cbn.
    split; [exists 0%nat; repeat split; lia|].
    split; [repeat constructor; lia|].
    split; [repeat constructor; lia|].
    split; eexists; split; reflexivity.
Defined.

(** ** The action map *)

Lemma broadcast_same (f : R -> R -> R) (a b : ndarray) :
  length a = length b -> broadcast f a b = Ok (zip_with f a b).
Proof.
  intros H. unfold broadcast.
  destruct a as [| x [| x' a]]; destruct b as [| y [| y' b]];
    try discriminate H; try reflexivity.
  rewrite H, Nat.eqb_refl. reflexivity.
Qed.

Lemma length_zip_with (f : R -> R -> R) (a b : list R) :
  length (zip_with f a b) = Nat.min (length a) (length b).
Proof.
  revert b. induction a as [| x a IH]; intros [| y b];
    cbn [zip_with length]; try reflexivity.
  rewrite IH. reflexivity.
Qed.

Lemma nth_zip_with (f : R -> R -> R) (a b : list R) (i : nat) :
  length a = length b -> (i < length a)%nat ->
  nth i (zip_with f a b) 0 = f (nth i a 0) (nth i b 0).
Proof.
  revert b i. induction a as [| x a IH]; intros [| y b] i H Hi;
    try discriminate H; cbn [length] in Hi; [lia|].
  destruct i as [| i]; cbn [zip_with nth]; [reflexivity|].
  apply IH; [injection H as H; exact H | lia].
Qed.

Lemma nth_map_R (f : R -> R) (a : list R) (i : nat) :
  (i < length a)%nat -> nth i (map f a) 0 = f (nth i a 0).
Proof.
  intros Hi. rewrite (nth_indep _ 0 (f 0)) by (rewrite length_map; exact Hi).
  apply map_nth.
Qed.

Lemma Forall2_nth_R (P : R -> R -> Prop) (a b : list R) :
  Forall2 P a b <->
  length a = length b /\
  forall i, (i < length a)%nat -> P (nth i a 0) (nth i b 0).
Proof.
  split.
  - induction 1 as [| x y a b Hxy _ [IHl IHn]].
    + split; [reflexivity|]. cbn [length]. intros i Hi. lia.
    + split; [cbn [length]; rewrite IHl; reflexivity|].
      intros [| i] Hi; cbn [nth]; [exact Hxy|].
      apply IHn. cbn [length] in Hi. lia.
  - revert b. induction a as [| x a IH]; intros [| y b] [Hl Hn];
      try discriminate Hl.
    + constructor.
    + constructor.
      * exact (Hn 0%nat ltac:(cbn [length]; lia)).
      * apply IH. split; [injection Hl as Hl; exact Hl|].
        intros i Hi. exact (Hn (S i) ltac:(cbn [length]; lia)).
Qed.

Lemma list_eq_nth (a b : list R) :
  length a = length b ->
  (forall i, (i < length a)%nat -> nth i a 0 = nth i b 0) ->
  a = b.
Proof.
  intros Hl Hn. apply (nth_ext a b 0 0 Hl). exact Hn.
Qed.

(** Goals about the lengths of arrays built from [zip_with] and [map]. *)
Ltac same_length :=
  unfold affine_list, scale_of, input_transform_of, output_transform_of,
    clip_list, np_abs, np_div_scalar;
  repeat first [ rewrite length_map | rewrite length_zip_with ];
  lia.

Lemma np_clip_same (a lo hi : ndarray) :
  length a = length lo -> length a = length hi ->
  np_clip a lo hi = Ok (clip_list a lo hi).
Proof.
  intros Hlo Hhi. unfold np_clip, np_maximum, np_minimum.
  rewrite (broadcast_same Rmax a lo Hlo). cbn [rbind].
  rewrite broadcast_same by same_length. reflexivity.
Qed.

(** The transform of an action once the cache is in place. *)
Lemma scale_action_cached (w : World) (imin imax omin omax : ndarray)
  (n : nat) (a : ndarray) :
  has_ranges (self w) imin imax omin omax n ->
  scaling (self w) = expected_scaling imin imax omin omax ->
  length a = n ->
  scale_action a w
  = Ok (affine_list imin imax omin omax (clip_list a imin imax), w).
Proof.
  intros (Himin & Himax & Homin & Homax & L1 & L2 & L3 & L4) Hc La.
  unfold scale_action, bind, get_self, lift, ret,
    np_sub, np_mul, np_add.
  repeat (cbn [action_scale action_input_transform action_output_transform
               expected_scaling np_clip_opt not_None];
          first [ rewrite Hc | rewrite Himin | rewrite Himax
                | rewrite np_clip_same by congruence
                | rewrite broadcast_same by same_length ]).
  reflexivity.
Qed.

(** The first call computes the cache from the ranges. *)
Lemma scale_action_first (w : World) (imin imax omin omax : ndarray)
  (n : nat) (a : ndarray) :
  has_ranges (self w) imin imax omin omax n ->
  scaling (self w) = no_scaling ->
  length a = n ->
  scale_action a w
  = Ok (affine_list imin imax omin omax (clip_list a imin imax),
        {| self := set_scaling (expected_scaling imin imax omin omax)
                     (self w);
           sim := sim w |}).
Proof.
  intros (Himin & Himax & Homin & Homax & L1 & L2 & L3 & L4) Hc La.
  unfold scale_action, bind, get_self, lift, ret, modify_self,
    np_sub, np_mul, np_add, np_div.
  repeat (cbn [action_scale action_input_transform action_output_transform
               no_scaling np_clip_opt not_None self sim props scaling
               set_scaling];
          first [ rewrite Hc | rewrite Himin | rewrite Himax
                | rewrite Homin | rewrite Homax
                | rewrite np_clip_same by congruence
                | rewrite broadcast_same by same_length ]).
  reflexivity.
Qed.

(** *** One component *)

Lemma clip1_in_range (a lo hi : R) : lo <= a <= hi -> clip1 a lo hi = a.
Proof.
  intros [Hlo Hhi]. unfold clip1.
  rewrite (Rmax_left a lo Hlo). apply Rmin_right. exact Hhi.
Qed.

Lemma clip1_below (a lo hi : R) : lo <= hi -> a <= lo -> clip1 a lo hi = lo.
Proof.
  intros Hr Ha. unfold clip1.
  rewrite (Rmax_right a lo Ha). apply Rmin_right. exact Hr.
Qed.

Lemma clip1_above (a lo hi : R) : lo <= hi -> hi <= a -> clip1 a lo hi = hi.
Proof.
  intros Hr Ha. unfold clip1.
  rewrite (Rmax_left a lo) by lra. apply Rmin_left. exact Ha.
Qed.

Lemma clip1_mono (a b lo hi : R) :
  a <= b -> clip1 a lo hi <= clip1 b lo hi.
Proof.
  intros Hab. unfold clip1.
  apply Rle_min_compat_l. apply Rle_max_compat_r. exact Hab.
Qed.

Lemma clip1_bounds (a lo hi : R) :
  lo <= hi -> lo <= clip1 a lo hi <= hi.
Proof.
  intros Hr. unfold clip1. split.
  - apply Rmin_glb; [exact Hr | apply Rmax_r].
  - apply Rmin_l.
Qed.

Lemma clip1_idempotent (a lo hi : R) :
  clip1 (clip1 a lo hi) lo hi = clip1 a lo hi.
Proof.
  unfold clip1, Rmin, Rmax.
  repeat (destruct (Rle_dec _ _)); lra.
Qed.

Lemma scale1_affine (imin imax omin omax a : R) :
  imin <= a <= imax ->
  scale1 imin imax omin omax a
  = (a - (imax + imin) / 2) * (Rabs (omax - omin) / Rabs (imax - imin))
    + (omax + omin) / 2.
Proof.
  intros Ha. unfold scale1. rewrite (clip1_in_range a imin imax Ha).
  reflexivity.
Qed.

Lemma scale1_of_clip (imin imax omin omax a : R) :
  scale1 imin imax omin omax (clip1 a imin imax)
  = scale1 imin imax omin omax a.
Proof. unfold scale1. rewrite clip1_idempotent. reflexivity. Qed.

Lemma scale_factor_nonneg (imin imax omin omax : R) :
  imin < imax -> 0 <= Rabs (omax - omin) / Rabs (imax - imin).
Proof.
  intros Hr. apply Rmult_le_pos.
  - apply Rabs_pos.
  - apply Rlt_le. apply Rinv_0_lt_compat. apply Rabs_pos_lt. lra.
Qed.

Lemma scale1_mono (imin imax omin omax a b : R) :
  imin < imax -> a <= b ->
  scale1 imin imax omin omax a <= scale1 imin imax omin omax b.
Proof.
  intros Hr Hab. unfold scale1.
  pose proof (scale_factor_nonneg imin imax omin omax Hr) as Hs.
  pose proof (clip1_mono a b imin imax Hab) as Hc.
  apply Rplus_le_compat_r. apply Rmult_le_compat_r; [exact Hs | lra].
Qed.

Lemma scale1_lower (imin imax omin omax a : R) :
  imin < imax -> a <= imin ->
  scale1 imin imax omin omax a = Rmin omin omax.
Proof.
  intros Hr Ha. unfold scale1.
  rewrite (clip1_below a imin imax) by lra.
  rewrite (Rabs_pos_eq (imax - imin)) by lra.
  unfold Rabs, Rmin.
  destruct (Rcase_abs (omax - omin)); destruct (Rle_dec omin omax);
    try lra; field; lra.
Qed.

Lemma scale1_upper (imin imax omin omax a : R) :
  imin < imax -> imax <= a ->
  scale1 imin imax omin omax a = Rmax omin omax.
Proof.
  intros Hr Ha. unfold scale1.
  rewrite (clip1_above a imin imax) by lra.
  rewrite (Rabs_pos_eq (imax - imin)) by lra.
  unfold Rabs, Rmax.
  destruct (Rcase_abs (omax - omin)); destruct (Rle_dec omin omax);
    try lra; field; lra.
Qed.

Lemma scale1_midpoint (imin imax omin omax : R) :
  imin < imax ->
  scale1 imin imax omin omax ((imax + imin) / 2) = (omax + omin) / 2.
Proof.
  intros Hr. unfold scale1.
  rewrite clip1_in_range by lra.
  replace ((imax + imin) / 2 - (imax + imin) / 2) with 0 by ring.
  rewrite Rmult_0_l, Rplus_0_l. reflexivity.
Qed.

(** *** Arrays *)

Lemma clip_list_length (a lo hi : ndarray) :
  length a = length lo -> length a = length hi ->
  length (clip_list a lo hi) = length a.
Proof. intros H1 H2. same_length. Qed.

Lemma clip_list_nth (a lo hi : ndarray) (i : nat) :
  length a = length lo -> length a = length hi -> (i < length a)%nat ->
  nth i (clip_list a lo hi) 0 = clip1 (nth i a 0) (nth i lo 0) (nth i hi 0).
Proof.
  intros H1 H2 Hi. unfold clip_list, clip1.
  repeat rewrite nth_zip_with by same_length.
  reflexivity.
Qed.

Lemma clip_list_in_range (a lo hi : ndarray) :
  Forall2 Rle lo a -> Forall2 Rle a hi -> clip_list a lo hi = a.
Proof.
  intros Hlo Hhi.
  apply Forall2_nth_R in Hlo. destruct Hlo as [L1 Hlo].
  apply Forall2_nth_R in Hhi. destruct Hhi as [L2 Hhi].
  apply list_eq_nth.
  - apply clip_list_length; congruence.
  - rewrite clip_list_length by congruence. intros i Hi.
    rewrite clip_list_nth by (congruence || exact Hi).
    apply clip1_in_range. split.
    + apply Hlo. rewrite L1. exact Hi.
    + apply Hhi. exact Hi.
Qed.

Lemma clip_list_idempotent (a lo hi : ndarray) :
  length a = length lo -> length a = length hi ->
  clip_list (clip_list a lo hi) lo hi = clip_list a lo hi.
Proof.
  intros L1 L2.
  pose proof (clip_list_length a lo hi L1 L2) as Lc.
  apply list_eq_nth.
  - rewrite !clip_list_length; congruence.
  - rewrite clip_list_length by congruence. rewrite Lc. intros i Hi.
    rewrite clip_list_nth by (congruence || (rewrite Lc; exact Hi)).
    rewrite clip_list_nth by (congruence || exact Hi).
    apply clip1_idempotent.
Qed.

Lemma clip_list_bounds (a lo hi : ndarray) :
  length a = length lo -> Forall2 Rle lo hi ->
  Forall2 Rle lo (clip_list a lo hi) /\ Forall2 Rle (clip_list a lo hi) hi.
Proof.
  intros L1 Hr. apply Forall2_nth_R in Hr. destruct Hr as [L2 Hr].
  assert (L3 : length a = length hi) by congruence.
  pose proof (clip_list_length a lo hi L1 L3) as Lc.
  split; apply Forall2_nth_R; (split; [congruence|]); intros i Hi.
  - rewrite clip_list_nth by (congruence || lia).
    apply clip1_bounds. apply Hr. exact Hi.
  - rewrite clip_list_nth by (congruence || lia).
    apply clip1_bounds. apply Hr. lia.
Qed.

Section ScaledArrays.
Variables (imin imax omin omax : ndarray) (n : nat).
Hypotheses (L1 : length imin = n) (L2 : length imax = n)
  (L3 : length omin = n) (L4 : length omax = n).

Local Abbreviation scaled a :=
  (affine_list imin imax omin omax (clip_list a imin imax)).

Lemma scaled_length (a : ndarray) :
  length a = n -> length (scaled a) = n.
Proof. intros La. same_length. Qed.

Lemma scaled_nth (a : ndarray) (i : nat) :
  length a = n -> (i < n)%nat ->
  nth i (scaled a) 0
  = scale1 (nth i imin 0) (nth i imax 0) (nth i omin 0) (nth i omax 0)
      (nth i a 0).
Proof.
  intros La Hi.
  unfold affine_list, scale1, clip1, input_transform_of,
    output_transform_of, scale_of, clip_list, np_div_scalar, np_abs.
  repeat first [ rewrite nth_zip_with by same_length
               | rewrite nth_map_R by same_length ].
  reflexivity.
Qed.

End ScaledArrays.

Section ScaledProperties.
Variables (imin imax omin omax : ndarray) (n : nat).
Hypotheses (L1 : length imin = n) (L2 : length imax = n)
  (L3 : length omin = n) (L4 : length omax = n).
Hypothesis Hrange : Forall2 Rlt imin imax.

Local Abbreviation scaled a :=
  (affine_list imin imax omin omax (clip_list a imin imax)).

Lemma range_nth (i : nat) : (i < n)%nat -> nth i imin 0 < nth i imax 0.
Proof.
  intros Hi. apply Forall2_nth_R in Hrange. destruct Hrange as [_ H].
  apply H. lia.
Qed.

Lemma scaled_monotone (a b : ndarray) :
  length a = n -> Forall2 Rle a b -> Forall2 Rle (scaled a) (scaled b).
Proof.
  intros La Hab. apply Forall2_nth_R in Hab. destruct Hab as [Lb Hab].
  assert (Lb' : length b = n) by congruence.
  apply Forall2_nth_R. split.
  - rewrite (scaled_length imin imax omin omax n L1 L2 L3 L4 a La).
    rewrite (scaled_length imin imax omin omax n L1 L2 L3 L4 b Lb').
    reflexivity.
  - rewrite (scaled_length imin imax omin omax n L1 L2 L3 L4 a La).
    intros i Hi.
    rewrite (scaled_nth imin imax omin omax n L1 L2 L3 L4 a i La Hi).
    rewrite (scaled_nth imin imax omin omax n L1 L2 L3 L4 b i Lb' Hi).
    apply scale1_mono; [apply range_nth; exact Hi | apply Hab; lia].
Qed.

Lemma scaled_lower (a : ndarray) :
  Forall2 Rle a imin -> scaled a = zip_with Rmin omin omax.
Proof.
  intros Ha. apply Forall2_nth_R in Ha. destruct Ha as [La Ha].
  assert (La' : length a = n) by congruence.
  apply list_eq_nth;
    rewrite (scaled_length imin imax omin omax n L1 L2 L3 L4 a La').
  - same_length.
  - intros i Hi.
    rewrite (scaled_nth imin imax omin omax n L1 L2 L3 L4 a i La' Hi).
    rewrite nth_zip_with by same_length.
    apply scale1_lower; [apply range_nth; exact Hi | apply Ha; lia].
Qed.

Lemma scaled_upper (a : ndarray) :
  Forall2 Rle imax a -> scaled a = zip_with Rmax omin omax.
Proof.
  intros Ha. apply Forall2_nth_R in Ha. destruct Ha as [La Ha].
  assert (La' : length a = n) by congruence.
  apply list_eq_nth;
    rewrite (scaled_length imin imax omin omax n L1 L2 L3 L4 a La').
  - same_length.
  - intros i Hi.
    rewrite (scaled_nth imin imax omin omax n L1 L2 L3 L4 a i La' Hi).
    rewrite nth_zip_with by same_length.
    apply scale1_upper; [apply range_nth; exact Hi | apply Ha; lia].
Qed.

Lemma scaled_midpoint :
  scaled (input_transform_of imin imax) = output_transform_of omin omax.
Proof.
  assert (La : length (input_transform_of imin imax) = n) by same_length.
  apply list_eq_nth;
    rewrite (scaled_length imin imax omin omax n L1 L2 L3 L4 _ La).
  - symmetry. same_length.
  - intros i Hi.
    rewrite (scaled_nth imin imax omin omax n L1 L2 L3 L4 _ i La Hi).
    unfold input_transform_of, output_transform_of, np_div_scalar.
    rewrite !nth_map_R by same_length.
    rewrite !nth_zip_with by same_length.
    apply scale1_midpoint. apply range_nth. exact Hi.
Qed.

Lemma scaled_of_clip (a : ndarray) :
  length a = n -> scaled (clip_list a imin imax) = scaled a.
Proof.
  intros La.
  rewrite clip_list_idempotent by congruence. reflexivity.
Qed.

End ScaledProperties.

Lemma zip_min_ordered (lo hi : ndarray) :
  Forall2 Rle lo hi ->
  zip_with Rmin lo hi = lo /\ zip_with Rmax lo hi = hi.
Proof.
  induction 1 as [| x y lo hi Hxy _ [IH1 IH2]]; cbn [zip_with].
  - split; reflexivity.
  - rewrite IH1, IH2, (Rmin_left x y Hxy), (Rmax_right x y Hxy).
    split; reflexivity.
Qed.

Lemma Forall2_Rle_refl (a : ndarray) : Forall2 Rle a a.
Proof. induction a; constructor; [apply Rle_refl | assumption]. Qed.

Lemma set_scaling_same (c : Controller) :
  set_scaling (scaling c) c = c.
Proof. destruct c. reflexivity. Qed.

(** Every call with ranges of one length and a consistent cache returns the
    clipped-then-transformed action and leaves the cache in place. *)
Lemma scale_action_run (w : World) (imin imax omin omax : ndarray)
  (n : nat) (a : ndarray) :
  has_ranges (self w) imin imax omin omax n ->
  cache_consistent (self w) imin imax omin omax ->
  length a = n ->
  scale_action a w
  = Ok (affine_list imin imax omin omax (clip_list a imin imax),
        {| self := set_scaling (expected_scaling imin imax omin omax)
                     (self w);
           sim := sim w |}).
Proof.
  intros Hr [Hc | Hc] La.
  - exact (scale_action_first w imin imax omin omax n a Hr Hc La).
  - rewrite (scale_action_cached w imin imax omin omax n a Hr Hc La).
    rewrite <- Hc, set_scaling_same. destruct w. reflexivity.
Qed.

(** C2.  For ranges with [input_min < input_max] and
    [output_min <= output_max] element-wise, [scale_action] first clips the
    action to the input range and then applies the affine transform; it is
    monotonic in its argument; it maps [input_min] to [output_min],
    [input_max] to [output_max] and the input midpoint to the output
    midpoint; an action at or below [input_min] gives what [input_min]
    gives, an action at or above [input_max] what [input_max] gives, and
    in general an action gives what its clipped value gives. *)
Theorem scale_action_clamp_then_scale (w : World)
  (imin imax omin omax : ndarray) (n : nat) :
  has_ranges (self w) imin imax omin omax n ->
  cache_consistent (self w) imin imax omin omax ->
  Forall2 Rlt imin imax ->
  Forall2 Rle omin omax ->
  let scaled a := affine_list imin imax omin omax (clip_list a imin imax) in
  (forall a, length a = n ->
     exists w', scale_action a w = Ok (scaled a, w')) /\
  (forall a b, length a = n -> Forall2 Rle a b ->
     Forall2 Rle (scaled a) (scaled b)) /\
  scaled imin = omin /\
  scaled imax = omax /\
  scaled (input_transform_of imin imax) = output_transform_of omin omax /\
  (forall a, Forall2 Rle a imin -> scaled a = omin) /\
  (forall a, Forall2 Rle imax a -> scaled a = omax) /\
  (forall a, length a = n -> scaled (clip_list a imin imax) = scaled a).
Proof.
  intros Hr Hc Hlt Ho scaled.
  pose proof Hr as (_ & _ & _ & _ & L1 & L2 & L3 & L4).
  destruct (zip_min_ordered omin omax Ho) as [Emin Emax].
  assert (Hlow : forall a, Forall2 Rle a imin -> scaled a = omin).
  { intros a Ha. transitivity (zip_with Rmin omin omax); [|exact Emin].
    eapply scaled_lower; eassumption. }
  assert (Hup : forall a, Forall2 Rle imax a -> scaled a = omax).
  { intros a Ha. transitivity (zip_with Rmax omin omax); [|exact Emax].
    eapply scaled_upper; eassumption. }
  split.
  { intros a La. eexists.
    exact (scale_action_run w imin imax omin omax n a Hr Hc La). }
  split.
  { intros a b La Hab. eapply scaled_monotone; eassumption. }
  split.
  { apply Hlow. apply Forall2_Rle_refl. }
  split.
  { apply Hup. apply Forall2_Rle_refl. }
  split.
  { eapply scaled_midpoint; eassumption. }
  split; [exact Hlow|].
  split; [exact Hup|].
  intros a La. eapply scaled_of_clip; eassumption.
Qed.

Lemma scale_action_clamp_then_scale_witness :
  exists w',
    scale_action [-1] (demo_world [-1] [1] [-2] [2] 0) = Ok ([-2], w').
Proof.
  destruct (scale_action_clamp_then_scale
              (demo_world [-1] [1] [-2] [2] 0) [-1] [1] [-2] [2] 1)
    as (Hrun & _ & Hmin & _).
  - repeat split.
  - left. reflexivity.
  - constructor; [lra | constructor].
  - constructor; [lra | constructor].
  - destruct (Hrun [-1] eq_refl) as (w' & Hw').
    exists w'. rewrite <- Hmin at 2. exact Hw'.
Defined.

(** Outside these ranges, with the output bounds given in decreasing
    order, the scale factor is still an absolute value and the map still
    increasing: [input_min] is then mapped to [output_max]. *)
Lemma scale_action_reversed_output_range :
  exists w',
    input_min (props (self (demo_world [-1] [1] [1] [-1] 0))) = Some [-1] /\
    output_min (props (self (demo_world [-1] [1] [1] [-1] 0))) = Some [1] /\
    scale_action [-1] (demo_world [-1] [1] [1] [-1] 0) = Ok ([-1], w') /\
    [-1] <> [1].
Proof.
  eexists. split; [reflexivity|]. split; [reflexivity|]. split.
  - rewrite (scale_action_first (demo_world [-1] [1] [1] [-1] 0)
               [-1] [1] [1] [-1] 1 [-1]);
      [| repeat split | reflexivity | reflexivity].
    rewrite (scaled_lower [-1] [1] [1] [-1] 1 eq_refl eq_refl eq_refl
               eq_refl);
      [| constructor; [lra | constructor]
       | constructor; [lra | constructor] ].
    cbn [zip_with]. rewrite Rmin_right by lra. reflexivity.
  - intros H. injection H as H. lra.
Qed.

(** ** Repeated application *)

Lemma clip_torques_run (w : World) (t : ndarray) :
  length t = length (actuator_min (self w)) ->
  length t = length (actuator_max (self w)) ->
  clip_torques t w
  = Ok (clip_list t (actuator_min (self w)) (actuator_max (self w)), w).
Proof.
  intros Hlo Hhi. unfold clip_torques, bind, get_self, lift.
  rewrite (np_clip_same t _ _ Hlo Hhi). reflexivity.
Qed.

(** C6 (amended).  On an action within [[input_min, input_max]] the clamp of
    [scale_action] is the identity, so the call returns the affine transform
    of the action; calling it again with the same action returns the same
    result and leaves the state as the first call left it, and the first
    call changes nothing but the three cached attributes (nothing at all
    when they are already set).  [clip_torques] never changes the state,
    clipping twice is clipping once, and torques within the actuator limits
    are returned unchanged. *)
Theorem scale_and_clip_in_range (w : World)
  (imin imax omin omax : ndarray) (n : nat) :
  has_ranges (self w) imin imax omin omax n ->
  cache_consistent (self w) imin imax omin omax ->
  let cached :=
    {| self := set_scaling (expected_scaling imin imax omin omax) (self w);
       sim := sim w |} in
  let amin := actuator_min (self w) in
  let amax := actuator_max (self w) in
  (forall a, Forall2 Rle imin a -> Forall2 Rle a imax ->
     scale_action a w = Ok (affine_list imin imax omin omax a, cached) /\
     scale_action a cached
     = Ok (affine_list imin imax omin omax a, cached)) /\
  (scaling (self w) = expected_scaling imin imax omin omax -> cached = w) /\
  (forall t, length t = length amin -> length t = length amax ->
     clip_torques t w = Ok (clip_list t amin amax, w) /\
     clip_torques (clip_list t amin amax) w
     = Ok (clip_list t amin amax, w)) /\
  (forall t, Forall2 Rle amin t -> Forall2 Rle t amax ->
     clip_torques t w = Ok (t, w)).
Proof.
  intros Hr Hc cached amin amax.
  split; [|split; [|split]].
  - intros a Hlo Hhi.
    pose proof (clip_list_in_range a imin imax Hlo Hhi) as Hclip.
    assert (La : length a = n).
    { apply Forall2_length in Hlo. destruct Hr as (_ & _ & _ & _ & L1 & _).
      congruence. }
    split.
    + rewrite (scale_action_run w imin imax omin omax n a Hr Hc La).
      rewrite Hclip. reflexivity.
    + rewrite (scale_action_cached cached imin imax omin omax n a);
        [rewrite Hclip; reflexivity | exact Hr | reflexivity | exact La].
  - intros Hs. unfold cached. rewrite <- Hs, set_scaling_same.
    destruct w. reflexivity.
  - intros t Hlo Hhi. split.
    + exact (clip_torques_run w t Hlo Hhi).
    + rewrite clip_torques_run
        by (rewrite clip_list_length; assumption).
      fold amin amax. rewrite clip_list_idempotent by assumption.
      reflexivity.
  - intros t Hlo Hhi.
    rewrite clip_torques_run.
    + fold amin amax. rewrite (clip_list_in_range t amin amax Hlo Hhi).
      reflexivity.
    + apply Forall2_length in Hlo. symmetry. exact Hlo.
    + apply Forall2_length in Hhi. exact Hhi.
Qed.

Lemma scale_and_clip_in_range_witness :
  exists r w1,
    scale_action [1 / 2] (demo_world [-1] [1] [-2] [2] 0) = Ok (r, w1) /\
    scale_action [1 / 2] w1 = Ok (r, w1).
Proof.
  destruct (scale_and_clip_in_range
              (demo_world [-1] [1] [-2] [2] 0) [-1] [1] [-2] [2] 1)
    as (Hscale & _).
  - repeat split.
  - left. reflexivity.
  - destruct (Hscale [1 / 2]) as [H1 H2].
    + constructor; [lra | constructor].
    + constructor; [lra | constructor].
    + eexists _, _. split; [exact H1 | exact H2].
Defined.

Lemma scaled_singleton (imin imax omin omax a : R) :
  affine_list [imin] [imax] [omin] [omax] (clip_list [a] [imin] [imax])
  = [scale1 imin imax omin omax a].
Proof. reflexivity. Qed.

(** C6, as first stated, fails: an action within the input range is not
    mapped to a fixed point.  With input range [-1, 1] and output range
    [-2, 2] the action 1/2 goes to 1 and 1 goes to 2. *)
Lemma scale_action_not_idempotent :
  Forall2 Rle [-1] [1 / 2] /\ Forall2 Rle [1 / 2] [1] /\
  exists w1 w2,
    scale_action [1 / 2] (demo_world [-1] [1] [-2] [2] 0) = Ok ([1], w1) /\
    scale_action [1] w1 = Ok ([2], w2) /\
    [2] <> [1].
Proof.
  split; [constructor; [lra | constructor]|].
  split; [constructor; [lra | constructor]|].
  assert (E1 : scale1 (-1) 1 (-2) 2 (1 / 2) = 1).
  { rewrite scale1_affine by lra.
    replace (2 - -2) with 4 by ring. replace (1 - -1) with 2 by ring.
    rewrite !Rabs_pos_eq by lra. field. }
  assert (E2 : scale1 (-1) 1 (-2) 2 1 = 2).
  { rewrite scale1_affine by lra.
    replace (2 - -2) with 4 by ring. replace (1 - -1) with 2 by ring.
    rewrite !Rabs_pos_eq by lra. field. }
  eexists _, _. split; [|split].
  - rewrite (scale_action_first (demo_world [-1] [1] [-2] [2] 0)
               [-1] [1] [-2] [2] 1 [1 / 2]);
      [| repeat split | reflexivity | reflexivity].
    rewrite scaled_singleton, E1. reflexivity.
  - rewrite (scale_action_cached _ [-1] [1] [-2] [2] 1 [1]);
      [| repeat split | reflexivity | reflexivity].
    rewrite scaled_singleton, E2. reflexivity.
  - intros H. injection H as H. lra.
Qed.

(** * Further properties *)

(** ** The three polynomial laws are consistent *)

Lemma derivable_pt_lim_ext (f g : R -> R) (x l : R) :
  (forall u, f u = g u) ->
  derivable_pt_lim f x l -> derivable_pt_lim g x l.
Proof.
  intros E H eps Heps. destruct (H eps Heps) as (delta & Hd).
  exists delta. intros h Hh Hlt. rewrite <- !E. exact (Hd h Hh Hlt).
Qed.

Lemma poly5_derivative (c5 c4 c3 c2 c1 c0 t : R) :
  derivable_pt_lim
    (fun u => c5 * u ^ 5 + c4 * u ^ 4 + c3 * u ^ 3 + c2 * u ^ 2
              + c1 * u + c0) t
    (5 * c5 * t ^ 4 + 4 * c4 * t ^ 3 + 3 * c3 * t ^ 2 + 2 * c2 * t + c1).
Proof.
  replace (5 * c5 * t ^ 4 + 4 * c4 * t ^ 3 + 3 * c3 * t ^ 2 + 2 * c2 * t
           + c1)
    with (c5 * (INR 5 * t ^ pred 5) + c4 * (INR 4 * t ^ pred 4)
          + c3 * (INR 3 * t ^ pred 3) + c2 * (INR 2 * t ^ pred 2)
          + c1 * 1 + 0) by (simpl; ring).
  apply (derivable_pt_lim_plus
           (fun u => c5 * u ^ 5 + c4 * u ^ 4 + c3 * u ^ 3 + c2 * u ^ 2
                     + c1 * u) (fun _ => c0)).
  - apply (derivable_pt_lim_plus
             (fun u => c5 * u ^ 5 + c4 * u ^ 4 + c3 * u ^ 3 + c2 * u ^ 2)
             (fun u => c1 * u)).
    + apply (derivable_pt_lim_plus
               (fun u => c5 * u ^ 5 + c4 * u ^ 4 + c3 * u ^ 3)
               (fun u => c2 * u ^ 2)).
      * apply (derivable_pt_lim_plus
                 (fun u => c5 * u ^ 5 + c4 * u ^ 4) (fun u => c3 * u ^ 3)).
        -- apply (derivable_pt_lim_plus
                    (fun u => c5 * u ^ 5) (fun u => c4 * u ^ 4)).
           ++ apply (derivable_pt_lim_scal (fun u => u ^ 5)).
              apply derivable_pt_lim_pow.
           ++ apply (derivable_pt_lim_scal (fun u => u ^ 4)).
              apply derivable_pt_lim_pow.
        -- apply (derivable_pt_lim_scal (fun u => u ^ 3)).
           apply derivable_pt_lim_pow.
      * apply (derivable_pt_lim_scal (fun u => u ^ 2)).
        apply derivable_pt_lim_pow.
    + apply (derivable_pt_lim_scal id). apply derivable_pt_lim_id.
  - apply derivable_pt_lim_const.
Qed.

(** A polynomial law evaluated at the elapsed time [now - tb]. *)
Lemma shifted_derivative (p : R -> R) (tb now l : R) :
  derivable_pt_lim p (now - tb) l ->
  derivable_pt_lim (fun u => p (u - tb)) now l.
Proof.
  intros H. replace l with (l * (1 - 0)) by ring.
  apply (derivable_pt_lim_comp (fun u => u - tb) p).
  - apply (derivable_pt_lim_minus id (fun _ => tb)).
    + apply derivable_pt_lim_id.
    + apply derivable_pt_lim_const.
  - exact H.
Qed.

Lemma quintic_derivative (fin ini T t : R) :
  derivable_pt_lim (quintic fin ini T) t (quintic_vel fin ini T t).
Proof.
  set (k := (fin - ini) / T ^ 3).
  apply (derivable_pt_lim_ext
           (fun u => k * 6 * / T ^ 2 * u ^ 5 + k * - 15 * / T * u ^ 4
                     + k * 10 * u ^ 3 + 0 * u ^ 2 + 0 * u + ini)).
  - intros u. unfold quintic, k, Rdiv. ring.
  - replace (quintic_vel fin ini T t)
      with (5 * (k * 6 * / T ^ 2) * t ^ 4 + 4 * (k * - 15 * / T) * t ^ 3
            + 3 * (k * 10) * t ^ 2 + 2 * 0 * t + 0)
      by (unfold quintic_vel, k, Rdiv; ring).
    apply poly5_derivative.
Qed.

Lemma quintic_vel_derivative (fin ini T t : R) :
  derivable_pt_lim (quintic_vel fin ini T) t (quintic_acc fin ini T t).
Proof.
  set (k := (fin - ini) / T ^ 3).
  apply (derivable_pt_lim_ext
           (fun u => 0 * u ^ 5 + k * 30 * / T ^ 2 * u ^ 4
                     + k * - 60 * / T * u ^ 3 + k * 30 * u ^ 2 + 0 * u + 0)).
  - intros u. unfold quintic_vel, k, Rdiv. ring.
  - replace (quintic_acc fin ini T t)
      with (5 * 0 * t ^ 4 + 4 * (k * 30 * / T ^ 2) * t ^ 3
            + 3 * (k * - 60 * / T) * t ^ 2 + 2 * (k * 30) * t + 0)
      by (unfold quintic_acc, k, Rdiv; ring).
    apply poly5_derivative.
Qed.

Section LawsInTime.
Context `{TU : TransformUtils}.

Lemma locals_at_rotation (w : World) (ini fin : vec3) (T tb : R)
  (R1 R2 : mat3) (now : R) :
  position_segment (self w) ini fin T tb ->
  rotation_segment (self w) R1 R2 ->
  T <> 0 ->
  locals_at w now
  = Some {| position := v3_zip (fun f i => quintic f i T (now - tb)) fin ini;
            velocity :=
              v3_zip (fun f i => quintic_vel f i T (now - tb)) fin ini;
            acceleration :=
              v3_zip (fun f i => quintic_acc f i T (now - tb)) fin ini;
            orientation := fst (rotation_law R1 R2 T (now - tb));
            ang_vel := snd (rotation_law R1 R2 T (now - tb)) |}.
Proof.
  intros Hp Hr HT. unfold locals_at.
  rewrite (locals_rotation (at_time w now) ini fin T tb R1 R2 Hp Hr HT).
  reflexivity.
Qed.

Lemma locals_at_euler (w : World) (ini fin : vec3) (T tb : R)
  (ofin oini : vec3) (now : R) :
  position_segment (self w) ini fin T tb ->
  euler_segment (self w) ofin oini ->
  T <> 0 ->
  locals_at w now
  = Some {| position := v3_zip (fun f i => quintic f i T (now - tb)) fin ini;
            velocity :=
              v3_zip (fun f i => quintic_vel f i T (now - tb)) fin ini;
            acceleration :=
              v3_zip (fun f i => quintic_acc f i T (now - tb)) fin ini;
            orientation := fst (euler_law ofin oini T (now - tb));
            ang_vel := snd (euler_law ofin oini T (now - tb)) |}.
Proof.
  intros Hp He HT. unfold locals_at.
  rewrite (locals_euler (at_time w now) ini fin T tb ofin oini Hp He HT).
  reflexivity.
Qed.

(** With a duration of zero the evaluation raises at every time. *)
Lemma locals_at_zero_duration (w : World) (ini fin : vec3) (tb : R)
  (now : R) :
  position_segment (self w) ini fin 0 tb ->
  locals_at w now = None.
Proof.
  intros Hp. unfold locals_at.
  rewrite (locals_zero_duration (at_time w now) ini fin tb Hp).
  reflexivity.
Qed.

Lemma coord_zero (k : nat) : coord v3_zero k = 0.
Proof. destruct k as [|[|k]]; reflexivity. Qed.

Lemma position_laws_at (w : World) (ini fin : vec3) (T tb : R) (now : R) :
  position_segment (self w) ini fin T tb ->
  orientation_ready (self w) ->
  T <> 0 ->
  position_at w now = v3_zip (fun f i => quintic f i T (now - tb)) fin ini /\
  velocity_at w now
  = v3_zip (fun f i => quintic_vel f i T (now - tb)) fin ini /\
  acceleration_at w now
  = v3_zip (fun f i => quintic_acc f i T (now - tb)) fin ini.
Proof.
  intros Hp [(R1 & R2 & Hr) | (f & i & He)] HT;
    unfold position_at, velocity_at, acceleration_at.
  - rewrite (locals_at_rotation w ini fin T tb R1 R2 now Hp Hr HT).
    repeat split.
  - rewrite (locals_at_euler w ini fin T tb f i now Hp He HT).
    repeat split.
Qed.

(** X1.  Whatever the duration, the velocity returned by
    [built_next_desired_point] is the time derivative of the position it
    returns, and the acceleration it computes is the time derivative of
    that velocity, on every axis and at every simulation time.  (With a
    duration of zero the method raises at every time; [position_at] and
    its companions are then constantly zero.) *)
Theorem velocity_is_derivative_of_position (w : World) (ini fin : vec3)
  (T tb : R) :
  position_segment (self w) ini fin T tb ->
  orientation_ready (self w) ->
  forall (now : R) (k : nat),
    derivable_pt_lim (fun u => coord (position_at w u) k) now
      (coord (velocity_at w now) k) /\
    derivable_pt_lim (fun u => coord (velocity_at w u) k) now
      (coord (acceleration_at w now) k).
Proof.
  intros Hp Ho now k.
  destruct (Req_dec T 0) as [-> | HT].
  { assert (Hnone : forall u, locals_at w u = None).
    { intros u. exact (locals_at_zero_duration w ini fin tb u Hp). }
    unfold position_at, velocity_at, acceleration_at.
    rewrite (Hnone now), coord_zero.
    split;
      (apply (derivable_pt_lim_ext (fun _ => 0));
       [intros u; rewrite (Hnone u), coord_zero; reflexivity
       |apply derivable_pt_lim_const]). }
  destruct (position_laws_at w ini fin T tb now Hp Ho HT) as (_ & Hv & Ha).
  rewrite Hv, Ha, !coord_zip. split.
  - apply (derivable_pt_lim_ext
             (fun u => quintic (coord fin k) (coord ini k) T (u - tb))).
    + intros u.
      destruct (position_laws_at w ini fin T tb u Hp Ho HT) as (E & _).
      rewrite E, coord_zip. reflexivity.
    + apply (shifted_derivative (quintic (coord fin k) (coord ini k) T)).
      apply quintic_derivative.
  - apply (derivable_pt_lim_ext
             (fun u => quintic_vel (coord fin k) (coord ini k) T (u - tb))).
    + intros u.
      destruct (position_laws_at w ini fin T tb u Hp Ho HT) as (_ & E & _).
      rewrite E, coord_zip. reflexivity.
    + apply (shifted_derivative
               (quintic_vel (coord fin k) (coord ini k) T)).
      apply quintic_vel_derivative.
Qed.

End LawsInTime.

Lemma velocity_is_derivative_of_position_witness :
  derivable_pt_lim
    (fun u => coord (position_at (TU := demo_transform_utils)
                       (demo_segment_world "euler" 0) u) 0) 1
    (coord (velocity_at (TU := demo_transform_utils)
              (demo_segment_world "euler" 0) 1) 0).
Proof.
  assert (Hp : position_segment (self (demo_segment_world "euler" 0))
                 (0, 0, 0) (1, 0, 0) 2 0) by (repeat split).
  assert (Ho : orientation_ready (self (demo_segment_world "euler" 0))).
  { right. exists (0, 0, 1), (0, 0, 0). repeat split. }
  exact (proj1 (velocity_is_derivative_of_position
                  (TU := demo_transform_utils)
                  (demo_segment_world "euler" 0) (0, 0, 0) (1, 0, 0) 2 0
                  Hp Ho 1 0%nat)).
Defined.

(** ** The shape of the position law within a segment *)

Lemma quintic_midpoint (fin ini T : R) :
  T <> 0 ->
  quintic fin ini T (T / 2) = (ini + fin) / 2 /\
  quintic_vel fin ini T (T / 2) = 15 / 8 * (fin - ini) / T /\
  quintic_acc fin ini T (T / 2) = 0.
Proof.
  intros HT. unfold quintic, quintic_vel, quintic_acc.
  repeat split; field; exact HT.
Qed.

Lemma quintic_progress (T t : R) :
  0 < T -> 0 <= t <= T ->
  0 <= t ^ 3 * (6 * t ^ 2 - 15 * t * T + 10 * T ^ 2) / T ^ 5 /\
  (t - T) ^ 3 * (6 * t ^ 2 + 3 * t * T + T ^ 2) / T ^ 5 <= 0.
Proof.
  intros HT [H0 H1].
  assert (HT5 : 0 < / T ^ 5).
  { apply Rinv_0_lt_compat. apply pow_lt. exact HT. }
  assert (Hq1 : 0 <= 6 * t ^ 2 - 15 * t * T + 10 * T ^ 2) by nra.
  assert (Hq2 : 0 <= 6 * t ^ 2 + 3 * t * T + T ^ 2) by nra.
  assert (Ht3 : 0 <= t ^ 3) by (apply pow_le; exact H0).
  assert (Hs3 : 0 <= (T - t) ^ 3) by (apply pow_le; lra).
  split.
  - unfold Rdiv. apply Rmult_le_pos; [|lra].
    apply Rmult_le_pos; assumption.
  - replace ((t - T) ^ 3) with (- (T - t) ^ 3) by ring.
    unfold Rdiv.
    assert (0 <= (T - t) ^ 3 * (6 * t ^ 2 + 3 * t * T + T ^ 2) * / T ^ 5).
    { apply Rmult_le_pos; [|lra]. apply Rmult_le_pos; assumption. }
    lra.
Qed.

Lemma quintic_between (fin ini T t : R) :
  0 < T -> 0 <= t <= T ->
  Rmin ini fin <= quintic fin ini T t <= Rmax ini fin.
Proof.
  intros HT Ht.
  assert (HT0 : T <> 0) by lra.
  pose proof (quintic_minus_ini fin ini T t HT0) as Ei.
  pose proof (quintic_minus_fin fin ini T t HT0) as Ef.
  destruct (quintic_progress T t HT Ht) as [Ha Hb].
  set (A := t ^ 3 * (6 * t ^ 2 - 15 * t * T + 10 * T ^ 2) / T ^ 5) in *.
  set (B := (t - T) ^ 3 * (6 * t ^ 2 + 3 * t * T + T ^ 2) / T ^ 5) in *.
  assert (Ei' : quintic fin ini T t - ini = (fin - ini) * A).
  { rewrite Ei. unfold A, Rdiv. ring. }
  assert (Ef' : quintic fin ini T t - fin = (fin - ini) * B).
  { rewrite Ef. unfold B, Rdiv. ring. }
  unfold Rmin, Rmax. destruct (Rle_dec ini fin); split; nra.
Qed.

Lemma quintic_vel_forward (fin ini T t : R) :
  0 < T -> 0 <= (fin - ini) * quintic_vel fin ini T t.
Proof.
  intros HT. rewrite (quintic_vel_factored fin ini T t) by lra.
  assert (HT5 : 0 < / T ^ 5).
  { apply Rinv_0_lt_compat. apply pow_lt. exact HT. }
  replace ((fin - ini) * ((fin - ini) * (30 * t ^ 2 * (t - T) ^ 2) / T ^ 5))
    with ((fin - ini) ^ 2 * (30 * (t * (t - T)) ^ 2) * / T ^ 5)
    by (unfold Rdiv; ring).
  apply Rmult_le_pos; [|lra].
  apply Rmult_le_pos; [apply pow2_ge_0|].
  pose proof (pow2_ge_0 (t * (t - T))). lra.
Qed.

Lemma quintic_vel_peak (fin ini T t : R) :
  0 < T -> 0 <= t <= T ->
  Rabs (quintic_vel fin ini T t) <= 15 / 8 * Rabs (fin - ini) / T.
Proof.
  intros HT [H0 H1].
  rewrite (quintic_vel_factored fin ini T t) by lra.
  assert (HT5 : 0 < / T ^ 5).
  { apply Rinv_0_lt_compat. apply pow_lt. exact HT. }
  set (p := t * (T - t)).
  assert (Hp0 : 0 <= p).
  { unfold p. apply Rmult_le_pos; lra. }
  assert (Hp1 : p <= T ^ 2 / 4).
  { unfold p. pose proof (pow2_ge_0 (T - 2 * t)). lra. }
  assert (Hp2 : p ^ 2 <= T ^ 4 / 16).
  { replace (T ^ 4 / 16) with ((T ^ 2 / 4) ^ 2) by field.
    apply pow_incr. split; assumption. }
  replace ((fin - ini) * (30 * t ^ 2 * (t - T) ^ 2) / T ^ 5)
    with ((fin - ini) * (30 * p ^ 2 * / T ^ 5))
    by (unfold p, Rdiv; ring).
  rewrite Rabs_mult.
  rewrite (Rabs_pos_eq (30 * p ^ 2 * / T ^ 5)).
  - replace (15 / 8 * Rabs (fin - ini) / T)
      with (Rabs (fin - ini) * (30 * (T ^ 4 / 16) * / T ^ 5))
      by (field; lra).
    apply Rmult_le_compat_l; [apply Rabs_pos|].
    apply Rmult_le_compat_r; [lra|]. lra.
  - apply Rmult_le_pos; [|lra]. pose proof (pow2_ge_0 p). lra.
Qed.

Section OrientationInTime.
Context `{TU : TransformUtils}.

Lemma coord_scale (k : R) (d : vec3) (i : nat) :
  coord (v3_scale k d) i = k * coord d i.
Proof. destruct d as [[x y] z]. destruct i as [|[|i]]; reflexivity. Qed.

(** In both branches the [rotation] law is one fixed direction scaled by a
    quintic in time. *)
Lemma rotation_law_scaled (R1 R2 : mat3) (T : R) :
  exists m d, forall t,
    rotation_law R1 R2 T t
    = (v3_scale (quintic m 0 T t - m) d, v3_scale (quintic_vel m 0 T t) d).
Proof.
  destruct (Rlt_dec (np_linalg_norm (Rotation_Matrix_To_Vector R1 R2))
              upper_bound) as [Hlt | Hge].
  - exists 0, v3_zero. intros t.
    rewrite (rotation_law_degenerate R1 R2 T t Hlt), !v3_scale_zero.
    reflexivity.
  - apply Rnot_lt_le in Hge.
    destruct (Axis2Vector (Rotation_Matrix_To_Vector R1 R2)) as [m d] eqn:E.
    exists m, d. intros t.
    rewrite (rotation_law_regular R1 R2 T t Hge), E.
    f_equal; f_equal; unfold quintic, quintic_vel, Rdiv; ring.
Qed.

Lemma scaled_quintic_derivative (m c T tb now : R) :
  derivable_pt_lim (fun u => (quintic m 0 T (u - tb) - m) * c) now
    (quintic_vel m 0 T (now - tb) * c).
Proof.
  apply (derivable_pt_lim_ext
           (fun u => c * quintic m 0 T (u - tb) + - m * c)).
  - intros u. ring.
  - replace (quintic_vel m 0 T (now - tb) * c)
      with (c * quintic_vel m 0 T (now - tb) + 0) by ring.
    apply (derivable_pt_lim_plus
             (fun u => c * quintic m 0 T (u - tb)) (fun _ => - m * c)).
    + apply (derivable_pt_lim_scal (fun u => quintic m 0 T (u - tb))).
      apply (shifted_derivative (quintic m 0 T)).
      apply quintic_derivative.
    + apply derivable_pt_lim_const.
Qed.

(** X2.  With either orientation method, the angular velocity returned by
    [built_next_desired_point] is the time derivative of the orientation
    it returns, on every component and at every simulation time.  (With a
    duration of zero the method raises at every time; [orientation_at] and
    [ang_vel_at] are then constantly zero.) *)
Theorem ang_vel_is_derivative_of_orientation (w : World) (ini fin : vec3)
  (T tb : R) :
  position_segment (self w) ini fin T tb ->
  orientation_ready (self w) ->
  forall (now : R) (k : nat),
    derivable_pt_lim (fun u => coord (orientation_at w u) k) now
      (coord (ang_vel_at w now) k).
Proof.
  intros Hp Ho now k.
  destruct (Req_dec T 0) as [-> | HT].
  { assert (Hnone : forall u, locals_at w u = None).
    { intros u. exact (locals_at_zero_duration w ini fin tb u Hp). }
    unfold orientation_at, ang_vel_at.
    rewrite (Hnone now), coord_zero.
    apply (derivable_pt_lim_ext (fun _ => 0));
      [intros u; rewrite (Hnone u), coord_zero; reflexivity
      |apply derivable_pt_lim_const]. }
  destruct Ho as [(R1 & R2 & Hr) | (f & i & He)].
  - destruct (rotation_law_scaled R1 R2 T) as (m & d & Hlaw).
    assert (Ho : forall u,
               orientation_at w u
               = v3_scale (quintic m 0 T (u - tb) - m) d).
    { intros u. unfold orientation_at.
      rewrite (locals_at_rotation w ini fin T tb R1 R2 u Hp Hr HT).
      cbn [orientation]. rewrite Hlaw. reflexivity. }
    assert (Ha : ang_vel_at w now
                 = v3_scale (quintic_vel m 0 T (now - tb)) d).
    { unfold ang_vel_at.
      rewrite (locals_at_rotation w ini fin T tb R1 R2 now Hp Hr HT).
      cbn [ang_vel]. rewrite Hlaw. reflexivity. }
    rewrite Ha, coord_scale.
    apply (derivable_pt_lim_ext
             (fun u => (quintic m 0 T (u - tb) - m) * coord d k)).
    + intros u. rewrite Ho, coord_scale. reflexivity.
    + apply scaled_quintic_derivative.
  - assert (Ho : forall u,
               orientation_at w u
               = v3_zip (fun a b => quintic a b T (u - tb)) f i).
    { intros u. unfold orientation_at.
      rewrite (locals_at_euler w ini fin T tb f i u Hp He HT).
      reflexivity. }
    assert (Ha : ang_vel_at w now
                 = v3_zip (fun a b => quintic_vel a b T (now - tb)) f i).
    { unfold ang_vel_at.
      rewrite (locals_at_euler w ini fin T tb f i now Hp He HT).
      reflexivity. }
    rewrite Ha, coord_zip.
    apply (derivable_pt_lim_ext
             (fun u => quintic (coord f k) (coord i k) T (u - tb))).
    + intros u. rewrite Ho, coord_zip. reflexivity.
    + apply (shifted_derivative (quintic (coord f k) (coord i k) T)).
      apply quintic_derivative.
Qed.

(** X3.  At the middle of a segment the position is the mean of the two
    end points, the acceleration is zero and the velocity is
    [15/8 (final - initial) / T]; at no time within the segment is the
    speed on an axis larger than at the middle. *)
Theorem midpoint_and_peak_velocity (w : World) (ini fin : vec3) (T tb : R) :
  position_segment (self w) ini fin T tb ->
  orientation_ready (self w) ->
  0 < T ->
  forall k : nat,
    coord (position_at w (tb + T / 2)) k = (coord ini k + coord fin k) / 2 /\
    coord (velocity_at w (tb + T / 2)) k
    = 15 / 8 * (coord fin k - coord ini k) / T /\
    coord (acceleration_at w (tb + T / 2)) k = 0 /\
    forall now, tb <= now <= tb + T ->
      Rabs (coord (velocity_at w now) k)
      <= Rabs (coord (velocity_at w (tb + T / 2)) k).
Proof.
  intros Hp Ho HT k.
  assert (HT0 : T <> 0) by lra.
  destruct (position_laws_at w ini fin T tb (tb + T / 2) Hp Ho HT0)
    as (Ex & Ev & Ea).
  rewrite Ex, Ev, Ea, !coord_zip.
  replace (tb + T / 2 - tb) with (T / 2) by ring.
  destruct (quintic_midpoint (coord fin k) (coord ini k) T HT0)
    as (Mx & Mv & Ma).
  rewrite Mx, Mv, Ma. repeat split.
  intros now Hnow.
  destruct (position_laws_at w ini fin T tb now Hp Ho HT0) as (_ & Ev' & _).
  rewrite Ev', coord_zip.
  replace (Rabs (15 / 8 * (coord fin k - coord ini k) / T))
    with (15 / 8 * Rabs (coord fin k - coord ini k) / T).
  - apply quintic_vel_peak; [exact HT | lra].
  - assert (HK : 0 <= 15 / 8 / T).
    { apply Rlt_le. apply Rdiv_lt_0_compat; lra. }
    replace (15 / 8 * (coord fin k - coord ini k) / T)
      with (15 / 8 / T * (coord fin k - coord ini k)) by (field; exact HT0).
    rewrite Rabs_mult, (Rabs_pos_eq _ HK). field. exact HT0.
Qed.

(** X4.  Within a segment the position on every axis stays between the
    initial and the final value, and at every time, before, within or after
    the segment, the velocity never points away from the target. *)
Theorem position_stays_between_end_points (w : World) (ini fin : vec3)
  (T tb : R) :
  position_segment (self w) ini fin T tb ->
  orientation_ready (self w) ->
  0 < T ->
  forall (now : R) (k : nat),
    (tb <= now <= tb + T ->
     Rmin (coord ini k) (coord fin k) <= coord (position_at w now) k
     <= Rmax (coord ini k) (coord fin k)) /\
    0 <= (coord fin k - coord ini k) * coord (velocity_at w now) k.
Proof.
  intros Hp Ho HT now k.
  assert (HT0 : T <> 0) by lra.
  destruct (position_laws_at w ini fin T tb now Hp Ho HT0) as (Ex & Ev & _).
  rewrite Ex, Ev, !coord_zip. split.
  - intros Hnow. apply quintic_between; [exact HT | lra].
  - apply quintic_vel_forward. exact HT.
Qed.

End OrientationInTime.

Lemma demo_position_segment (m : string) (now : R) :
  position_segment (self (demo_segment_world m now))
    (0, 0, 0) (1, 0, 0) 2 0.
Proof. repeat split. Qed.

Lemma demo_rotation_ready (now : R) :
  orientation_ready (self (demo_segment_world "rotation" now)).
Proof. left. exists identity3, quarter_turn. repeat split. Qed.

Lemma demo_euler_ready (now : R) :
  orientation_ready (self (demo_segment_world "euler" now)).
Proof. right. exists (0, 0, 1), (0, 0, 0). repeat split. Qed.

Lemma ang_vel_is_derivative_of_orientation_witness :
  derivable_pt_lim
    (fun u => coord (orientation_at (TU := demo_transform_utils)
                       (demo_segment_world "rotation" 0) u) 0) 1
    (coord (ang_vel_at (TU := demo_transform_utils)
              (demo_segment_world "rotation" 0) 1) 0).
Proof.
  exact (ang_vel_is_derivative_of_orientation (TU := demo_transform_utils)
           (demo_segment_world "rotation" 0) (0, 0, 0) (1, 0, 0) 2 0
           (demo_position_segment "rotation" 0) (demo_rotation_ready 0)
           1 0%nat).
Defined.

Lemma midpoint_and_peak_velocity_witness :
  coord (position_at (TU := demo_transform_utils)
           (demo_segment_world "euler" 0) (0 + 2 / 2)) 0
  = (coord (0, 0, 0) 0 + coord (1, 0, 0) 0) / 2.
Proof.
  exact (proj1 (midpoint_and_peak_velocity (TU := demo_transform_utils)
                  (demo_segment_world "euler" 0) (0, 0, 0) (1, 0, 0) 2 0
                  (demo_position_segment "euler" 0) (demo_euler_ready 0)
                  ltac:(lra) 0%nat)).
Defined.

Lemma position_stays_between_end_points_witness :
  0 <= (coord (1, 0, 0) 0 - coord (0, 0, 0) 0)
       * coord (velocity_at (TU := demo_transform_utils)
                  (demo_segment_world "euler" 0) 3) 0.
Proof.
  exact (proj2 (position_stays_between_end_points
                  (TU := demo_transform_utils)
                  (demo_segment_world "euler" 0) (0, 0, 0) (1, 0, 0) 2 0
                  (demo_position_segment "euler" 0) (demo_euler_ready 0)
                  ltac:(lra) 3 0%nat)).
Defined.

(** ** Building a segment and evaluating it *)

Lemma zip_quintic_start (fin ini : vec3) (T : R) :
  v3_zip (fun f i => quintic f i T 0) fin ini = ini /\
  v3_zip (fun f i => quintic_vel f i T 0) fin ini = v3_zero.
Proof.
  destruct fin as [[a b] c], ini as [[x y] z]. cbn [v3_zip].
  rewrite !quintic_start, !quintic_vel_start. split; reflexivity.
Qed.

Lemma zip_quintic_end (fin ini : vec3) (T : R) :
  T <> 0 ->
  v3_zip (fun f i => quintic f i T T) fin ini = fin /\
  v3_zip (fun f i => quintic_vel f i T T) fin ini = v3_zero.
Proof.
  intros HT. destruct fin as [[a b] c], ini as [[x y] z]. cbn [v3_zip].
  rewrite !quintic_end, !quintic_vel_end by exact HT. split; reflexivity.
Qed.

Section BuiltSegments.
Context `{MJ : MuJoCo} `{TU : TransformUtils}.

(** The attributes left by [built_min_jerk_traj] make the segment ready for
    [built_next_desired_point] when the method is one of the two known. *)
Lemma built_segment_ready (c : Controller) (T tb : R) (pf : vec3) (o : mat3)
  (pos_in : vec3) (xm : vec9) (m : string) (ini : vec3) :
  method c = Some m ->
  m = "rotation"%string \/ m = "euler"%string ->
  let c' := set_traj (segment_attributes c T tb pf o pos_in xm m ini) c in
  position_segment c' pos_in pf T tb /\
  orientation_ready c' /\
  (m = "euler"%string ->
   euler_segment c' (mat2euler (m3_map np_round o)) ini).
Proof.
  intros Hm Hcase c'. split; [|split].
  - destruct pos_in as [[x y] z], pf as [[a b] d]. repeat split.
  - destruct Hcase as [-> | ->].
    + left. exists (reshape_3_3 xm), (m3_map np_round o).
      repeat split. exact Hm.
    + right. exists (mat2euler (m3_map np_round o)), ini.
      repeat split. exact Hm.
  - intros ->. repeat split. exact Hm.
Qed.

(** X5.  Building a non-chained segment and then evaluating it: the call
    accepts every duration and touches neither the history, the cached
    robot state, the cache flag nor the simulator arrays.  For a duration
    different from zero the trajectory then starts at the end-effector
    position read from the simulator with zero velocity and reaches the
    via-point position at [t_bias + t_final] with zero velocity; for a
    duration of zero every later evaluation raises [ZeroDivisionError]. *)
Theorem build_then_evaluate (w : World) (T tb : R) (via : via_dict)
  (pf : vec3) (o : mat3) (xp : vec3) (xm : vec9) (m : string) :
  via_entries via (switch (self w)) pf o ->
  backend_site w xp xm ->
  method (self w) = Some m ->
  m = "rotation"%string \/ m = "euler"%string ->
  switch (self w) <> 1%Z ->
  exists w2,
    built_min_jerk_traj T tb via w = Ok (tt, w2) /\
    desired_vec_fin (self w2) = desired_vec_fin (self w) /\
    robot (self w2) = robot (self w) /\
    new_update (self w2) = new_update (self w) /\
    data (sim w2) = data (sim w) /\
    (T <> 0 ->
     position_at w2 tb = xp /\
     velocity_at w2 tb = v3_zero /\
     position_at w2 (tb + T) = pf /\
     velocity_at w2 (tb + T) = v3_zero) /\
    (T = 0 ->
     forall now,
       built_next_desired_point (at_time w2 now) = Raise ZeroDivisionError).
Proof.
  intros Hv Hb Hm Hcase Hsw.
  set (w2 := {| self := set_traj
                          (segment_attributes (self w) T tb pf o xp xm m
                             (mat2euler (reshape_3_3 xm))) (self w);
                sim := after_site_reads (sim w) |}).
  exists w2. split.
  { exact (min_jerk_fresh w T tb via pf o xp xm m Hv Hb Hm Hsw). }
  repeat (split; [reflexivity|]).
  destruct (built_segment_ready (self w) T tb pf o xp xm m
              (mat2euler (reshape_3_3 xm)) Hm Hcase) as (Hp & Ho & _).
  split.
  - intros HT.
    destruct (position_laws_at w2 xp pf T tb tb Hp Ho HT) as (Ex & Ev & _).
    destruct (position_laws_at w2 xp pf T tb (tb + T) Hp Ho HT)
      as (Ex' & Ev' & _).
    rewrite Ex, Ev, Ex', Ev'.
    replace (tb - tb) with 0 by ring.
    replace (tb + T - tb) with T by ring.
    destruct (zip_quintic_start pf xp T) as [S1 S2].
    destruct (zip_quintic_end pf xp T HT) as [E1 E2].
    repeat split; assumption.
  - intros HT now. subst T.
    apply next_point_raises.
    exact (locals_zero_duration (at_time w2 now) xp pf tb Hp).
Qed.

End BuiltSegments.

Section Handoff.
Context `{MJ : MuJoCo} `{TU : TransformUtils}.

Lemma ready_method (c : Controller) (m : string) :
  orientation_ready c -> method c = Some m ->
  m = "rotation"%string \/ m = "euler"%string.
Proof.
  intros [(R1 & R2 & Hr & _) | (f & i & He & _)] Hm.
  - left. congruence.
  - right. congruence.
Qed.

(** X6.  Evaluating a point of a segment and then building the next
    segment in the chained state ([switch] = 1), both durations being
    different from zero: the new segment starts, at its own [t_bias], at
    the X and Y of the point just returned and at the Z the simulator
    reports, with zero velocity; with the [euler] method its orientation
    starts at the orientation just returned. *)
Theorem chained_handoff (w : World) (ini fin : vec3) (T tb T' tb' : R)
  (via : via_dict) (pf : vec3) (o : mat3) (xp : vec3) (xm : vec9)
  (m : string) :
  position_segment (self w) ini fin T tb ->
  orientation_ready (self w) ->
  method (self w) = Some m ->
  switch (self w) = 1%Z ->
  via_entries via 1%Z pf o ->
  backend_site w xp xm ->
  T <> 0 ->
  T' <> 0 ->
  exists pt w1 w2,
    built_next_desired_point w = Ok (pt, w1) /\
    built_min_jerk_traj T' tb' via w1 = Ok (tt, w2) /\
    coord (position_at w2 tb') 0 = coord (point_position pt) 0 /\
    coord (position_at w2 tb') 1 = coord (point_position pt) 1 /\
    coord (position_at w2 tb') 2 = coord xp 2 /\
    velocity_at w2 tb' = v3_zero /\
    (m = "euler"%string -> orientation_at w2 tb' = point_orientation pt).
Proof.
  intros Hp Ho Hm Hsw Hv Hb HT HT'.
  pose proof (ready_method (self w) m Ho Hm) as Hcase.
  destruct (locals_ready w ini fin T tb Hp Ho HT) as (oo & aa & Hrun).
  cbv zeta in Hrun.
  pose proof (next_point_of_locals _ _ _ Hrun) as Hnext.
  cbv zeta in Hnext.
  match type of Hnext with
  | _ = Ok (?p, ?w1') => set (pt := p) in *; set (w1 := w1') in *
  end.
  assert (Hv1 : via_entries via (switch (self w1)) pf o).
  { unfold w1. cbn [self switch set_desired_vec_fin after_read].
    rewrite Hsw. exact Hv. }
  assert (Hb1 : backend_site w1 xp xm) by exact Hb.
  assert (Hm1 : method (self w1) = Some m) by exact Hm.
  assert (Hsw1 : switch (self w1) = 1%Z) by exact Hsw.
  assert (Hh1 : desired_vec_fin (self w1)
                = desired_vec_fin (self w) ++ [pt]) by reflexivity.
  pose proof (min_jerk_chained w1 T' tb' via pf o xp xm m
                (desired_vec_fin (self w)) pt Hv1 Hb1 Hm1 Hsw1 Hh1)
    as Hbuild.
  match type of Hbuild with
  | _ = Ok (tt, ?w2') => set (w2 := w2') in *
  end.
  exists pt, w1, w2. split; [exact Hnext|]. split; [exact Hbuild|].
  destruct (built_segment_ready (self w1) T' tb' pf o
              (assign_first_two xp (point_position pt)) xm m
              (point_orientation pt) Hm1 Hcase) as (Hp2 & Ho2 & He2).
  destruct (position_laws_at w2 _ pf T' tb' tb' Hp2 Ho2 HT')
    as (Ex & Ev & _).
  replace (tb' - tb') with 0 in Ex, Ev by ring.
  rewrite (proj1 (zip_quintic_start _ _ _)) in Ex.
  rewrite (proj2 (zip_quintic_start _ _ _)) in Ev.
  rewrite Ex, Ev.
  destruct xp as [[x0 y0] z0].
  destruct (point_position pt) as [[lx ly] lz].
  cbn [assign_first_two coord].
  repeat (split; [reflexivity|]).
  intros He. unfold orientation_at.
  rewrite (locals_at_euler w2 _ pf T' tb' _ _ tb' Hp2 (He2 He) HT').
  cbn [orientation euler_law fst].
  replace (tb' - tb') with 0 by ring.
  apply zip_quintic_start.
Qed.

(** X7.  [built_next_desired_point] raises [AttributeError] when no segment
    has been built; [ZeroDivisionError] when the segment has a duration of
    zero, whatever [self.method] is, even unassigned; and, for a duration
    different from zero, [UnboundLocalError] when [self.method] is neither
    ['rotation'] nor ['euler']: the two orientation branches are
    independent tests with no fallback. *)
Theorem next_point_errors (w : World) :
  (t_bias (traj (self w)) = None ->
   built_next_desired_point w = Raise AttributeError) /\
  (forall ini fin tb,
     position_segment (self w) ini fin 0 tb ->
     built_next_desired_point w = Raise ZeroDivisionError) /\
  (forall ini fin T tb m,
     position_segment (self w) ini fin T tb ->
     T <> 0 ->
     method (self w) = Some m ->
     m <> "rotation"%string -> m <> "euler"%string ->
     built_next_desired_point w = Raise UnboundLocalError).
Proof.
  split; [|split].
  - intros Hn.
    unfold built_next_desired_point, desired_point_locals, bind, get_self,
      sim_read, lift.
    cbn [self sim]. rewrite Hn. reflexivity.
  - intros ini fin tb Hp.
    apply next_point_raises.
    exact (locals_zero_duration w ini fin tb Hp).
  - intros [[xi yi] zi] [[xf yf] zf] T tb m
      (H1 & H2 & H3 & H4 & H5 & H6 & H7 & H8) HT Hm Hr He.
    apply String.eqb_neq in Hr. apply String.eqb_neq in He.
    unfold built_next_desired_point, desired_point_locals, bind, get_self,
      sim_read, lift, ret, raise.
    cbn [fst snd self sim] in *.
    rewrite H8, H4, H1, H7. cbn [has_attr].
    rewrite (divisor_nonzero T HT).
    rewrite H5, H2, H6, H3, Hm. cbn [has_attr].
    rewrite Hr, He. reflexivity.
Qed.

(** X8.  [built_min_jerk_traj] raises [KeyError] when the via-point
    dictionary has no position for the current [switch], [IndexError] in the
    chained state with an empty history, and [AttributeError] when
    [self.method] has never been assigned, as on a controller that only ran
    the base-class constructor. *)
Theorem build_segment_errors (w : World) (T tb : R) (via : via_dict) :
  (dict_get via ("p" ++ py_str (switch (self w))) = Raise KeyError ->
   built_min_jerk_traj T tb via w = Raise KeyError) /\
  (forall pf o xp xm,
     via_entries via (switch (self w)) pf o ->
     backend_site w xp xm ->
     switch (self w) = 1%Z ->
     desired_vec_fin (self w) = [] ->
     built_min_jerk_traj T tb via w = Raise IndexError) /\
  (forall pf o xp xm,
     via_entries via (switch (self w)) pf o ->
     backend_site w xp xm ->
     switch (self w) <> 1%Z ->
     method (self w) = None ->
     built_min_jerk_traj T tb via w = Raise AttributeError).
Proof.
  split; [|split].
  - intros Hk. unfold built_min_jerk_traj, bind, get_self, lift.
    rewrite Hk. reflexivity.
  - intros pf o xp xm Hv Hb Hsw Hh.
    exact (min_jerk_chained_empty w T tb via pf o xp xm Hv Hb Hsw Hh).
  - intros pf o xp xm (Hp & Ho) (id & Hid & Hxp & Hxm) Hsw Hm.
    apply py_index_nth in Hxp. apply py_index_nth in Hxm.
    apply Z.eqb_neq in Hsw.
    unfold built_min_jerk_traj, bind, get_self, sim_read, lift, ret,
      site_name2id, modify_self.
    rewrite Hp, Ho. cbn [rbind as_pos as_ori self sim model data log_call].
    rewrite Hid. cbn [self sim model data log_call].
    rewrite Hxp, Hsw. cbn [self sim model data log_call].
    rewrite Hid. cbn [self sim model data log_call].
    rewrite Hxm, Hm. reflexivity.
Qed.

End Handoff.

Lemma build_then_evaluate_witness :
  exists w2,
    built_min_jerk_traj (TU := demo_transform_utils) 2 5 demo_via
      {| self := set_method "euler" (demo_controller [-1] [1] [-2] [2]);
         sim := demo_sim 0 |} = Ok (tt, w2) /\
    position_at (TU := demo_transform_utils) w2 5 = (1, 2, 3) /\
    position_at (TU := demo_transform_utils) w2 (5 + 2) = (1, 0, 0).
Proof.
  destruct (build_then_evaluate (TU := demo_transform_utils)
              {| self := set_method "euler" (demo_controller [-1] [1] [-2] [2]);
                 sim := demo_sim 0 |}
              2 5 demo_via (1, 0, 0) quarter_turn (1, 2, 3)
              (1, 0, 0, 0, 1, 0, 0, 0, 1) "euler")
    as (w2 & Hrun & _ & _ & _ & _ & Hmove & _).
  - split; reflexivity.
  - exists 0%nat. repeat split.
  - reflexivity.
  - right. reflexivity.
  - discriminate.
  - destruct (Hmove ltac:(lra)) as (Hstart & _ & Hend & _).
    exists w2. split; [exact Hrun|]. split; [exact Hstart | exact Hend].
Defined.

Lemma chained_handoff_witness :
  exists pt w1 w2,
    built_next_desired_point (TU := demo_transform_utils)
      {| self := set_switch 1 (self (demo_segment_world "euler" 1));
         sim := demo_sim 1 |} = Ok (pt, w1) /\
    built_min_jerk_traj (TU := demo_transform_utils) 3 1 demo_via w1
    = Ok (tt, w2) /\
    coord (position_at (TU := demo_transform_utils) w2 1) 0
    = coord (point_position pt) 0 /\
    orientation_at (TU := demo_transform_utils) w2 1 = point_orientation pt.
Proof.
  destruct (chained_handoff (TU := demo_transform_utils)
              {| self := set_switch 1 (self (demo_segment_world "euler" 1));
                 sim := demo_sim 1 |}
              (0, 0, 0) (1, 0, 0) 2 0 3 1 demo_via
              (2, 1, 0) ((1 / 2, 0, 0), (0, 1, 0), (0, 0, 1))
              (1, 2, 3) (1, 0, 0, 0, 1, 0, 0, 0, 1) "euler")
    as (pt & w1 & w2 & Hnext & Hbuild & Hx & _ & _ & _ & Ho).
  - repeat split.
  - right. exists (0, 0, 1), (0, 0, 0). repeat split.
  - reflexivity.
  - reflexivity.
  - split; reflexivity.
  - exists 0%nat. repeat split.
  - lra.
  - lra.
  - exists pt, w1, w2. repeat split; try assumption.
    exact (Ho eq_refl).
Defined.

Lemma next_point_errors_witness :
  built_next_desired_point (TU := demo_transform_utils)
    (demo_world [-1] [1] [-2] [2] 0) = Raise AttributeError /\
  built_next_desired_point (TU := demo_transform_utils)
    demo_instant_world = Raise ZeroDivisionError /\
  built_next_desired_point (TU := demo_transform_utils)
    (demo_segment_world "spline" 1) = Raise UnboundLocalError.
Proof.
  split; [|split].
  - exact (proj1 (next_point_errors (TU := demo_transform_utils)
                    (demo_world [-1] [1] [-2] [2] 0)) eq_refl).
  - apply (proj1 (proj2 (next_point_errors (TU := demo_transform_utils)
                           demo_instant_world))
             (0, 0, 0) (1, 0, 0) 0).
    repeat split.
  - apply (proj2 (proj2 (next_point_errors (TU := demo_transform_utils)
                           (demo_segment_world "spline" 1)))
             (0, 0, 0) (1, 0, 0) 2 0 "spline"%string).
    + repeat split.
    + lra.
    + reflexivity.
    + discriminate.
    + discriminate.
Defined.

Lemma build_segment_errors_witness :
  built_min_jerk_traj (TU := demo_transform_utils)
    2 0 [] (demo_world [-1] [1] [-2] [2] 0) = Raise KeyError /\
  built_min_jerk_traj (TU := demo_transform_utils)
    2 0 demo_via (demo_world [-1] [1] [-2] [2] 0) = Raise AttributeError.
Proof.
  split.
  - exact (proj1 (build_segment_errors (TU := demo_transform_utils)
                    (demo_world [-1] [1] [-2] [2] 0) 2 0 []) eq_refl).
  - apply (proj2 (proj2 (build_segment_errors (TU := demo_transform_utils)
                           (demo_world [-1] [1] [-2] [2] 0) 2 0 demo_via))
             (1, 0, 0) quarter_turn (1, 2, 3) (1, 0, 0, 0, 1, 0, 0, 0, 1)).
    + split; reflexivity.
    + exists 0%nat. repeat split.
    + discriminate.
    + reflexivity.
Defined.

(** ** More on the action map and the torque clip *)

Lemma broadcast_mismatch (f : R -> R -> R) (a b : ndarray) :
  length a <> length b -> length a <> 1%nat -> length b <> 1%nat ->
  broadcast f a b = Raise ValueError.
Proof.
  intros Hne Ha Hb. unfold broadcast.
  destruct a as [| x [| x' a]]; destruct b as [| y [| y' b]];
    cbn [length] in *; try congruence;
    try (destruct (Nat.eqb_spec (S (S (length a))) 0); [lia | reflexivity]);
    try (destruct (Nat.eqb_spec 0 (S (S (length b)))); [lia | reflexivity]).
  destruct (Nat.eqb_spec (S (S (length a))) (S (S (length b))));
    [lia | reflexivity].
Qed.

Lemma clip1_reversed (a lo hi : R) : hi <= lo -> clip1 a lo hi = hi.
Proof.
  intros H. unfold clip1. apply Rmin_left.
  apply Rle_trans with lo; [exact H | apply Rmax_r].
Qed.

Lemma scale1_within (imin imax omin omax a : R) :
  imin < imax -> omin <= omax ->
  omin <= scale1 imin imax omin omax a <= omax.
Proof.
  intros Hi Ho.
  pose proof (clip1_bounds a imin imax ltac:(lra)) as [Hlo Hhi].
  assert (E1 : scale1 imin imax omin omax imin = omin).
  { rewrite (scale1_lower imin imax omin omax imin Hi (Rle_refl imin)).
    apply Rmin_left. exact Ho. }
  assert (E2 : scale1 imin imax omin omax imax = omax).
  { rewrite (scale1_upper imin imax omin omax imax Hi (Rle_refl imax)).
    apply Rmax_right. exact Ho. }
  rewrite <- scale1_of_clip. split.
  - rewrite <- E1 at 1. apply scale1_mono; assumption.
  - rewrite <- E2 at 2. apply scale1_mono; assumption.
Qed.

(** The transform with whatever scale and offsets are cached: the ranges
    currently stored only serve for the clip. *)
Lemma scale_action_uses_cache (w : World)
  (imin imax omin omax imin' imax' omin' omax' : ndarray)
  (n : nat) (a : ndarray) :
  has_ranges (self w) imin' imax' omin' omax' n ->
  scaling (self w) = expected_scaling imin imax omin omax ->
  length imin = n -> length imax = n -> length omin = n ->
  length omax = n -> length a = n ->
  scale_action a w
  = Ok (affine_list imin imax omin omax (clip_list a imin' imax'), w).
Proof.
  intros (Himin & Himax & Homin & Homax & L1 & L2 & L3 & L4) Hc
    K1 K2 K3 K4 La.
  unfold scale_action, bind, get_self, lift, ret,
    np_sub, np_mul, np_add.
  repeat (cbn [action_scale action_input_transform action_output_transform
               expected_scaling np_clip_opt not_None];
          first [ rewrite Hc | rewrite Himin | rewrite Himax
                | rewrite np_clip_same by congruence
                | rewrite broadcast_same by same_length ]).
  reflexivity.
Qed.

(** X9.  The scale and offsets are computed on the first call only: when
    the ranges are replaced afterwards, [scale_action] keeps transforming
    with the scale and offsets of the first ranges and uses the new input
    bounds for the clip alone; replacing the output bounds has no effect at
    all. *)
Theorem scale_action_cache_is_never_refreshed (w : World)
  (imin imax omin omax imin' imax' omin' omax' : ndarray) (n : nat)
  (p' : Props) (a b : ndarray) :
  has_ranges (self w) imin imax omin omax n ->
  scaling (self w) = no_scaling ->
  input_min p' = Some imin' -> input_max p' = Some imax' ->
  output_min p' = Some omin' -> output_max p' = Some omax' ->
  length imin' = n -> length imax' = n ->
  length omin' = n -> length omax' = n ->
  length a = n -> length b = n ->
  exists r w1,
    scale_action a w = Ok (r, w1) /\
    let w2 := {| self := set_props p' (self w1); sim := sim w1 |} in
    scale_action b w2
    = Ok (affine_list imin imax omin omax (clip_list b imin' imax'), w2).
Proof.
  intros Hr Hc Pi Pa Po Pb K1 K2 K3 K4 La Lb.
  eexists _, _. split.
  { exact (scale_action_first w imin imax omin omax n a Hr Hc La). }
  cbv zeta.
  destruct Hr as (_ & _ & _ & _ & L1 & L2 & L3 & L4).
  apply (scale_action_uses_cache _ imin imax omin omax
           imin' imax' omin' omax' n b); try assumption.
  - cbn [self props set_props]. repeat split; assumption.
  - reflexivity.
Qed.

(** X10.  For ranges with [input_min < input_max] and
    [output_min <= output_max] every action of the right length, in range
    or not, is mapped into [[output_min, output_max]]. *)
Theorem scale_action_stays_in_output_range (w : World)
  (imin imax omin omax : ndarray) (n : nat) (a : ndarray) :
  has_ranges (self w) imin imax omin omax n ->
  cache_consistent (self w) imin imax omin omax ->
  Forall2 Rlt imin imax ->
  Forall2 Rle omin omax ->
  length a = n ->
  exists r w',
    scale_action a w = Ok (r, w') /\
    Forall2 Rle omin r /\ Forall2 Rle r omax.
Proof.
  intros Hr Hc Hlt Hle La.
  pose proof Hr as (_ & _ & _ & _ & L1 & L2 & L3 & L4).
  eexists _, _. split.
  { exact (scale_action_run w imin imax omin omax n a Hr Hc La). }
  apply Forall2_nth_R in Hlt. destruct Hlt as [_ Hlt].
  apply Forall2_nth_R in Hle. destruct Hle as [_ Hle].
  pose proof (scaled_length imin imax omin omax n L1 L2 L3 L4 a La) as Ls.
  split; apply Forall2_nth_R; (split; [congruence|]); intros i Hi.
  - rewrite (scaled_nth imin imax omin omax n L1 L2 L3 L4 a i La)
      by congruence.
    apply scale1_within; [apply Hlt | apply Hle]; congruence.
  - rewrite Ls in Hi.
    rewrite (scaled_nth imin imax omin omax n L1 L2 L3 L4 a i La Hi).
    apply scale1_within; [apply Hlt | apply Hle]; congruence.
Qed.

(** X11.  [clip_torques] on torques of the actuators' length: with
    [actuator_min <= actuator_max] the result lies within the limits; where
    the limits are given in decreasing order the result is [actuator_max]
    whatever the torques; a torque vector of another length (neither being
    of length one) raises [ValueError]. *)
Theorem clip_torques_limits (w : World) (t : ndarray) :
  let amin := actuator_min (self w) in
  let amax := actuator_max (self w) in
  (length t = length amin -> Forall2 Rle amin amax ->
   exists r, clip_torques t w = Ok (r, w) /\
             Forall2 Rle amin r /\ Forall2 Rle r amax) /\
  (length t = length amin -> Forall2 Rle amax amin ->
   clip_torques t w = Ok (amax, w)) /\
  (length t <> length amin -> length t <> 1%nat -> length amin <> 1%nat ->
   clip_torques t w = Raise ValueError).
Proof.
  intros amin amax. split; [|split].
  - intros Lt Hle.
    pose proof (Forall2_length Hle) as Lm.
    exists (clip_list t amin amax). split.
    + apply clip_torques_run; fold amin amax; congruence.
    + apply clip_list_bounds; assumption.
  - intros Lt Hge.
    pose proof (Forall2_length Hge) as Lm.
    rewrite clip_torques_run by (fold amin amax; congruence).
    fold amin amax. f_equal. f_equal.
    apply Forall2_nth_R in Hge. destruct Hge as [_ Hge].
    apply list_eq_nth.
    + rewrite clip_list_length; congruence.
    + rewrite clip_list_length by congruence. intros i Hi.
      rewrite clip_list_nth by (congruence || exact Hi).
      apply clip1_reversed. apply Hge. congruence.
  - intros Hne H1 H2.
    unfold clip_torques, bind, get_self, lift, np_clip, np_maximum.
    fold amin. rewrite (broadcast_mismatch Rmax t amin Hne H1 H2).
    reflexivity.
Qed.

Lemma scale_action_cache_is_never_refreshed_witness :
  exists r w1,
    scale_action [1 / 2] (demo_world [-1] [1] [-2] [2] 0) = Ok (r, w1) /\
    scale_action [1 / 2]
      {| self := set_props {| control_dim := Some 1%Z;
                              output_min := Some [-5];
                              output_max := Some [5];
                              input_min := Some [-1];
                              input_max := Some [1] |} (self w1);
         sim := sim w1 |}
    = Ok (affine_list [-1] [1] [-2] [2] (clip_list [1 / 2] [-1] [1]),
          {| self := set_props {| control_dim := Some 1%Z;
                                  output_min := Some [-5];
                                  output_max := Some [5];
                                  input_min := Some [-1];
                                  input_max := Some [1] |} (self w1);
             sim := sim w1 |}).
Proof.
  apply (scale_action_cache_is_never_refreshed
           (demo_world [-1] [1] [-2] [2] 0)
           [-1] [1] [-2] [2] [-1] [1] [-5] [5] 1
           {| control_dim := Some 1%Z;
              output_min := Some [-5];
              output_max := Some [5];
              input_min := Some [-1];
              input_max := Some [1] |} [1 / 2] [1 / 2]);
    try reflexivity.
  repeat split.
Defined.

Lemma scale_action_stays_in_output_range_witness :
  exists r w',
    scale_action [7] (demo_world [-1] [1] [-2] [2] 0) = Ok (r, w') /\
    Forall2 Rle [-2] r /\ Forall2 Rle r [2].
Proof.
  apply (scale_action_stays_in_output_range
           (demo_world [-1] [1] [-2] [2] 0) [-1] [1] [-2] [2] 1 [7]).
  - repeat split.
  - left. reflexivity.
  - constructor; [lra | constructor].
  - constructor; [lra | constructor].
  - reflexivity.
Defined.

Lemma clip_torques_limits_witness :
  exists r,
    clip_torques [3; -20] (demo_world [-1] [1] [-2] [2] 0)
    = Ok (r, demo_world [-1] [1] [-2] [2] 0) /\
    Forall2 Rle [-10; -10] r /\ Forall2 Rle r [10; 10].
Proof.
  apply (proj1 (clip_torques_limits (demo_world [-1] [1] [-2] [2] 0)
                  [3; -20])).
  - reflexivity.
  - repeat (constructor; [lra|]). constructor.
Defined.

(** ** Shapes and values of indexed arrays *)

Lemma py_index_norm {A : Type} (l : list A) (i : Z) (x d : A) :
  py_index l i = Ok x ->
  (norm_index (length l) i < length l)%nat /\
  x = nth (norm_index (length l) i) l d.
Proof.
  unfold py_index, norm_index.
  set (j := if (i <? 0)%Z then (i + Z.of_nat (length l))%Z else i).
  destruct (Z.leb_spec 0 j) as [H0 |]; [|discriminate].
  destruct (Z.ltb_spec j (Z.of_nat (length l))) as [H1 |]; [|discriminate].
  cbn [andb].
  destruct (nth_error l (Z.to_nat j)) as [a |] eqn:E; [|discriminate].
  intros H. injection H as <-. split; [lia|].
  symmetry. apply nth_error_nth. exact E.
Qed.

Lemma py_take_nth {A : Type} (l : list A) (idx : list Z) (r : list A)
  (d : A) :
  py_take l idx = Ok r ->
  length r = length idx /\
  forall k, (k < length idx)%nat ->
    (norm_index (length l) (nth k idx 0%Z) < length l)%nat /\
    nth k r d = nth (norm_index (length l) (nth k idx 0%Z)) l d.
Proof.
  revert r. induction idx as [| i idx IH]; intros r; cbn [py_take].
  - intros H. injection H as <-. split; [reflexivity|].
    cbn [length]. intros k Hk. lia.
  - destruct (py_index l i) as [x |] eqn:Ei; [|discriminate].
    cbn [rbind].
    destruct (py_take l idx) as [r' |] eqn:Er; [|discriminate].
    cbn [rbind]. intros H. injection H as <-.
    destruct (IH r' eq_refl) as [Hl Hn].
    destruct (py_index_norm l i x d Ei) as [Hlt Hx].
    split; [cbn [length]; rewrite Hl; reflexivity|].
    intros [| k] Hk; cbn [nth].
    + split; [exact Hlt | exact Hx].
    + apply Hn. cbn [length] in Hk. lia.
Qed.

Lemma py_take_cols_shape (m : matrix) (idx : list Z) (r : matrix) :
  py_take_cols m idx = Ok r -> is_matrix (length m) (length idx) r.
Proof.
  revert r. induction m as [| row m IH]; intros r; cbn [py_take_cols].
  - intros H. injection H as <-. split; [reflexivity | constructor].
  - destruct (py_take row idx) as [x |] eqn:Ex; [|discriminate].
    cbn [rbind].
    destruct (py_take_cols m idx) as [r' |] eqn:Er; [|discriminate].
    cbn [rbind]. intros H. injection H as <-.
    destruct (IH r' eq_refl) as [Hl Hall].
    destruct (py_take_nth row idx x 0 Ex) as [Hx _].
    split; [cbn [length]; rewrite Hl; reflexivity|].
    constructor; assumption.
Qed.

Lemma py_take_cols_nth (m : matrix) (idx : list Z) (r : matrix)
  (a b : nat) :
  py_take_cols m idx = Ok r ->
  (a < length m)%nat -> (b < length idx)%nat ->
  nth b (nth a r []) 0
  = nth (norm_index (length (nth a m [])) (nth b idx 0%Z)) (nth a m []) 0.
Proof.
  revert r a. induction m as [| row m IH]; intros r a; cbn [py_take_cols].
  - cbn [length]. intros _ Ha. lia.
  - destruct (py_take row idx) as [x |] eqn:Ex; [|discriminate].
    cbn [rbind].
    destruct (py_take_cols m idx) as [r' |] eqn:Er; [|discriminate].
    cbn [rbind]. intros H Ha Hb. injection H as <-.
    destruct a as [| a]; cbn [nth].
    + destruct (py_take_nth row idx x 0 Ex) as [_ Hn].
      apply Hn. exact Hb.
    + apply IH; [reflexivity | cbn [length] in Ha; lia | exact Hb].
Qed.

Lemma is_matrix_app (r1 r2 cols : nat) (m1 m2 : matrix) :
  is_matrix r1 cols m1 -> is_matrix r2 cols m2 ->
  is_matrix (r1 + r2) cols (m1 ++ m2).
Proof.
  intros [L1 F1] [L2 F2]. split.
  - rewrite length_app. congruence.
  - apply Forall_app. split; assumption.
Qed.

Lemma chunks_nth (rows cols : nat) (a : list R) (i j : nat) :
  (i < rows)%nat -> (j < cols)%nat ->
  nth j (nth i (chunks rows cols a) []) 0 = nth (i * cols + j) a 0.
Proof.
  revert a i. induction rows as [| rows IH]; intros a i Hi Hj; [lia|].
  cbn [chunks]. destruct i as [| i]; cbn [nth].
  - rewrite nth_firstn.
    destruct (Nat.ltb_spec j cols) as [_ | Hge]; [|lia].
    reflexivity.
  - rewrite IH by lia. rewrite nth_skipn. f_equal. lia.
Qed.

Lemma chunks_is_matrix (rows cols : nat) (a : list R) :
  (rows * cols <= length a)%nat -> is_matrix rows cols (chunks rows cols a).
Proof.
  intros H. split; [apply chunks_length | apply chunks_rows; exact H].
Qed.

Lemma nth_of_matrix_row (rows cols : nat) (m : matrix) (i : nat) :
  is_matrix rows cols m -> (i < rows)%nat -> length (nth i m []) = cols.
Proof.
  intros [Hl Hall] Hi. rewrite Forall_forall in Hall.
  apply Hall. apply nth_In. lia.
Qed.

Lemma nth_error_exists {A : Type} (l : list A) (n : nat) :
  (n < length l)%nat -> exists x, nth_error l n = Some x.
Proof.
  intros H. destruct (nth_error l n) as [x |] eqn:E.
  - exists x. reflexivity.
  - apply nth_error_None in E. lia.
Qed.

Section RefreshedState.
Context `{MJ : MuJoCo}.

(** The values [update] assigns, in terms of the simulator arrays after
    [forward]. *)
Lemma query_robot_state_values (w : World) :
  backend_ready w ->
  let d := mj_forward (model (sim w)) (data (sim w)) in
  let nv := length (qvel d) in
  let idx := qvel_index (self w) in
  let buffer := map (mj_fullM (model (sim w)) (qM d)) (seq 0 (nv * nv)) in
  exists id xp xm xvp xvr jpos jvel jp jr Jp Jr rows mm rest,
    index_of (eef_name (self w)) (site_names (model (sim w))) = Some id /\
    nth_error (site_xpos d) id = Some xp /\
    nth_error (site_xmat d) id = Some xm /\
    nth_error (site_xvelp d) id = Some xvp /\
    nth_error (site_xvelr d) id = Some xvr /\
    py_take (qpos d) (qpos_index (self w)) = Ok jpos /\
    py_take (qvel d) idx = Ok jvel /\
    length jp = (3 * nv)%nat /\
    py_take_cols (chunks 3 nv jp) idx = Ok Jp /\
    length jr = (3 * nv)%nat /\
    py_take_cols (chunks 3 nv jr) idx = Ok Jr /\
    py_take (chunks nv nv buffer) idx = Ok rows /\
    py_take_cols rows idx = Ok mm /\
    query_robot_state w
    = Ok ({| ee_pos := Some xp;
             ee_ori_mat := Some (reshape_3_3 xm);
             ee_pos_vel := Some xvp;
             ee_ori_vel := Some xvr;
             joint_pos := Some jpos;
             joint_vel := Some jvel;
             J_pos := Some Jp;
             J_ori := Some Jr;
             J_full := Some (Jp ++ Jr);
             mass_matrix := Some mm |},
          {| self := self w;
             sim := {| model := model (sim w);
                       data := d;
                       calls := calls (sim w) ++ call_forward :: rest |} |}).
Proof.
  unfold backend_ready. cbv zeta.
  set (d := mj_forward (model (sim w)) (data (sim w))).
  set (nv := length (qvel d)).
  intros ((id & Hid & H1 & H2 & H3 & H4) & Hqp & Hqv
          & (jp & Hjp & Hjpl) & (jr & Hjr & Hjrl)).
  destruct (nth_error_exists _ _ H1) as (xp & Exp).
  destruct (nth_error_exists _ _ H2) as (xm & Exm).
  destruct (nth_error_exists _ _ H3) as (xvp & Exvp).
  destruct (nth_error_exists _ _ H4) as (xvr & Exvr).
  pose proof (py_index_nth _ _ _ Exp) as Hxp.
  pose proof (py_index_nth _ _ _ Exm) as Hxm.
  pose proof (py_index_nth _ _ _ Exvp) as Hxvp.
  pose proof (py_index_nth _ _ _ Exvr) as Hxvr.
  destruct (py_take_valid _ _ Hqp) as (jpos & Hjpos & _).
  destruct (py_take_valid _ _ Hqv) as (jvel & Hjvel & _).
  assert (Hrows : forall a, length a = (3 * nv)%nat ->
            exists r, py_take_cols (chunks 3 nv a) (qvel_index (self w))
                      = Ok r).
  { intros a Ha. apply py_take_cols_valid with (n := nv).
    - apply chunks_rows. lia.
    - exact Hqv. }
  destruct (Hrows jp Hjpl) as (Jp & HJp).
  destruct (Hrows jr Hjrl) as (Jr & HJr).
  set (buffer := map (mj_fullM (model (sim w)) (qM d)) (seq 0 (nv * nv))).
  assert (Hbuf : length buffer = (nv * nv)%nat).
  { unfold buffer. rewrite length_map, length_seq. reflexivity. }
  assert (Hqv' : valid_indices (qvel_index (self w))
                   (length (chunks nv nv buffer))).
  { rewrite chunks_length. exact Hqv. }
  destruct (py_take_valid _ _ Hqv') as (rows & Hrows' & Hin).
  assert (Hmm : exists mm, py_take_cols rows (qvel_index (self w)) = Ok mm).
  { apply py_take_cols_valid with (n := nv); [|exact Hqv].
    pose proof (chunks_rows nv nv buffer ltac:(lia)) as Hall.
    rewrite Forall_forall in Hall, Hin |- *.
    intros row Hrow. apply Hall. apply Hin. exact Hrow. }
  destruct Hmm as (mm & Hmm).
  exists id, xp, xm, xvp, xvr, jpos, jvel, jp, jr, Jp, Jr, rows, mm.
  eexists.
  repeat (split; [assumption|]).
  unfold query_robot_state, bind, get_self, sim_forward, sim_read,
    site_name2id, lift, sim_fullM, ret.
  cbn [self sim model data calls log_call]. fold d.
  pose proof (reshape_3_rows_ok jp nv Hjpl) as Hrp.
  pose proof (reshape_3_rows_ok jr nv Hjrl) as Hrr.
  pose proof (np_reshape_ok nv nv buffer Hbuf) as Hrm.
  unfold buffer, nv in *.
  repeat (cbn [self sim model data calls log_call];
          first [ rewrite Hid | rewrite Hxp | rewrite Hxm | rewrite Hxvp
                | rewrite Hxvr | rewrite Hjpos | rewrite Hjvel
                | rewrite Hjp | rewrite Hrp | rewrite HJp
                | rewrite Hjr | rewrite Hrr | rewrite HJr
                | rewrite Hrm | rewrite Hrows' | rewrite Hmm ]).
  cbn [self sim model data calls log_call].
  cbv [log_call model data calls].
  rewrite <- !app_assoc. cbn [app].
  reflexivity.
Qed.

End RefreshedState.

Lemma nth_map_seq (f : nat -> R) (n k : nat) :
  (k < n)%nat -> nth k (map f (seq 0 n)) 0 = f k.
Proof.
  intros Hk.
  rewrite (nth_indep _ 0 (f 0%nat)) by (rewrite length_map, length_seq; lia).
  rewrite map_nth, seq_nth by exact Hk. reflexivity.
Qed.

(** Entry [(a, b)] of [full[idx, :][:, idx]] for a square matrix stored row
    by row in [buffer]. *)
Lemma submatrix_entry (nv : nat) (buffer : list R) (idx : list Z)
  (rows mm : matrix) (a b : nat) :
  length buffer = (nv * nv)%nat ->
  py_take (chunks nv nv buffer) idx = Ok rows ->
  py_take_cols rows idx = Ok mm ->
  (a < length idx)%nat -> (b < length idx)%nat ->
  (norm_index nv (nth a idx 0%Z) < nv)%nat /\
  (norm_index nv (nth b idx 0%Z) < nv)%nat /\
  nth b (nth a mm []) 0
  = nth (norm_index nv (nth a idx 0%Z) * nv + norm_index nv (nth b idx 0%Z))
      buffer 0.
Proof.
  intros Hbuf Hrows Hmm Ha Hb.
  destruct (py_take_nth _ _ _ [] Hrows) as [Lrows Hrow].
  rewrite chunks_length in Hrow.
  destruct (Hrow a Ha) as [Hia Ea].
  destruct (Hrow b Hb) as [Hib _].
  assert (Lrow : length (nth a rows []) = nv).
  { rewrite Ea.
    apply (nth_of_matrix_row nv nv); [|exact Hia].
    apply chunks_is_matrix. lia. }
  split; [exact Hia|]. split; [exact Hib|].
  rewrite (py_take_cols_nth rows idx mm a b Hmm) by (congruence || exact Hb).
  rewrite Lrow, Ea.
  apply chunks_nth; assumption.
Qed.

Section UpdateResults.
Context `{MJ : MuJoCo}.

Lemma update_clean (w : World) :
  new_update (self w) = false -> update false w = Ok (tt, w).
Proof.
  intros H. unfold update, bind, get_self. rewrite H.
  destruct w; reflexivity.
Qed.

Lemma update_clears (w w' : World) (force : bool) :
  update force w = Ok (tt, w') -> new_update (self w') = false.
Proof.
  unfold update, bind, get_self.
  destruct (new_update (self w) || force)%bool eqn:Hflag.
  - destruct (query_robot_state w) as [[r w1] | e]; [|discriminate].
    unfold modify_self. intros H. injection H as <-. reflexivity.
  - unfold ret. intros H. injection H as <-.
    apply orb_false_elim in Hflag. exact (proj1 Hflag).
Qed.

Lemma update_of_query (w w1 : World) (force : bool) (r : RobotState) :
  (new_update (self w) || force)%bool = true ->
  query_robot_state w = Ok (r, w1) ->
  update force w
  = Ok (tt, {| self := set_new_update false (set_robot r (self w1));
               sim := sim w1 |}).
Proof.
  intros Hflag Hq. unfold update, bind, get_self.
  rewrite Hflag, Hq. reflexivity.
Qed.

(** X12.  When [update] recomputes on a well-shaped simulator it sets every
    cached attribute and nothing else but the flag: the end-effector pose
    and velocities are those of the named site after [forward], the joint
    arrays have one entry per index, both Jacobians are 3 x n, the stacked
    Jacobian is 6 x n and the mass matrix is n x n, with n the number of
    velocity indices. *)
Theorem update_populates_the_cache (w : World) (force : bool) :
  backend_ready w ->
  (new_update (self w) || force)%bool = true ->
  let d := mj_forward (model (sim w)) (data (sim w)) in
  exists w' id,
    update force w = Ok (tt, w') /\
    self w' = set_new_update false (set_robot (robot (self w')) (self w)) /\
    populated (self w) (robot (self w')) /\
    index_of (eef_name (self w)) (site_names (model (sim w))) = Some id /\
    ee_pos (robot (self w')) = nth_error (site_xpos d) id /\
    ee_ori_mat (robot (self w'))
    = option_map reshape_3_3 (nth_error (site_xmat d) id) /\
    ee_pos_vel (robot (self w')) = nth_error (site_xvelp d) id /\
    ee_ori_vel (robot (self w')) = nth_error (site_xvelr d) id.
Proof.
  intros Hready Hflag d.
  destruct (query_robot_state_values w Hready)
    as (id & xp & xm & xvp & xvr & jpos & jvel & jp & jr & Jp & Jr & rows
        & mm & rest & Hid & Exp & Exm & Exvp & Exvr & Hjpos & Hjvel
        & Ljp & HJp & Ljr & HJr & Hrows & Hmm & Hq).
  fold d in Exp, Exm, Exvp, Exvr, Hjpos, Hjvel, Ljp, HJp, Ljr, HJr, Hrows,
    Hmm, Hq.
  eexists _, id. split.
  { exact (update_of_query w _ force _ Hflag Hq). }
  cbn [self sim robot set_new_update set_robot ee_pos ee_ori_mat
       ee_pos_vel ee_ori_vel].
  split; [reflexivity|].
  split.
  { destruct (py_take_nth _ _ _ 0 Hjpos) as [Ljpos _].
    destruct (py_take_nth _ _ _ 0 Hjvel) as [Ljvel _].
    destruct (py_take_nth _ _ _ [] Hrows) as [Lrows _].
    pose proof (py_take_cols_shape _ _ _ HJp) as SJp.
    pose proof (py_take_cols_shape _ _ _ HJr) as SJr.
    pose proof (py_take_cols_shape _ _ _ Hmm) as Smm.
    rewrite chunks_length in SJp, SJr. rewrite Lrows in Smm.
    unfold populated. cbv zeta.
    exists xp, (reshape_3_3 xm), xvp, xvr, jpos, jvel, Jp, Jr, mm.
    split; [reflexivity|].
    repeat (split; [assumption|]).
    split; [|exact Smm].
    exact (is_matrix_app 3 3 _ Jp Jr SJp SJr). }
  split; [exact Hid|].
  rewrite Exp, Exm, Exvp, Exvr. repeat split.
Qed.

(** X13.  The reduced mass matrix is symmetric whenever the dense matrix
    the engine writes is: selecting the same indices for rows and columns
    keeps entry (a, b) equal to entry (b, a). *)
Theorem reduced_mass_matrix_is_symmetric (w : World) (force : bool) :
  backend_ready w ->
  (new_update (self w) || force)%bool = true ->
  let d := mj_forward (model (sim w)) (data (sim w)) in
  let nv := length (qvel d) in
  (forall i j, (i < nv)%nat -> (j < nv)%nat ->
     mj_fullM (model (sim w)) (qM d) (i * nv + j)
     = mj_fullM (model (sim w)) (qM d) (j * nv + i)) ->
  exists w' mm,
    update force w = Ok (tt, w') /\
    mass_matrix (robot (self w')) = Some mm /\
    forall a b,
      (a < length (qvel_index (self w)))%nat ->
      (b < length (qvel_index (self w)))%nat ->
      nth b (nth a mm []) 0 = nth a (nth b mm []) 0.
Proof.
  intros Hready Hflag d nv Hsym.
  destruct (query_robot_state_values w Hready)
    as (id & xp & xm & xvp & xvr & jpos & jvel & jp & jr & Jp & Jr & rows
        & mm & rest & _ & _ & _ & _ & _ & _ & _
        & _ & _ & _ & _ & Hrows & Hmm & Hq).
  fold d in Hrows, Hmm, Hq. fold nv in Hrows, Hmm, Hq.
  eexists _, mm. split.
  { exact (update_of_query w _ force _ Hflag Hq). }
  split; [reflexivity|].
  intros a b Ha Hb.
  set (buffer := map (mj_fullM (model (sim w)) (qM d)) (seq 0 (nv * nv)))
    in *.
  assert (Hbuf : length buffer = (nv * nv)%nat).
  { unfold buffer. rewrite length_map, length_seq. reflexivity. }
  destruct (submatrix_entry nv buffer _ rows mm a b Hbuf Hrows Hmm Ha Hb)
    as (Hia & Hib & Eab).
  destruct (submatrix_entry nv buffer _ rows mm b a Hbuf Hrows Hmm Hb Ha)
    as (_ & _ & Eba).
  rewrite Eab, Eba. unfold buffer.
  rewrite !nth_map_seq by nia.
  apply Hsym; assumption.
Qed.

End UpdateResults.

Lemma demo_backend_ready (c : Controller) (now : R) :
  eef_name c = "grip_site"%string ->
  qpos_index c = [0%Z; 1%Z] -> qvel_index c = [0%Z; 1%Z] ->
  backend_ready (MJ := demo_mujoco) {| self := c; sim := demo_sim now |} /\
  backend_ready (MJ := demo_mujoco_symmetric)
    {| self := c; sim := demo_sim now |}.
Proof.
  intros He Hq Hv. unfold backend_ready. cbn. rewrite He, Hq, Hv. cbn.
  split.
  - split; [exists 0%nat; repeat split; lia|].
    split; [repeat constructor; lia|].
    split; [repeat constructor; lia|].
    split; eexists; split; reflexivity.
  - split; [exists 0%nat; repeat split; lia|].
    split; [repeat constructor; lia|].
    split; [repeat constructor; lia|].
    split; eexists; split; reflexivity.
Qed.

Lemma update_populates_the_cache_witness :
  exists w' id,
    update (MJ := demo_mujoco) false (demo_world [-1] [1] [-2] [2] 0)
    = Ok (tt, w') /\
    populated (demo_controller [-1] [1] [-2] [2]) (robot (self w')) /\
    ee_pos (robot (self w')) = nth_error [(1, 2, 3)] id.
Proof.
  destruct (update_populates_the_cache (MJ := demo_mujoco)
              (demo_world [-1] [1] [-2] [2] 0) false)
    as (w' & id & Hrun & _ & Hpop & _ & Hpos & _).
  - apply (demo_backend_ready (demo_controller [-1] [1] [-2] [2]) 0);
      reflexivity.
  - reflexivity.
  - exists w', id. split; [exact Hrun|]. split; [exact Hpop | exact Hpos].
Defined.

Lemma reduced_mass_matrix_is_symmetric_witness :
  exists w' mm,
    update (MJ := demo_mujoco_symmetric) false
      (demo_world [-1] [1] [-2] [2] 0) = Ok (tt, w') /\
    mass_matrix (robot (self w')) = Some mm /\
    nth 1 (nth 0 mm []) 0 = nth 0 (nth 1 mm []) 0.
Proof.
  destruct (reduced_mass_matrix_is_symmetric (MJ := demo_mujoco_symmetric)
              (demo_world [-1] [1] [-2] [2] 0) false)
    as (w' & mm & Hrun & Hmm & Hsym).
  - apply (demo_backend_ready (demo_controller [-1] [1] [-2] [2]) 0);
      reflexivity.
  - reflexivity.
  - cbn. intros i j Hi Hj.
    destruct i as [|[|i]]; destruct j as [|[|j]]; try lia; reflexivity.
  - exists w', mm. split; [exact Hrun|]. split; [exact Hmm|].
    apply Hsym; cbn; lia.
Defined.

(** ** The life cycle of the cache *)

Section LifeCycle.
Context `{MJ : MuJoCo} `{TU : TransformUtils}.

(** X14.  After an [update] that returned, another [update()] does nothing
    at all; once [run_controller] has marked the cache dirty, which is all
    its base-class body does, the next [update()] queries the simulator
    again, starting with [forward]. *)
Theorem update_twice_then_run_controller (w w1 : World) (force : bool) :
  update force w = Ok (tt, w1) ->
  update false w1 = Ok (tt, w1) /\
  exists w2,
    run_controller w1 = Ok (tt, w2) /\
    self w2 = set_new_update true (self w1) /\
    sim w2 = sim w1 /\
    (backend_ready w2 ->
     exists w3 rest,
       update false w2 = Ok (tt, w3) /\
       new_update (self w3) = false /\
       calls (sim w3) = calls (sim w1) ++ call_forward :: rest).
Proof.
  intros Hrun. split.
  - apply update_clean. exact (update_clears w w1 force Hrun).
  - eexists. split; [reflexivity|].
    split; [reflexivity|]. split; [reflexivity|].
    intros Hready.
    destruct (query_robot_state_ready _ Hready) as (r & rest & Hq).
    pose proof (update_of_query
                  {| self := set_new_update true (self w1); sim := sim w1 |}
                  _ false r eq_refl Hq) as Hup.
    eexists. exists rest. split; [exact Hup|].
    split; reflexivity.
Qed.



(** X16.  [update_initial_joints] stores the given joint array, refreshes
    the cache even when it is clean, and takes the initial end-effector
    position and orientation from the refreshed cache; unlike the
    constructor it leaves the initial angular velocity as it was. *)
Theorem update_initial_joints_refreshes (w : World) (q : ndarray) :
  backend_ready w ->
  exists w' rest,
    update_initial_joints q w = Ok (tt, w') /\
    initial_joint (initial (self w')) = Some q /\
    initial_ee_pos (initial (self w')) = ee_pos (robot (self w')) /\
    initial_ee_ori_mat (initial (self w')) = ee_ori_mat (robot (self w')) /\
    initial_ee_ori_vel (initial (self w'))
    = initial_ee_ori_vel (initial (self w)) /\
    new_update (self w') = false /\
    (exists p, ee_pos (robot (self w')) = Some p) /\
    calls (sim w') = calls (sim w) ++ call_forward :: rest.
Proof.
  intros Hready.
  set (wa := {| self :=
                  set_initial
                    {| initial_joint := Some q;
                       initial_ee_pos := initial_ee_pos (initial (self w));
                       initial_ee_ori_mat :=
                         initial_ee_ori_mat (initial (self w));
                       initial_ee_ori_vel :=
                         initial_ee_ori_vel (initial (self w)) |} (self w);
                sim := sim w |}).
  assert (Hready' : backend_ready wa) by exact Hready.
  destruct (query_robot_state_values wa Hready')
    as (id & xp & xm & xvp & xvr & jpos & jvel & jp & jr & Jp & Jr & rows
        & mm & rest & _ & _ & _ & _ & _ & _ & _
        & _ & _ & _ & _ & _ & _ & Hq).
  cbv zeta in Hq.
  pose proof (update_of_query wa _ true _ (orb_true_r _) Hq) as Hup.
  eexists. exists rest. split.
  { unfold update_initial_joints, bind, modify_self.
    fold wa. rewrite Hup. reflexivity. }
  cbn [self sim robot initial set_initial set_new_update set_robot
       new_update initial_joint initial_ee_pos initial_ee_ori_mat
       initial_ee_ori_vel ee_pos ee_ori_mat calls wa].
  repeat (split; [reflexivity|]).
  split; [exists xp; reflexivity | reflexivity].
Qed.

End LifeCycle.


Lemma update_twice_then_run_controller_witness :
  exists w1,
    update (MJ := demo_mujoco) false (demo_world [-1] [1] [-2] [2] 0)
    = Ok (tt, w1) /\
    update (MJ := demo_mujoco) false w1 = Ok (tt, w1).
Proof.
  destruct (query_robot_state_ready (MJ := demo_mujoco)
              (demo_world [-1] [1] [-2] [2] 0)) as (r & rest & Hq).
  - apply (demo_backend_ready (demo_controller [-1] [1] [-2] [2]) 0);
      reflexivity.
  - pose proof (update_of_query (MJ := demo_mujoco)
                  (demo_world [-1] [1] [-2] [2] 0) _ false r eq_refl Hq)
      as Hup.
    eexists. split; [exact Hup|].
    exact (proj1 (update_twice_then_run_controller (MJ := demo_mujoco)
                    _ _ false Hup)).
Defined.


Lemma update_initial_joints_refreshes_witness :
  exists w',
    update_initial_joints (MJ := demo_mujoco) [1; 2]
      (demo_world [-1] [1] [-2] [2] 0) = Ok (tt, w') /\
    initial_joint (initial (self w')) = Some [1; 2] /\
    initial_ee_pos (initial (self w')) = ee_pos (robot (self w')).
Proof.
  destruct (update_initial_joints_refreshes (MJ := demo_mujoco)
              (demo_world [-1] [1] [-2] [2] 0) [1; 2])
    as (w' & rest & Hrun & Hq & Hpos & _).
  - apply (demo_backend_ready (demo_controller [-1] [1] [-2] [2]) 0);
      reflexivity.
  - exists w'. repeat split; assumption.
Defined.

(** ** Gravity compensation *)

Lemma py_index_range {A : Type} (l : list A) (i : Z) (x : A) :
  py_index l i = Ok x ->
  (- Z.of_nat (length l) <= i < Z.of_nat (length l))%Z.
Proof.
  unfold py_index.
  set (n := Z.of_nat (length l)).
  set (j := if (i <? 0)%Z then (i + n)%Z else i).
  assert (Hj : j = if (i <? 0)%Z then (i + n)%Z else i) by reflexivity.
  clearbody j.
  destruct (Z.leb_spec 0 j) as [H0 |]; [|discriminate].
  destruct (Z.ltb_spec j n) as [H1 |]; [|discriminate].
  intros _. destruct (Z.ltb_spec i 0); lia.
Qed.

Lemma py_index_error {A : Type} (l : list A) (i : Z) (e : exn) :
  py_index l i = Raise e -> e = IndexError.
Proof.
  unfold py_index.
  destruct (_ && _)%bool; [|congruence].
  destruct (nth_error l _); congruence.
Qed.

Lemma py_take_range {A : Type} (l : list A) (idx : list Z) (r : list A) :
  py_take l idx = Ok r -> valid_indices idx (length l).
Proof.
  revert r. induction idx as [| i idx IH]; intros r; cbn [py_take].
  - intros _. constructor.
  - destruct (py_index l i) as [x | e] eqn:Ei; [|discriminate].
    cbn [rbind].
    destruct (py_take l idx) as [r' | e] eqn:Er; [|discriminate].
    intros _. constructor.
    + exact (py_index_range l i x Ei).
    + exact (IH r' eq_refl).
Qed.

Lemma py_take_error {A : Type} (l : list A) (idx : list Z) (e : exn) :
  py_take l idx = Raise e -> e = IndexError.
Proof.
  induction idx as [| i idx IH]; cbn [py_take]; [discriminate|].
  destruct (py_index l i) as [x | e'] eqn:Ei; cbn [rbind].
  - destruct (py_take l idx) as [r' | e'']; cbn [rbind]; [discriminate|].
    intros H. injection H as <-. apply IH. reflexivity.
  - intros H. injection H as <-. exact (py_index_error l i e' Ei).
Qed.

(** X17.  [torque_compensation] is not served from the state cache: at
    every call it reads [qfrc_bias] from the simulator's current data,
    without calling [forward] and without touching the controller, and
    returns one entry per velocity index, negative indices counting from
    the end.  When some index is out of range it raises [IndexError]. *)
Theorem torque_compensation_reads_the_simulator (w : World) :
  let bias := qfrc_bias (data (sim w)) in
  let idx := qvel_index (self w) in
  (valid_indices idx (length bias) ->
   exists r,
     torque_compensation w = Ok (r, after_read read_qfrc_bias w) /\
     length r = length idx /\
     forall k, (k < length idx)%nat ->
       nth k r 0 = nth (norm_index (length bias) (nth k idx 0%Z)) bias 0) /\
  (~ valid_indices idx (length bias) ->
   torque_compensation w = Raise IndexError).
Proof.
  intros bias idx.
  assert (Hrun : torque_compensation w
                 = match py_take bias idx with
                   | Ok r => Ok (r, after_read read_qfrc_bias w)
                   | Raise e => Raise e
                   end).
  { unfold torque_compensation, bind, get_self, sim_read, lift, after_read.
    cbn [self sim]. fold bias. fold idx.
    destruct (py_take bias idx); reflexivity. }
  split.
  - intros Hvalid.
    destruct (py_take_valid bias idx Hvalid) as (r & Hr & _).
    exists r. rewrite Hrun, Hr. split; [reflexivity|].
    destruct (py_take_nth bias idx r 0 Hr) as [Hlen Hnth].
    split; [exact Hlen|].
    intros k Hk. exact (proj2 (Hnth k Hk)).
  - intros Hbad. rewrite Hrun.
    destruct (py_take bias idx) as [r | e] eqn:Er.
    + exfalso. apply Hbad. exact (py_take_range bias idx r Er).
    + rewrite (py_take_error bias idx e Er). reflexivity.
Qed.

Lemma torque_compensation_reads_the_simulator_witness :
  exists r,
    torque_compensation (demo_world [-1] [1] [-2] [2] 0)
    = Ok (r, after_read read_qfrc_bias (demo_world [-1] [1] [-2] [2] 0)) /\
    length r = 2%nat.
Proof.
  destruct (proj1 (torque_compensation_reads_the_simulator
                     (demo_world [-1] [1] [-2] [2] 0)))
    as (r & Hr & Hlen & _).
  - cbn. repeat constructor; lia.
  - exists r. split; [exact Hr | exact Hlen].
Defined.

(** ** Euler-angle rates *)

Section EulerRates.
Context `{MJ : MuJoCo} `{TU : TransformUtils}.

Lemma euler2EEangle_vel_run (w : World) (m : mat3) (v : vec3) :
  ee_ori_mat (robot (self w)) = Some m ->
  euler2EEangle_vel v w = Ok (np_dot_3 (mat_EE (mat2euler m)) v, w) /\
  euler2WorldAngle_vel v w
  = Ok (np_dot_3 m (np_dot_3 (mat_EE (mat2euler m)) v), w).
Proof.
  intros Hm.
  assert (H1 : euler2EEangle_vel v w
               = Ok (np_dot_3 (mat_EE (mat2euler m)) v, w)).
  { unfold euler2EEangle_vel, bind, get_self, lift, ret.
    rewrite Hm. cbn [not_None]. reflexivity. }
  split; [exact H1|].
  unfold euler2WorldAngle_vel, bind, get_self. rewrite H1.
  unfold lift, ret. rewrite Hm. cbn [not_None]. reflexivity.
Qed.

Lemma np_dot_3_zero (m : mat3) : np_dot_3 m v3_zero = v3_zero.
Proof.
  destruct m as [[[[a b] c] [[d e] f]] [[g h] i]].
  unfold v3_zero. cbn [np_dot_3 v3_dot].
  f_equal; [f_equal|]; ring.
Qed.

Lemma mat_EE_injective (phi theta psi : R) (u v : vec3) :
  cos theta <> 0 ->
  np_dot_3 (mat_EE (phi, theta, psi)) u
  = np_dot_3 (mat_EE (phi, theta, psi)) v ->
  u = v.
Proof.
  intros Hc.
  destruct u as [[x y] z], v as [[x' y'] z'].
  cbn [np_dot_3 mat_EE v3_dot].
  intros H. injection H as E1 E2 E3.
  pose proof (sin2_cos2 phi) as Hphi. unfold Rsqr in Hphi.
  assert (Hz : cos theta * (z - z') = 0).
  { replace (cos theta * (z - z'))
      with (cos theta * (z - z') * (sin phi * sin phi + cos phi * cos phi))
      by (rewrite Hphi; ring).
    replace (cos theta * (z - z') * (sin phi * sin phi + cos phi * cos phi))
      with (cos phi
            * ((0 * x + sin phi * y + cos theta * cos phi * z)
               - (0 * x' + sin phi * y' + cos theta * cos phi * z'))
            - sin phi
              * ((0 * x + cos phi * y + - cos theta * sin phi * z)
                 - (0 * x' + cos phi * y' + - cos theta * sin phi * z')))
      by ring.
    rewrite E2, E3. ring. }
  assert (Ez : z = z').
  { destruct (Rmult_integral _ _ Hz) as [H0 | H0]; [contradiction | lra]. }
  subst z'.
  assert (Ey : y = y').
  { assert (Hy : (y - y') * (sin phi * sin phi + cos phi * cos phi) = 0).
    { replace ((y - y') * (sin phi * sin phi + cos phi * cos phi))
        with (sin phi
              * ((0 * x + sin phi * y + cos theta * cos phi * z)
                 - (0 * x' + sin phi * y' + cos theta * cos phi * z))
              + cos phi
                * ((0 * x + cos phi * y + - cos theta * sin phi * z)
                   - (0 * x' + cos phi * y' + - cos theta * sin phi * z)))
        by ring.
      rewrite E2, E3. ring. }
    rewrite Hphi in Hy. lra. }
  subst y'.
  assert (Ex : x = x') by lra.
  subst x'. reflexivity.
Qed.

(** X18.  [euler2EEangle_vel] multiplies the Euler-angle rates by a matrix
    built from the first two Euler angles of the cached orientation, and
    [euler2WorldAngle_vel] multiplies that result by the cached orientation
    matrix; neither changes the controller or reads the simulator.  Away
    from [cos(theta) = 0] different Euler rates give different body rates;
    at [cos(theta) = 0] the non-zero Euler rate [(sin(theta), 0, -1)] is
    mapped to the zero angular velocity by both methods. *)
Theorem euler_rates_lose_a_direction_at_right_pitch (w : World) (m : mat3) :
  ee_ori_mat (robot (self w)) = Some m ->
  let theta := snd (fst (mat2euler m)) in
  (forall v,
     euler2EEangle_vel v w = Ok (np_dot_3 (mat_EE (mat2euler m)) v, w) /\
     euler2WorldAngle_vel v w
     = Ok (np_dot_3 m (np_dot_3 (mat_EE (mat2euler m)) v), w)) /\
  (cos theta <> 0 ->
   forall u v, euler2EEangle_vel u w = euler2EEangle_vel v w -> u = v) /\
  (cos theta = 0 ->
   (sin theta, 0, -1) <> v3_zero /\
   euler2EEangle_vel (sin theta, 0, -1) w = Ok (v3_zero, w) /\
   euler2WorldAngle_vel (sin theta, 0, -1) w = Ok (v3_zero, w)).
Proof.
  intros Hm theta.
  split; [intros v; exact (euler2EEangle_vel_run w m v Hm)|].
  split.
  - intros Hc u v Heq.
    rewrite (proj1 (euler2EEangle_vel_run w m u Hm)) in Heq.
    rewrite (proj1 (euler2EEangle_vel_run w m v Hm)) in Heq.
    injection Heq as Heq.
    subst theta. destruct (mat2euler m) as [[phi th] psi].
    cbn [fst snd] in Hc.
    exact (mat_EE_injective phi th psi u v Hc Heq).
  - intros Hc.
    split.
    { intros H. injection H as _ H. lra. }
    destruct (euler2EEangle_vel_run w m (sin theta, 0, -1) Hm) as [H1 H2].
    rewrite H1, H2.
    assert (Hz : np_dot_3 (mat_EE (mat2euler m)) (sin theta, 0, -1)
                 = v3_zero).
    { subst theta. destruct (mat2euler m) as [[phi th] psi].
      cbn [fst snd] in Hc |- *.
      cbn [np_dot_3 mat_EE v3_dot]. rewrite Hc. unfold v3_zero.
      f_equal; [f_equal|]; ring. }
    rewrite Hz. split; [reflexivity|].
    rewrite np_dot_3_zero. reflexivity.
Qed.

End EulerRates.

Lemma euler_rates_lose_a_direction_at_right_pitch_witness :
  euler2EEangle_vel (TU := demo_transform_utils) (1, 2, 3)
    (demo_oriented_world identity3)
  = Ok (np_dot_3 (mat_EE (1, 0, 0)) (1, 2, 3),
        demo_oriented_world identity3).
Proof.
  exact (proj1 (proj1 (euler_rates_lose_a_direction_at_right_pitch
                         (TU := demo_transform_utils)
                         (demo_oriented_world identity3) identity3 eq_refl)
                  (1, 2, 3))).
Defined.
